(** * Response parsing and error location of the Cambridge writing analyzer

    A shallow embedding of [parseAnalysisOutput] (the route handler of
    [/api/analyze]) together with the parts of the JavaScript runtime it
    calls: strings of UTF-16 code units, the backtracking regular
    expression matcher, [JSON.parse], [parseFloat], [Math.round] and the
    stable [Array.prototype.sort].  Numbers that the code computes with
    are binary64 floats, as in the runtime.

    The second part embeds the code around the parser: the rate limiter,
    the checks of the submission and the handler [POST] that calls them,
    the word count of the page, the criteria grid and the rendering by
    position of the highlighter. *)

From Stdlib Require Import String Ascii.
From Stdlib Require Import ZArith NArith Bool Lia Floats Uint63.
From Stdlib Require Import List Sorted Permutation.
Import ListNotations.

Set Implicit Arguments.
Set Warnings "-register-all".
Set Warnings "-inexact-float".

(** ** Strings *)

(** A JavaScript string is a sequence of UTF-16 code units. *)
Definition char := N.
Definition jsstring := list char.

(** Source literals are ASCII; [js "..."] is the string of their codes. *)
Definition js (s : string) : jsstring :=
  map N_of_ascii (list_ascii_of_string s).
Arguments js s%_string.

(** The same with every apostrophe read as a double quote, for literals
    that hold JSON text. *)
Definition jsq (s : string) : jsstring :=
  map (fun c => if (c =? 39)%N then 34%N else c) (js s).
Arguments jsq s%_string.

Definition chr (a : ascii) : char := N_of_ascii a.
Arguments chr a%_char.

(** [===] on strings. *)
Fixpoint str_eqb (a b : jsstring) : bool :=
  match a, b with
  | [], [] => true
  | x :: a', y :: b' => N.eqb x y && str_eqb a' b'
  | _, _ => false
  end.

(** [s.substring(a, b)]: indices are clamped to the string and swapped
    when [a > b]. *)
Definition substring (s : jsstring) (a b : nat) : jsstring :=
  firstn (Nat.max a b - Nat.min a b) (skipn (Nat.min a b) s).

(** [s.substring(a)]. *)
Definition substringFrom (s : jsstring) (a : nat) : jsstring := skipn a s.

Fixpoint startsWith (p s : jsstring) : bool :=
  match p, s with
  | [], _ => true
  | x :: p', y :: s' => N.eqb x y && startsWith p' s'
  | _ :: _, [] => false
  end.

(** [s.indexOf(p)], with [None] for -1. *)
Fixpoint indexOfFrom (p s : jsstring) (i : nat) : option nat :=
  if startsWith p s then Some i
  else match s with
       | [] => None
       | _ :: s' => indexOfFrom p s' (S i)
       end.

Definition indexOf (s p : jsstring) : option nat := indexOfFrom p s 0.

(** WhiteSpace and LineTerminator code units: the class [\s] of regular
    expressions and the units removed by [trim]. *)
Definition isSpace (c : char) : bool :=
  ((9 <=? c) && (c <=? 13) || (c =? 32) || (c =? 160) || (c =? 5760)
   || (8192 <=? c) && (c <=? 8202) || (c =? 8232) || (c =? 8233)
   || (c =? 8239) || (c =? 8287) || (c =? 12288) || (c =? 65279))%N.

(** LineTerminator code units, which [.] does not match. *)
Definition isLineTerminator (c : char) : bool :=
  ((c =? 10) || (c =? 13) || (c =? 8232) || (c =? 8233))%N.

Definition isDigit (c : char) : bool := ((48 <=? c) && (c <=? 57))%N.

Fixpoint dropWhile (p : char -> bool) (s : jsstring) : jsstring :=
  match s with
  | c :: s' => if p c then dropWhile p s' else s
  | [] => []
  end.

(** [s.trim()]. *)
Definition trim (s : jsstring) : jsstring :=
  rev (dropWhile isSpace (rev (dropWhile isSpace s))).

(** [s.split('\n')]: the pieces between line feeds; the empty string
    splits into one empty piece. *)
Fixpoint splitLines (s : jsstring) : list jsstring :=
  match s with
  | [] => [ [] ]
  | c :: s' =>
      if (c =? 10)%N then [] :: splitLines s'
      else match splitLines s' with
           | l :: ls => (c :: l) :: ls
           | [] => [ [c] ]
           end
  end.

(** [s.replace(/\n+/g, ' ')]: each maximal run of line feeds becomes one
    space; [inRun] tells that the previous unit was a line feed. *)
Fixpoint collapseFrom (inRun : bool) (s : jsstring) : jsstring :=
  match s with
  | [] => []
  | c :: s' =>
      if (c =? 10)%N
      then if inRun then collapseFrom true s' else 32%N :: collapseFrom true s'
      else c :: collapseFrom false s'
  end.

Definition collapseNewlines (s : jsstring) : jsstring := collapseFrom false s.

(** ** Regular expressions

    The patterns of the source are kept as syntax trees and run by the
    backtracking matcher of the language definition: alternatives are
    tried left to right, a greedy quantifier tries one more iteration
    before it tries the continuation, a lazy one the other way round, and
    an iteration that consumes nothing is rejected.  None of the patterns
    has a capturing group under a quantifier, a back-reference or a
    look-behind, so a matcher state is the unread suffix, its offset and
    the captures recorded so far. *)

Inductive regex : Type :=
| Empty                                  (* matches the empty string *)
| Unit (p : char -> bool)                (* one code unit of a class *)
| Cat (r1 r2 : regex)                    (* r1r2 *)
| Alt (r1 r2 : regex)                    (* r1|r2 *)
| Star (greedy : bool) (r : regex)       (* r* and r*? *)
| Group (i : nat) (r : regex)            (* the i-th capturing group *)
| Ahead (r : regex)                      (* (?=r) *)
| Eos.                                   (* $ without the m flag *)

Declare Scope re_scope.
Delimit Scope re_scope with re.
Bind Scope re_scope with regex.
Notation "r1 ;; r2" := (Cat r1 r2) (at level 61, right associativity) : re_scope.
Notation "r1 <|> r2" := (Alt r1 r2) (at level 62, right associativity) : re_scope.

(** [r?] and [r+], both greedy. *)
Definition Opt (r : regex) : regex := Alt r Empty.
Definition Plus (r : regex) : regex := Cat r (Star true r).

Definition one (a : ascii) : regex := Unit (N.eqb (chr a)).
Arguments one a%_char.

(** Under the [i] flag a Basic Latin letter of the pattern matches both
    of its cases and nothing else: Canonicalize never maps a unit above
    127 to one below 128. *)
Definition isUpper (c : char) : bool := ((65 <=? c) && (c <=? 90))%N.
Definition isLower (c : char) : bool := ((97 <=? c) && (c <=? 122))%N.

Definition eqbIgnoreCase (c x : char) : bool :=
  (x =? c)%N
  || (isUpper c && (x =? c + 32)%N)
  || (isLower c && (x =? c - 32)%N).

Definition oneI (c : char) : regex := Unit (eqbIgnoreCase c).

(** A literal run of the pattern, without and with the [i] flag. *)
Fixpoint lit (s : jsstring) : regex :=
  match s with
  | [] => Empty
  | c :: s' => Cat (Unit (N.eqb c)) (lit s')
  end.

Fixpoint litI (s : jsstring) : regex :=
  match s with
  | [] => Empty
  | c :: s' => Cat (oneI c) (litI s')
  end.

(** The classes used by the patterns: [\s], [\d], [.], and [[\s\S]] or
    [[^]], which match every unit. *)
Definition space : regex := Unit isSpace.
Definition digit : regex := Unit isDigit.
Definition dot : regex := Unit (fun c => negb (isLineTerminator c)).
Definition any : regex := Unit (fun _ => true).

Record mstate : Type := MState {
  rest : jsstring;                       (* the input from the current offset on *)
  pos : nat;                             (* the current offset *)
  caps : list (nat * jsstring)           (* captures, the latest first *)
}.

Definition cont : Type := mstate -> option mstate.

Definition capture (i : nat) (from to : mstate) : mstate :=
  MState (rest to) (pos to)
         ((i, firstn (pos to - pos from) (rest from)) :: caps to).

(** The iterations of a quantified [body], at most [n] of them: every
    iteration that is kept consumes input, so the length of the unread
    input bounds their number. *)
Fixpoint iterate (body : cont -> mstate -> option mstate) (greedy : bool)
         (k : cont) (n : nat) (st : mstate) {struct n} : option mstate :=
  match n with
  | O => k st
  | S n' =>
      let again (_ : unit) :=
        body (fun st' => if pos st' =? pos st then None
                         else iterate body greedy k n' st') st in
      if greedy then
        match again tt with
        | Some st' => Some st'
        | None => k st
        end
      else
        match k st with
        | Some st' => Some st'
        | None => again tt
        end
  end.

Fixpoint run (r : regex) (k : cont) (st : mstate) {struct r} : option mstate :=
  match r with
  | Empty => k st
  | Unit p =>
      match rest st with
      | c :: s' => if p c then k (MState s' (S (pos st)) (caps st)) else None
      | [] => None
      end
  | Cat r1 r2 => run r1 (run r2 k) st
  | Alt r1 r2 =>
      match run r1 k st with
      | Some st' => Some st'
      | None => run r2 k st
      end
  | Star greedy r1 => iterate (run r1) greedy k (S (length (rest st))) st
  | Group i r1 => run r1 (fun st' => k (capture i st st')) st
  | Ahead r1 =>
      match run r1 Some st with
      | Some st' => k (MState (rest st) (pos st) (caps st'))
      | None => None
      end
  | Eos =>
      match rest st with
      | [] => k st
      | _ :: _ => None
      end
  end.

(** A successful match: where it starts, where it ends and what the
    groups captured. *)
Record rmatch : Type := RMatch {
  m_index : nat;
  m_end : nat;
  m_caps : list (nat * jsstring)
}.

Fixpoint assoc (A : Type) (i : nat) (l : list (nat * A)) : option A :=
  match l with
  | [] => None
  | (j, a) :: l' => if i =? j then Some a else assoc i l'
  end.

(** [m[i]] for a group that took part in the match. *)
Definition group (m : rmatch) (i : nat) : jsstring :=
  match assoc i (m_caps m) with
  | Some s => s
  | None => []
  end.

(** One attempt at offset [i], whose suffix is [s]. *)
Definition matchAt (r : regex) (s : jsstring) (i : nat) : option rmatch :=
  match run r Some (MState s i []) with
  | Some st => Some (RMatch i (pos st) (caps st))
  | None => None
  end.

(** [r.exec(s)] from offset [i] on: the first offset at which an attempt
    succeeds. *)
Fixpoint search (r : regex) (s : jsstring) (i : nat) : option rmatch :=
  match matchAt r s i with
  | Some m => Some m
  | None =>
      match s with
      | [] => None
      | _ :: s' => search r s' (S i)
      end
  end.

(** The successive matches of a global pattern, as [s.match(r)] and the
    loop [while ((m = r.exec(s)) !== null)] enumerate them: the next
    attempt starts where the last match ended, one unit further when the
    match was empty.  [skip] counts the units still covered by the last
    match. *)
Fixpoint scan (r : regex) (skip : nat) (s : jsstring) (i : nat) : list rmatch :=
  match skip with
  | S skip' =>
      match s with
      | [] => []
      | _ :: s' => scan r skip' s' (S i)
      end
  | O =>
      match matchAt r s i with
      | Some m =>
          m :: match s with
               | [] => []
               | _ :: s' => scan r (m_end m - i - 1) s' (S i)
               end
      | None =>
          match s with
          | [] => []
          | _ :: s' => scan r 0 s' (S i)
          end
      end
  end.

Definition matchAll (r : regex) (s : jsstring) : list rmatch := scan r 0 s 0.

(** [m[0]], the matched text. *)
Definition matched (s : jsstring) (m : rmatch) : jsstring :=
  substring s (m_index m) (m_end m).

(** ** JSON values and [JSON.parse]

    The decoded error list is typed [any[]] in the source: whatever
    [JSON.parse] returns flows through the pipeline.  A number keeps the
    exact decimal value [m * 10 ^ e] of its literal; the pipeline looks
    at a number only to test whether it is zero.  An object is the list
    of its properties in the order in which they were first written (the
    runtime enumerates integer-like keys first; the pipeline reads
    properties by key only, so nothing depends on the order). *)

Inductive value : Type :=
| VNull
| VBool (b : bool)
| VNum (m e : Z)
| VStr (s : jsstring)
| VArr (l : list value)
| VObj (props : list (jsstring * value)).

(** Reading and writing a property of an object. *)
Fixpoint lookup (k : jsstring) (props : list (jsstring * value)) : option value :=
  match props with
  | [] => None
  | (k', v) :: props' => if str_eqb k k' then Some v else lookup k props'
  end.

Fixpoint setProp (k : jsstring) (v : value) (props : list (jsstring * value))
  : list (jsstring * value) :=
  match props with
  | [] => [(k, v)]
  | (k', v') :: props' =>
      if str_eqb k k' then (k, v) :: props' else (k', v') :: setProp k v props'
  end.

(** JSON white space. *)
Definition isJsonSpace (c : char) : bool :=
  ((c =? 32) || (c =? 9) || (c =? 10) || (c =? 13))%N.

Definition skipSpace (s : jsstring) : jsstring := dropWhile isJsonSpace s.

Definition hexValue (c : char) : option N :=
  if isDigit c then Some (c - 48)%N
  else if ((97 <=? c) && (c <=? 102))%N then Some (c - 87)%N
  else if ((65 <=? c) && (c <=? 70))%N then Some (c - 55)%N
  else None.

Definition hex4 (a b c d : char) : option char :=
  match hexValue a, hexValue b, hexValue c, hexValue d with
  | Some x, Some y, Some z, Some w => Some (((x * 16 + y) * 16 + z) * 16 + w)%N
  | _, _, _, _ => None
  end.

(** The body of a string literal after its opening quote: the decoded
    string and the input after the closing quote. *)
Fixpoint parseStringBody (s : jsstring) (acc : jsstring) : option (jsstring * jsstring) :=
  match s with
  | [] => None
  | c :: s' =>
      if (c =? 34)%N then Some (rev acc, s')
      else if (c =? 92)%N then
        match s' with
        | e :: s'' =>
            if (e =? 34)%N then parseStringBody s'' (34 :: acc)%N
            else if (e =? 92)%N then parseStringBody s'' (92 :: acc)%N
            else if (e =? 47)%N then parseStringBody s'' (47 :: acc)%N
            else if (e =? 98)%N then parseStringBody s'' (8 :: acc)%N
            else if (e =? 102)%N then parseStringBody s'' (12 :: acc)%N
            else if (e =? 110)%N then parseStringBody s'' (10 :: acc)%N
            else if (e =? 114)%N then parseStringBody s'' (13 :: acc)%N
            else if (e =? 116)%N then parseStringBody s'' (9 :: acc)%N
            else if (e =? 117)%N then
              match s'' with
              | a :: b :: c' :: d :: s4 =>
                  match hex4 a b c' d with
                  | Some u => parseStringBody s4 (u :: acc)
                  | None => None
                  end
              | _ => None
              end
            else None
        | [] => None
        end
      else if (c <? 32)%N then None
      else parseStringBody s' (c :: acc)
  end.

(** A maximal run of decimal digits: its value, its length and the input
    after it. *)
Fixpoint digits (s : jsstring) (acc : Z) (n : nat) : Z * nat * jsstring :=
  match s with
  | c :: s' => if isDigit c then digits s' (acc * 10 + Z.of_N (c - 48)) (S n) else (acc, n, s)
  | [] => (acc, n, [])
  end.

(** A leading sign: whether it is a minus, and the input after it.
    [plus] tells whether a plus sign is read as well. *)
Definition parseSign (plus : bool) (s : jsstring) : bool * jsstring :=
  match s with
  | c :: s' =>
      if (c =? 45)%N then (true, s')
      else if plus && (c =? 43)%N then (false, s')
      else (false, s)
  | [] => (false, s)
  end.

(** The integer part, without a leading zero, and the optional
    fraction: the digits of both as one integer, and the number of
    fraction digits. *)
Definition parseMantissa (s : jsstring) : option (Z * nat * jsstring) :=
  let '(i, ni, s1) := digits s 0 0 in
  let leadingZero :=
    match s with
    | c :: _ => (c =? 48)%N && (1 <? ni)
    | [] => false
    end in
  if (ni =? 0) || leadingZero then None
  else
    match s1 with
    | c :: s2 =>
        if (c =? 46)%N then
          let '(f, nf, s3) := digits s2 i 0 in
          if nf =? 0 then None else Some (f, nf, s3)
        else Some (i, 0, s1)
    | [] => Some (i, 0, s1)
    end.

(** The optional exponent. *)
Definition parseExponent (s : jsstring) : option (Z * jsstring) :=
  match s with
  | c :: s1 =>
      if ((c =? 101) || (c =? 69))%N then
        let '(eneg, s2) := parseSign true s1 in
        let '(e, ne, s3) := digits s2 0 0 in
        if ne =? 0 then None else Some (if eneg then (- e)%Z else e, s3)
      else Some (0%Z, s)
  | [] => Some (0%Z, s)
  end.

(** A number literal, [-? int frac? exp?]. *)
Definition parseNumber (s : jsstring) : option (value * jsstring) :=
  let '(neg, s1) := parseSign false s in
  match parseMantissa s1 with
  | Some (m, nf, s2) =>
      match parseExponent s2 with
      | Some (e, s3) => Some (VNum (if neg then (- m)%Z else m) (e - Z.of_nat nf), s3)
      | None => None
      end
  | None => None
  end.

(** The recursive descent over values.  Every call consumes input before
    it calls again, so the fuel handed over by [JSON_parse] bounds the
    depth of the recursion ([JSON_parse_fuel] below: more fuel never
    changes the result). *)
Fixpoint parseValue (fuel : nat) (s : jsstring) {struct fuel} : option (value * jsstring) :=
  match fuel with
  | O => None
  | S fuel' =>
      match skipSpace s with
      | [] => None
      | c :: s' =>
          if (c =? 123)%N then                           (* { *)
            match skipSpace s' with
            | d :: s'' =>
                if (d =? 125)%N then Some (VObj [], s'')
                else
                  match parseMembers fuel' (d :: s'') [] with
                  | Some (props, s3) => Some (VObj props, s3)
                  | None => None
                  end
            | [] => None
            end
          else if (c =? 91)%N then                       (* [ *)
            match skipSpace s' with
            | d :: s'' =>
                if (d =? 93)%N then Some (VArr [], s'')
                else
                  match parseElements fuel' (d :: s'') with
                  | Some (l, s3) => Some (VArr l, s3)
                  | None => None
                  end
            | [] => None
            end
          else if (c =? 34)%N then                       (* a string *)
            match parseStringBody s' [] with
            | Some (str, s'') => Some (VStr str, s'')
            | None => None
            end
          else if startsWith (js "true") (c :: s') then Some (VBool true, skipn 4 (c :: s'))
          else if startsWith (js "false") (c :: s') then Some (VBool false, skipn 5 (c :: s'))
          else if startsWith (js "null") (c :: s') then Some (VNull, skipn 4 (c :: s'))
          else parseNumber (c :: s')
      end
  end

(** The elements of an array after [[]: values separated by commas, up
    to the closing bracket. *)
with parseElements (fuel : nat) (s : jsstring) {struct fuel} : option (list value * jsstring) :=
  match fuel with
  | O => None
  | S fuel' =>
      match parseValue fuel' s with
      | Some (v, s1) =>
          match skipSpace s1 with
          | c :: s2 =>
              if (c =? 93)%N then Some ([v], s2)
              else if (c =? 44)%N then
                match parseElements fuel' s2 with
                | Some (l, s3) => Some (v :: l, s3)
                | None => None
                end
              else None
          | [] => None
          end
      | None => None
      end
  end

(** The members of an object after [{]: [string : value] pairs separated
    by commas; a repeated key overwrites the earlier value. *)
with parseMembers (fuel : nat) (s : jsstring) (acc : list (jsstring * value)) {struct fuel}
  : option (list (jsstring * value) * jsstring) :=
  match fuel with
  | O => None
  | S fuel' =>
      match skipSpace s with
      | q :: s0 =>
          if (q =? 34)%N then
            match parseStringBody s0 [] with
            | Some (key, s1) =>
                match skipSpace s1 with
                | c :: s2 =>
                    if (c =? 58)%N then
                      match parseValue fuel' s2 with
                      | Some (v, s3) =>
                          match skipSpace s3 with
                          | d :: s4 =>
                              if (d =? 125)%N then Some (setProp key v acc, s4)
                              else if (d =? 44)%N then parseMembers fuel' s4 (setProp key v acc)
                              else None
                          | [] => None
                          end
                      | None => None
                      end
                    else None
                | [] => None
                end
            | None => None
            end
          else None
      | [] => None
      end
  end.

(** [JSON.parse(s)]; [None] stands for the SyntaxError it throws. *)
Definition JSON_parse (s : jsstring) : option value :=
  match parseValue (2 * length s + 2) s with
  | Some (v, s') =>
      match skipSpace s' with
      | [] => Some v
      | _ :: _ => None
      end
  | None => None
  end.

(** ToBoolean.  A number literal denotes zero when its mantissa is zero
    or when its value is at most [2 ^ -1075], half of the least positive
    binary64 number, which rounds to zero. *)
Definition isZeroNumber (m e : Z) : bool :=
  ((m =? 0) || ((e <? 0) && (Z.abs m * 2 ^ 1075 <=? 10 ^ (- e))))%Z.

Definition truthy (v : value) : bool :=
  match v with
  | VNull => false
  | VBool b => b
  | VNum m e => negb (isZeroNumber m e)
  | VStr s => negb (Nat.eqb (length s) 0)
  | VArr _ => true
  | VObj _ => true
  end.

(** [v.k] for the keys the pipeline reads, [text] and [type]: an own
    property of an object, and [undefined] ([None]) on every other
    value, whose prototypes define neither key. *)
Definition getProp (v : value) (k : jsstring) : option value :=
  match v with
  | VObj props => lookup k props
  | _ => None
  end.

(** ** Numbers *)

(** The float of a natural number or of a non-negative integer below
    [2 ^ 63]; exact below [2 ^ 53]. *)
Definition floatOfZ (z : Z) : float := PrimFloat.of_uint63 (Uint63.of_Z z).
Definition floatOfNat (n : nat) : float := floatOfZ (Z.of_nat n).

(** [parseFloat(s)] on the strings the pipeline hands to it: leading
    white space, then the longest prefix of the form [digits],
    [digits.digits], [digits.] or [.digits]; [NaN] when there is no such
    prefix.  Signs, exponents and [Infinity] are not read: no capture of
    the patterns below contains one.  The value is the quotient of two
    integers, which binary64 division rounds correctly. *)
Definition parseFloat (s : jsstring) : float :=
  let s0 := dropWhile isSpace s in
  let '(i, ni, s1) := digits s0 0 0 in
  let '(m, nf) :=
    match s1 with
    | c :: s2 => if (c =? 46)%N then let '(f, nf, _) := digits s2 i 0 in (f, nf) else (i, 0%nat)
    | [] => (i, 0%nat)
    end in
  if Nat.eqb (ni + nf) 0 then nan
  else (floatOfZ m / floatOfZ (10 ^ Z.of_nat nf))%float.

(** [Math.round(x)]: the integer nearest to [x], the larger one on a
    tie, computed on the exact value [m * 2 ^ e] of a finite [x]; zeros,
    infinities and NaN are returned unchanged. *)
Definition Math_round (x : float) : float :=
  match Prim2SF x with
  | S754_finite neg m e =>
      if (0 <=? e)%Z then x
      else
        let sm := if neg then Z.neg m else Z.pos m in
        let n := ((2 * sm + 2 ^ (- e)) / 2 ^ (1 - e))%Z in
        if (n =? 0)%Z then (if neg then neg_zero else zero)
        else if (n <? 0)%Z then (- floatOfZ (- n))%float
        else floatOfZ n
  | _ => x
  end.

(** A float that is an integer. *)
Definition isInteger (x : float) : bool :=
  match Prim2SF x with
  | S754_zero _ => true
  | S754_finite _ _ _ => (Math_round x =? x)%float
  | _ => false
  end.

(** ** Case mapping

    [String.prototype.toLowerCase] follows the Unicode case tables, which
    are data of the runtime.  The pipeline is defined over any mapping
    that, like the runtime's, never shortens a string: a unit or a
    surrogate pair maps to at least as many units. *)
Class CaseMapping : Type := {
  toLowerCase : jsstring -> jsstring;
  toLowerCase_length : forall s, length s <= length (toLowerCase s)
}.

(** The mapping restricted to the letters of Basic Latin and to U+0130
    (capital I with dot above, whose lower case is the two units U+0069
    U+0307); every other unit is left as it is.  It agrees with the
    runtime on every string whose cased units are among these. *)
Definition lowerUnit (c : char) : jsstring :=
  if isUpper c then [(c + 32)%N]
  else if (c =? 304)%N then [105%N; 775%N]
  else [c].

(** The basic mapping of a unit other than U+0130: one unit for one
    unit. *)
Definition lowerChar (c : char) : char := if isUpper c then (c + 32)%N else c.

(** ** The result types *)

Record Criterion : Type := MkCriterion {
  name : jsstring;
  score : float;
  feedback : jsstring
}.

Record AnalysisResult : Type := MkResult {
  overallScore : float;
  criteria : list Criterion;
  errors : list value
}.

(** A call that returns or throws. *)
Inductive outcome (A : Type) : Type :=
| Returns (a : A)
| Throws.
Arguments Throws {A}.

Section Pipeline.
Context {CM : CaseMapping}.

(** ** The error locator (lines 76 to 119 of the handler) *)

(** [/\[[\s\S]*?\]/g] *)
Definition fragmentRe : regex := (one "[" ;; Star false any ;; one "]")%re.

(** [errorsText.match(fragmentRe)]: the matched texts. *)
Definition errorMatches (errorsText : jsstring) : list jsstring :=
  map (matched errorsText) (matchAll fragmentRe errorsText).

(** [try { return JSON.parse(jsonStr) } catch { return null }] *)
Definition tryParse (jsonStr : jsstring) : value :=
  match JSON_parse jsonStr with
  | Some v => v
  | None => VNull
  end.

(** [a.flat()]: one level of arrays is spliced in. *)
Definition flat (l : list value) : list value :=
  flat_map (fun v => match v with VArr l' => l' | _ => [v] end) l.

(** [errorMatches.map(tryParse).filter(Boolean).flat()] *)
Definition decodeFragments (frags : list jsstring) : list value :=
  flat (filter truthy (map tryParse frags)).

(** [e && e.type === 'register' ? { ...e, type: 'style' } : e] *)
Definition isRegister (e : value) : bool :=
  truthy e &&
  match getProp e (js "type") with
  | Some (VStr t) => str_eqb t (js "register")
  | _ => false
  end.

Definition recategorize (e : value) : value :=
  if isRegister e then
    match e with
    | VObj props => VObj (setProp (js "type") (VStr (js "style")) props)
    | _ => e
    end
  else e.

(** [usedRanges[j] = true]; a write past the end lengthens the array,
    and the slots in between stay empty, which [some(Boolean)] passes
    over as it does over [false]. *)
Fixpoint setUsed (j : nat) (used : list bool) : list bool :=
  match used, j with
  | [], O => [true]
  | [], S j' => false :: setUsed j' []
  | _ :: used', O => true :: used'
  | b :: used', S j' => b :: setUsed j' used'
  end.

(** [for (let j = i; j < i + n; j++) usedRanges[j] = true] *)
Fixpoint markUsed (n j : nat) (used : list bool) : list bool :=
  match n with
  | O => used
  | S n' => markUsed n' (S j) (setUsed j used)
  end.

(** [a.slice(i, j)] for [i <= j]. *)
Definition slice (A : Type) (a : list A) (i j : nat) : list A :=
  firstn (j - i) (skipn i a).

(** The test of the scan at offset [i]. *)
Definition freeMatchAt (normWriting normError : jsstring) (used : list bool) (i : nat) : bool :=
  str_eqb (substring normWriting i (i + length normError)) normError
  && negb (existsb (fun b => b) (slice used i (i + length normError))).

(** The scan [for (let i = 0; i <= normWriting.length - normError.length; i++)],
    with [n] iterations left: the first offset that passes the test. *)
Fixpoint firstFree (n i : nat) (normWriting normError : jsstring) (used : list bool)
  : option nat :=
  match n with
  | O => None
  | S n' =>
      if freeMatchAt normWriting normError used i then Some i
      else firstFree n' (S i) normWriting normError used
  end.

Definition findStart (normWriting normError : jsstring) (used : list bool) : option nat :=
  if length normError <=? length normWriting
  then firstFree (S (length normWriting - length normError)) 0 normWriting normError used
  else None.

Definition numberOfNat (n : nat) : value := VNum (Z.of_nat n) 0.

(** [{ ...e, start, end: start + e.text.length }] *)
Definition withSpan (e : value) (start stop : nat) : value :=
  match e with
  | VObj props =>
      VObj (setProp (js "end") (numberOfNat stop)
              (setProp (js "start") (numberOfNat start) props))
  | _ => e
  end.

(** The body of the location pass for one record.  [e.text.toLowerCase()]
    throws a TypeError when [e.text] is truthy and not a string. *)
Definition locateOne (writing : jsstring) (e : value) (used : list bool)
  : outcome (value * list bool) :=
  if negb (truthy e) then Returns (e, used) else
  match getProp e (js "text") with
  | None => Returns (e, used)
  | Some t =>
      if negb (truthy t) then Returns (e, used) else
      match t with
      | VStr text =>
          let normWriting := toLowerCase writing in
          let normError := toLowerCase text in
          match findStart normWriting normError used with
          | Some start =>
              Returns (withSpan e start (start + length text),
                       markUsed (length normError) start used)
          | None => Returns (e, used)
          end
      | _ => Throws
      end
  end.

(** [errors.map(locate)], threading the mask; a throw abandons the map. *)
Fixpoint locateAll (writing : jsstring) (es : list value) (used : list bool)
  : outcome (list value) :=
  match es with
  | [] => Returns []
  | e :: es' =>
      match locateOne writing e used with
      | Throws => Throws
      | Returns (e', used') =>
          match locateAll writing es' used' with
          | Throws => Throws
          | Returns l => Returns (e' :: l)
          end
      end
  end.

(** The records of the errors segment, decoded and recategorized: the
    value of [errors] when the location pass starts. *)
Definition decodedErrors (errorsText : jsstring) : list value :=
  map recategorize (decodeFragments (errorMatches errorsText)).

(** The [if (errorsText) { try { ... } catch { } }] block.  [errors] has
    been assigned the recategorized records when the location pass runs,
    so a throw in the pass leaves them in place. *)
Definition parseErrors (errorsText writing : jsstring) : list value :=
  match errorsText with
  | [] => []
  | _ :: _ =>
      match errorMatches errorsText with
      | [] => []
      | _ :: _ =>
          let errors := decodedErrors errorsText in
          match locateAll writing errors (repeat false (length writing)) with
          | Returns located => located
          | Throws => errors
          end
      end
  end.

(** ** The criterion extractor (lines 121 to 179 of the handler) *)

(** [(Content|Communicative Achievement|Organisation|Language)] under
    the [i] flag. *)
Definition categoryName : regex :=
  (litI (js "Content") <|> litI (js "Communicative Achievement")
   <|> litI (js "Organisation") <|> litI (js "Language"))%re.

(** [\d(?:\.\d)?] *)
Definition scoreDigits : regex := (digit ;; Opt (one "." ;; digit))%re.

(** The primary pattern,
    [/(names)\s*\((\d(?:\.\d)?)\/5\):\s*([\s\S]*?)(?=(?:names)\s*\(\d(?:\.\d)?\/5\):|$)/gi]. *)
Definition primaryRe : regex :=
  (Group 1 categoryName ;; Star true space ;; one "(" ;; Group 2 scoreDigits
   ;; lit (js "/5):") ;; Star true space ;; Group 3 (Star false any)
   ;; Ahead ((categoryName ;; Star true space ;; one "(" ;; scoreDigits ;; lit (js "/5):"))
            <|> Eos))%re.

(** The body of the loop over the matches of the primary pattern. *)
Definition primaryCriterion (m : rmatch) : Criterion :=
  {| name := trim (group m 1);
     score := parseFloat (group m 2);
     feedback := collapseNewlines (trim (group m 3)) |}.

Definition primaryPass (analysisText : jsstring) : list Criterion :=
  map primaryCriterion (matchAll primaryRe analysisText).

(** The line pattern, [/(names).*?(\d)\/5.*?:\s*(.+)/i]. *)
Definition lineRe : regex :=
  (Group 1 categoryName ;; Star false dot ;; Group 2 digit ;; lit (js "/5")
   ;; Star false dot ;; one ":" ;; Star true space ;; Group 3 (Plus dot))%re.

(** [foundCriteria.has(s)] and [foundNames.includes(s)]. *)
Definition has (names : list jsstring) (s : jsstring) : bool :=
  existsb (str_eqb s) names.

(** The body of the loop over the lines: the criteria pushed so far and
    the set [foundCriteria]. *)
Definition gapFillLine (st : list Criterion * list jsstring) (line : jsstring)
  : list Criterion * list jsstring :=
  match search lineRe line 0 with
  | Some altMatch =>
      if has (snd st) (group altMatch 1) then st
      else
        let name := trim (group altMatch 1) in
        (fst st ++ [ {| name := name;
                        score := parseFloat (group altMatch 2);
                        feedback := trim (group altMatch 3) |} ],
         snd st ++ [name])
  | None => st
  end.

(** [if (criteria.length < 4) { ... }] *)
Definition gapFillPass (analysisText : jsstring) (criteria : list Criterion)
  : list Criterion :=
  if length criteria <? 4
  then fst (fold_left gapFillLine (splitLines analysisText) (criteria, map name criteria))
  else criteria.

Definition requiredCriteria : list jsstring :=
  [js "Content"; js "Communicative Achievement"; js "Organisation"; js "Language"].

(** The last-resort pattern.  It is built from a template literal,
    [`${required.toLowerCase()}[^]*?(\d)\/5`], in which [\d] and [\/]
    are the escapes of [d] and [/]: the pattern handed to [RegExp] is
    [name[^]*?(d)/5], compiled with the [i] flag.  The lower-cased name
    is taken unit by unit; the names hold no pattern syntax. *)
Definition lastResortRe (lowered : jsstring) : regex :=
  (litI lowered ;; Star false any ;; Group 1 (oneI (chr "d")) ;; lit (js "/5"))%re.

Definition defaultFeedback (required : jsstring) : jsstring :=
  js "Assessment provided. Please refer to the full analysis above for detailed feedback on "
  ++ toLowerCase required ++ js ".".

(** The criterion pushed for a required name that was not found. *)
Definition defaultCriterion (analysisText required : jsstring) : Criterion :=
  {| name := required;
     score := match search (lastResortRe (toLowerCase required)) analysisText 0 with
              | Some m => parseFloat (group m 1)
              | None => 3%float
              end;
     feedback := defaultFeedback required |}.

(** The loop over [requiredCriteria]; [foundNames] is computed once,
    before the loop. *)
Definition defaultPass (analysisText : jsstring) (criteria : list Criterion)
  : list Criterion :=
  let foundNames := map name criteria in
  fold_left
    (fun acc required =>
       if has foundNames required then acc
       else acc ++ [defaultCriterion analysisText required])
    requiredCriteria criteria.

(** [sortOrder[n]] for the names that reach it, which are spellings of
    the four category names in some letter case. *)
Definition sortOrder (n : jsstring) : option Z :=
  if str_eqb n (js "Content") then Some 0%Z
  else if str_eqb n (js "Communicative Achievement") then Some 1%Z
  else if str_eqb n (js "Organisation") then Some 2%Z
  else if str_eqb n (js "Language") then Some 3%Z
  else None.

(** [v || d] on a number or [undefined]: zero is falsy. *)
Definition orElse (v : option Z) (d : Z) : Z :=
  match v with
  | Some k => if (k =? 0)%Z then d else k
  | None => d
  end.

(** The comparator of the sort. *)
Definition compareCriteria (a b : Criterion) : Z :=
  (orElse (sortOrder (name a)) 999 - orElse (sortOrder (name b)) 999)%Z.

(** [a.sort(cmp)]: the sort is stable, so for a comparator that orders
    by a key its result is the stable sort by that key. *)
Fixpoint insertSorted (A : Type) (cmp : A -> A -> Z) (x : A) (l : list A) : list A :=
  match l with
  | [] => [x]
  | y :: l' => if (cmp x y <=? 0)%Z then x :: l else y :: insertSorted cmp x l'
  end.

Definition sort (A : Type) (cmp : A -> A -> Z) (l : list A) : list A :=
  fold_right (insertSorted cmp) [] l.

(** The criteria in the order in which they were pushed. *)
Definition pushedCriteria (analysisText : jsstring) : list Criterion :=
  defaultPass analysisText (gapFillPass analysisText (primaryPass analysisText)).

(** [overallScore += score] after every push. *)
Definition sumScores (cs : list Criterion) : float :=
  fold_left (fun acc c => (acc + score c)%float) cs 0%float.

(** ** [parseAnalysisOutput] *)

Definition analysisSegment (output : jsstring) : jsstring :=
  match indexOf output (js "ERRORS:") with
  | Some errorsSectionIndex => substring output 0 errorsSectionIndex
  | None => output
  end.

Definition errorsSegment (output : jsstring) : jsstring :=
  match indexOf output (js "ERRORS:") with
  | Some errorsSectionIndex => substringFrom output errorsSectionIndex
  | None => []
  end.

Definition parseAnalysisOutput (output writing : jsstring) : AnalysisResult :=
  let analysisText := analysisSegment output in
  let errorsText := errorsSegment output in
  let errors := parseErrors errorsText writing in
  let pushed := pushedCriteria analysisText in
  let overall := sumScores pushed in
  let criteria := sort compareCriteria pushed in
  {| overallScore :=
       if 0 <? length criteria
       then Math_round (overall / floatOfNat (length criteria))%float
       else 3%float;
     criteria := criteria;
     errors := errors |}.

End Pipeline.

(** ** Vocabulary of the statements *)

Definition nl : jsstring := [10%N].

(** The quoted text of an error record, when it is a string. *)
Definition textOf (e : value) : option jsstring :=
  match getProp e (js "text") with
  | Some (VStr t) => Some t
  | _ => None
  end.

(** The category of an error record. *)
Definition category (e : value) : option value := getProp e (js "type").

(** The span an error record carries: its [start] and [end], when both
    are integer numbers. *)
Definition spanOf (e : value) : option (Z * Z) :=
  match getProp e (js "start"), getProp e (js "end") with
  | Some (VNum s 0), Some (VNum t 0) => Some (s, t)
  | _, _ => None
  end.

(** A record that has a [start] or an [end] property, whatever its
    value. *)
Definition hasSpanField (e : value) : bool :=
  match getProp e (js "start"), getProp e (js "end") with
  | None, None => false
  | _, _ => true
  end.

(** The key by which [compareCriteria] orders. *)
Definition sortKey (c : Criterion) : Z := orElse (sortOrder (name c)) 999.


(** Offset [p] is marked used. *)
Definition isUsed (used : list bool) (p : nat) : Prop := nth p used false = true.



(** The model output brings no [start] or [end] field of its own. *)
Definition noSpanFields (es : list value) : Prop :=
  Forall (fun e => hasSpanField e = false) es.


(** The text of a score as the primary pattern captures it: a digit, or
    a digit, a dot and a digit. *)
Definition scoreText (s : jsstring) : Prop :=
  exists d, isDigit d = true
            /\ (s = [d] \/ exists d', isDigit d' = true /\ s = [d; 46%N; d']).

(** The score written [tenths / 10], as [parseFloat] reads it. *)
Definition decimalScore (tenths : Z) : float := (floatOfZ tenths / floatOfZ 10)%float.

(** The score of a criterion is a decimal with at most one fractional
    digit, or NaN. *)
Definition scoreShape (c : Criterion) : Prop :=
  PrimFloat.is_nan (score c) = true
  \/ exists k, (0 <= k <= 99)%Z /\ score c = decimalScore k.

Definition sumZ (l : list Z) : Z := fold_right Z.add 0%Z l.

Section Vocabulary.
Context {CM : CaseMapping}.

(** The phrase [t] occurs in the submission at offset [s], letter case
    apart: the comparison the locator makes. *)
Definition occursAt (writing t : jsstring) (s : nat) : Prop :=
  substring (toLowerCase writing) s (s + length (toLowerCase t)) = toLowerCase t.

(** The offsets the located record [o] has claimed in the mask. *)
Definition claims (o : value) (p : nat) : Prop :=
  exists t s e,
    textOf o = Some t /\ spanOf o = Some (Z.of_nat s, e)
    /\ s <= p < s + length (toLowerCase t).

(** The range of the phrase [t] at offset [s] meets no range claimed by
    the records of [out] before the [j]-th; it meets one. *)
Definition freeAt (out : list value) (j : nat) (t : jsstring) (s : nat) : Prop :=
  forall p k o,
    s <= p < s + length (toLowerCase t) -> k < j -> nth_error out k = Some o ->
    ~ claims o p.

Definition takenAt (out : list value) (j : nat) (t : jsstring) (s : nat) : Prop :=
  exists p k o,
    s <= p < s + length (toLowerCase t) /\ k < j /\ nth_error out k = Some o
    /\ claims o p.

(** [s] is the leftmost occurrence of [t] that is free of the ranges
    claimed before record [j]. *)
Definition leftmostFree (writing : jsstring) (out : list value) (j : nat)
           (t : jsstring) (s : nat) : Prop :=
  occursAt writing t s /\ freeAt out j t s
  /\ forall s', s' < s -> occursAt writing t s' -> takenAt out j t s'.

(** Record [k] of the output has claimed offset [p]. *)
Definition marked (out : list value) (k p : nat) : Prop :=
  exists o, nth_error out k = Some o /\ claims o p.

(** The range of length [n] at [s] meets the initial mask or a range
    claimed by one of the first [j] records. *)
Definition blocked (used : list bool) (out : list value) (j s n : nat) : Prop :=
  exists p, s <= p < s + n
            /\ (isUsed used p \/ exists k, k < j /\ marked out k p).

(** The same range is free of both. *)
Definition vacant (used : list bool) (out : list value) (j s n : nat) : Prop :=
  forall p, s <= p < s + n ->
            ~ isUsed used p /\ forall k, k < j -> ~ marked out k p.

(** What the pass did to record [j]. *)
Definition passedOver (writing : jsstring) (used : list bool) (out : list value)
           (j : nat) (e o : value) : Prop :=
  o = e
  /\ forall t, textOf e = Some t -> t <> [] ->
     forall s, occursAt writing t s -> blocked used out j s (length (toLowerCase t)).

Definition locatedAt (writing : jsstring) (used : list bool) (out : list value)
           (j : nat) (e o : value) (t : jsstring) (s : nat) : Prop :=
  (exists props, e = VObj props)
  /\ textOf e = Some t /\ t <> []
  /\ o = withSpan e s (s + length t)
  /\ occursAt writing t s
  /\ vacant used out j s (length (toLowerCase t))
  /\ forall s', s' < s -> occursAt writing t s' ->
                blocked used out j s' (length (toLowerCase t)).

End Vocabulary.

(** [o] is the record [e] as the locator emits it: recategorized, and
    with a span attached when it was located. *)
Definition emitted (e o : value) : Prop :=
  o = recategorize e \/ exists start stop, o = withSpan (recategorize e) start stop.

(** [['grammar', 'spelling', 'vocabulary', 'style'].includes(err.type) ? err.type : 'style'],
    the category under which the highlighter renders a record. *)
Definition recognizedTypes : list jsstring :=
  [js "grammar"; js "spelling"; js "vocabulary"; js "style"].

Definition renderType (ty : option value) : jsstring :=
  match ty with
  | Some (VStr t) => if has recognizedTypes t then t else js "style"
  | _ => js "style"
  end.

Inductive Matches : regex -> mstate -> mstate -> Prop :=
| MEmpty st : Matches Empty st st
| MUnit p c s i cs : p c = true -> Matches (Unit p) (MState (c :: s) i cs) (MState s (S i) cs)
| MCat r1 r2 st1 st2 st3 :
    Matches r1 st1 st2 -> Matches r2 st2 st3 -> Matches (Cat r1 r2) st1 st3
| MAltL r1 r2 st st' : Matches r1 st st' -> Matches (Alt r1 r2) st st'
| MAltR r1 r2 st st' : Matches r2 st st' -> Matches (Alt r1 r2) st st'
| MStarStop g r st : Matches (Star g r) st st
| MStarStep g r st1 st2 st3 :
    Matches r st1 st2 -> Matches (Star g r) st2 st3 -> Matches (Star g r) st1 st3
| MGroup i r st st' : Matches r st st' -> Matches (Group i r) st (capture i st st')
| MAhead r st st' :
    Matches r st st' -> Matches (Ahead r) st (MState (rest st) (pos st) (caps st'))
| MEos i cs : Matches Eos (MState [] i cs) (MState [] i cs).

(** A pattern without capturing groups. *)
Fixpoint groupless (r : regex) : bool :=
  match r with
  | Group _ _ => false
  | Cat r1 r2 | Alt r1 r2 => groupless r1 && groupless r2
  | Star _ r1 | Ahead r1 => groupless r1
  | Empty | Unit _ | Eos => true
  end.

(** Model outputs used below. *)
Definition wellFormedOutput : jsstring :=
  js "Content (4/5): Good." ++ nl
  ++ js "Communicative Achievement (5/5): Fine." ++ nl
  ++ js "Organisation (3/5): Weak." ++ nl
  ++ js "Language (4/5): Solid." ++ nl
  ++ js "ERRORS:" ++ nl
  ++ jsq "[{'text':'gonna','correction':'going to','type':'register','explanation':'too informal'}]".

Definition repeatedPhraseOutput : jsstring :=
  js "ERRORS:" ++ nl ++ jsq "[{'text':'seen him'},{'text':'seen him'}]".

Definition repeatedPhraseWriting : jsstring :=
  js "I seen him yesterday. I seen him again today.".



Definition repeatedHeaderOutput : jsstring :=
  js "Content (4/5): a" ++ nl ++ js "Content (3/5): b".

Definition scoredOutput (a b c d : string) : jsstring :=
  js "Content (" ++ js a ++ js "/5): w" ++ nl
  ++ js "Communicative Achievement (" ++ js b ++ js "/5): x" ++ nl
  ++ js "Organisation (" ++ js c ++ js "/5): y" ++ nl
  ++ js "Language (" ++ js d ++ js "/5): z".

(** * The code around the parser *)

(** ** The rate limiter (lines 28 to 48 of the handler)

    [rateLimitMap] is a [Map] from the address of a client to the number
    of requests let through in its current window and the time of the last
    of them.  [Date.now()] is an input of the embedding: a number of
    milliseconds, an integer far below [2 ^ 53], on which the arithmetic
    of the runtime is exact. *)

Record Entry : Type := MkEntry {
  count : Z;
  lastRequest : Z
}.

Definition RATE_LIMIT : Z := 5.
Definition WINDOW_MS : Z := 60 * 1000.

(** [m.get(ip)] and [m.set(ip, entry)]: a key that is present keeps its
    place, a new key goes last. *)
Fixpoint Map_get (ip : jsstring) (m : list (jsstring * Entry)) : option Entry :=
  match m with
  | [] => None
  | (k, e) :: m' => if str_eqb ip k then Some e else Map_get ip m'
  end.

Fixpoint Map_set (ip : jsstring) (entry : Entry) (m : list (jsstring * Entry))
  : list (jsstring * Entry) :=
  match m with
  | [] => [(ip, entry)]
  | (k, e) :: m' =>
      if str_eqb ip k then (k, entry) :: m' else (k, e) :: Map_set ip entry m'
  end.

(** [isRateLimited(ip)] at time [now]: whether the request is refused,
    and the map afterwards. *)
Definition isRateLimited (ip : jsstring) (now : Z) (rateLimitMap : list (jsstring * Entry))
  : bool * list (jsstring * Entry) :=
  let entry :=
    match Map_get ip rateLimitMap with
    | Some e => e
    | None => MkEntry 0 now
    end in
  if (WINDOW_MS <? now - lastRequest entry)%Z then
    (false, Map_set ip (MkEntry 1 now) rateLimitMap)
  else if (RATE_LIMIT <=? count entry)%Z then
    (true, rateLimitMap)
  else
    (false, Map_set ip (MkEntry (count entry + 1) now) rateLimitMap).

(** The handler called for a sequence of requests, each with the address
    of its client and the time at which it arrives: the times of the
    requests of [ip] that are let through. *)
Fixpoint accepted (ip : jsstring) (requests : list (jsstring * Z))
         (rateLimitMap : list (jsstring * Entry)) : list Z :=
  match requests with
  | [] => []
  | (client, now) :: requests' =>
      let '(limited, m') := isRateLimited client now rateLimitMap in
      if str_eqb client ip && negb limited
      then now :: accepted ip requests' m'
      else accepted ip requests' m'
  end.

(** ** The checks of the submission (lines 50 to 61 and 191 to 224 of
    the handler) *)

(** [s.split(r)] for a pattern [r] of the form [[class]+]: the pieces
    between the maximal runs of units of the class.  A run at the start
    or at the end of the string leaves an empty piece there, and the
    empty string splits into one empty piece.  [inRun] tells that the
    previous unit was of the class. *)
Fixpoint splitFrom (p : char -> bool) (inRun : bool) (s : jsstring) : list jsstring :=
  match s with
  | [] => [ [] ]
  | c :: s' =>
      if p c then
        if inRun then splitFrom p true s' else [] :: splitFrom p true s'
      else
        match splitFrom p false s' with
        | piece :: pieces => (c :: piece) :: pieces
        | [] => [ [c] ]
        end
  end.

Definition splitRuns (p : char -> bool) (s : jsstring) : list jsstring :=
  splitFrom p false s.

(** [a.filter(Boolean)] and [a.filter(word => word.length > 0)] on
    strings: the empty string is the one that is dropped. *)
Definition nonEmpty (s : jsstring) : bool := 0 <? length s.

(** [countWords(text)] *)
Definition countWords (text : jsstring) : nat :=
  length (filter nonEmpty (splitRuns isSpace (trim text))).

(** The word count that the page shows under the text area,
    [writing.trim().split(/\s+/).filter(Boolean).length], and the test
    of the warning below it. *)
Definition wordCountShown (writing : jsstring) : nat :=
  length (filter (fun w => truthy (VStr w)) (splitRuns isSpace (trim writing))).

Definition warningShown (writing : jsstring) : bool :=
  (0 <? wordCountShown writing) && (wordCountShown writing <? 150).

(** The guard of [handleAnalyze], [if (!writing.trim()) { ...; return; }]:
    whether the page sends the text to the handler. *)
Definition handleAnalyzeSends (writing : jsstring) : bool :=
  truthy (VStr (trim writing)).

(** [/[.!?\\n]+/]: in the class, [\\] is the backslash and [n] the
    letter. *)
Definition isSentenceBreak (c : char) : bool :=
  ((c =? 46) || (c =? 33) || (c =? 63) || (c =? 92) || (c =? 110))%N.

(** [text.split(/[.!?\\n]+/).map(s => s.trim()).filter(Boolean)] *)
Definition sentences (text : jsstring) : list jsstring :=
  filter nonEmpty (map trim (splitRuns isSentenceBreak text)).

Section Language.

(** [franc], the language detector of the package [franc-min]: the code
    of the language it takes a text to be in. *)
Variable franc : jsstring -> jsstring.

Definition nonEnglish (ss : list jsstring) : nat :=
  length (filter (fun sentence => negb (str_eqb (franc sentence) (js "eng"))) ss).

(** [isMostlyEnglish(text, threshold)] *)
Definition isMostlyEnglish (text : jsstring) (threshold : float) : bool :=
  match sentences text with
  | [] => false
  | ss =>
      let percentNonEnglish := (floatOfNat (nonEnglish ss) / floatOfNat (length ss))%float in
      (percentNonEnglish <=? threshold)%float
  end.

End Language.

(** [r.test(s)] for a pattern without the [g] flag. *)
Definition test (r : regex) (s : jsstring) : bool :=
  match search r s 0 with
  | Some _ => true
  | None => false
  end.

(** The class [\w] and the class [[a-zA-Z]]. *)
Definition isWordChar (c : char) : bool :=
  isUpper c || isLower c || isDigit c || (c =? 95)%N.

Definition isAlpha (c : char) : bool := isUpper c || isLower c.

(** [/<[^>]+>|{[^}]+}|console\.log|function\s*\(/] *)
Definition htmlOrCode : regex :=
  ((one "<" ;; Plus (Unit (fun c => negb (c =? 62)%N)) ;; one ">")
   <|> (one "{" ;; Plus (Unit (fun c => negb (c =? 125)%N)) ;; one "}")
   <|> lit (js "console.log")
   <|> (lit (js "function") ;; Star true space ;; one "("))%re.

(** [new Set(words).size]: the number of different words. *)
Fixpoint setOf (words : list jsstring) (seen : list jsstring) : list jsstring :=
  match words with
  | [] => seen
  | word :: words' => setOf words' (if has seen word then seen else seen ++ [word])
  end.

(** [wordCounts[word]] for a word that is an own property of the
    object, with its count. *)
Fixpoint countOf (word : jsstring) (wordCounts : list (jsstring * nat)) : option nat :=
  match wordCounts with
  | [] => None
  | (w, n) :: wordCounts' => if str_eqb word w then Some n else countOf word wordCounts'
  end.

Fixpoint setCount (word : jsstring) (n : nat) (wordCounts : list (jsstring * nat))
  : list (jsstring * nat) :=
  match wordCounts with
  | [] => [(word, n)]
  | (w, m) :: wordCounts' =>
      if str_eqb word w then (w, n) :: wordCounts'
      else (w, m) :: setCount word n wordCounts'
  end.

(** The words that [wordCounts], an object literal, inherits as
    properties: all other properties of [Object.prototype] have a
    capital letter in their names, and the words, which come out of
    [toLowerCase], have none.
    For such a word [wordCounts[word] || 0] is the inherited value, a
    function or an object, [+ 1] makes a string of it, and the string
    compared with [mostCommonCount] is NaN: the word is never
    counted. *)
Definition inherited (word : jsstring) : bool :=
  str_eqb word (js "constructor") || str_eqb word (js "__proto__").

(** The loop over the words: the count of the most common word. *)
Fixpoint mostCommon (words : list jsstring) (wordCounts : list (jsstring * nat))
         (mostCommonCount : nat) : nat :=
  match words with
  | [] => mostCommonCount
  | word :: words' =>
      if inherited word then mostCommon words' wordCounts mostCommonCount
      else
        let n := match countOf word wordCounts with
                 | Some n => n
                 | None => 0
                 end + 1 in
        mostCommon words' (setCount word n wordCounts)
                   (if mostCommonCount <? n then n else mostCommonCount)
  end.

Section Content.
Context {CM : CaseMapping}.

(** [text.replace(/[^\w\s]/g, '').toLowerCase().split(/\s+/).filter(Boolean)] *)
Definition wordsOf (text : jsstring) : list jsstring :=
  filter nonEmpty
         (splitRuns isSpace
            (toLowerCase (filter (fun c => isWordChar c || isSpace c) text))).

(** [isMeaningful(text)]; a quotient [0 / 0] is NaN, and every
    comparison with NaN is false. *)
Definition isMeaningful (text : jsstring) : bool :=
  let words := wordsOf text in
  let vocabRatio :=
    (floatOfNat (length (setOf words [])) / floatOfNat (length words))%float in
  let repetitionRatio :=
    (floatOfNat (mostCommon words [] 0) / floatOfNat (length words))%float in
  let alphaChars := length (filter isAlpha text) in
  let alphaRatio := (floatOfNat alphaChars / floatOfNat (length text))%float in
  let hasHtmlOrCode := test htmlOrCode text in
  if (vocabRatio <? 0.3)%float then false
  else if (0.5 <? repetitionRatio)%float then false
  else if (alphaRatio <? 0.5)%float then false
  else if hasHtmlOrCode then false
  else true.

End Content.

(** ** The handler [POST] (lines 226 to 376)

    What the handler answers.  The request brings the header
    [x-forwarded-for] and a body; the body counts as [Some writing] when
    it is JSON whose [writing] is a string, and as [None] otherwise,
    when reading it or calling a method of [writing] throws.  The call
    of the model is an input of the embedding. *)

Inductive completion : Type :=
| Unavailable                            (* the call throws: fetch fails, the status
                                            is not ok, the answer is not JSON *)
| Completed (content : option jsstring). (* choices?.[0]?.message?.content, a string
                                            or nothing *)

Inductive reply : Type :=
| TooManyRequests                        (* 429 *)
| Unmeaningful                           (* 400, 'Unmeaningful content' *)
| NonEnglish                             (* 400, 'Non-English text detected' *)
| InsufficientWords (wordCount : nat)    (* 400, 'Insufficient word count' *)
| ExcessiveWords (wordCount : nat)       (* 400, 'Excessive word count' *)
| ExcessiveChars (charCount : nat)       (* 400, 'Excessive character count' *)
| Analysis (analysis : AnalysisResult)   (* 200 *)
| Failed.                                (* 500, 'Failed to analyze writing' *)

(** [request.headers.get('x-forwarded-for') || 'unknown'] *)
Definition clientOf (header : option jsstring) : jsstring :=
  match header with
  | Some (c :: ip) => c :: ip
  | _ => js "unknown"
  end.

(** [content || 'No response generated'] *)
Definition outputOf (content : option jsstring) : jsstring :=
  match content with
  | Some (c :: output) => c :: output
  | _ => js "No response generated"
  end.

Section Handler.
Context {CM : CaseMapping}.
Variable franc : jsstring -> jsstring.

Definition POST (header : option jsstring) (now : Z)
           (rateLimitMap : list (jsstring * Entry))
           (body : option jsstring) (groq : completion)
  : reply * list (jsstring * Entry) :=
  let '(limited, rateLimitMap') := isRateLimited (clientOf header) now rateLimitMap in
  (if limited then TooManyRequests
   else
     match body with
     | None => Failed
     | Some writing =>
         if negb (isMeaningful writing) then Unmeaningful
         else if negb (isMostlyEnglish franc writing 0.2) then NonEnglish
         else
           let wordCount := countWords writing in
           let charCount := length writing in
           if wordCount <? 150 then InsufficientWords wordCount
           else if 500 <? wordCount then ExcessiveWords wordCount
           else if 4000 <? charCount then ExcessiveChars charCount
           else
             match groq with
             | Unavailable => Failed
             | Completed content => Analysis (parseAnalysisOutput (outputOf content) writing)
             end
     end,
   rateLimitMap').

End Handler.

(** ** The criteria grid ([CriteriaGrid.tsx]) *)

Module CriteriaGrid.

(** [getColor(score)]: the class of the badge of a score. *)
Definition getColor (score : float) : jsstring :=
  if (4 <=? score)%float then js "bg-green-500 text-white"
  else if (score =? 3)%float then js "bg-yellow-400 text-white"
  else js "bg-red-400 text-white".

Definition order : list jsstring :=
  [js "Content"; js "Communicative Achievement"; js "Organisation"; js "Language"].

(** [criteria.find(c => c.name === name) || { name, score: 0, feedback: 'No feedback.' }] *)
Definition shown (criteria : list Criterion) (category : jsstring) : Criterion :=
  match find (fun c => str_eqb (name c) category) criteria with
  | Some c => c
  | None => {| name := category; score := 0; feedback := js "No feedback." |}
  end.

(** The cards of the grid, [order.map(...)]. *)
Definition sorted (criteria : list Criterion) : list Criterion :=
  map (shown criteria) order.

End CriteriaGrid.

(** ** From the handler to the page

    [NextResponse.json(analysis)] writes the result as JSON, and the
    page reads it back with [response.json()] (line 41 of the page)
    before it hands [result.errors] to the highlighter.  [null],
    booleans, strings and the integers of magnitude at most [2 ^ 53]
    arrive as they were written, and so do the arrays and the objects
    made of such values: a key keeps its value, and the order of the
    keys is not read.  Any other number is rounded to binary64 and
    written in other digits, or as [null] when it overflows (the
    literal [1e400] is Infinity for the runtime): a value that holds one
    is outside the embedding. *)
Fixpoint carried (v : value) : bool :=
  match v with
  | VNull | VBool _ | VStr _ => true
  | VNum m e => (e =? 0)%Z && (Z.abs m <=? 2 ^ 53)%Z
  | VArr l => forallb carried l
  | VObj props => forallb (fun kv => carried (snd kv)) props
  end.

(** The error list that the page receives for the list that the handler
    sends. *)
Definition received (errors : list value) : option (list value) :=
  if forallb carried errors then Some errors else None.

(** ** The highlighter ([TextHighlighter], position-based rendering)

    [highlightText] up to its line 125: the rendering of the error
    records that carry [start] and [end].  The records are the values
    that the page received, whatever they are.  An offset is taken as
    the integer it denotes; a [start] or [end] that is a number but not
    an integer literal of magnitude at most [2 ^ 53], on which the
    arithmetic of the runtime would round, is outside the embedding and
    reported as such. *)

Module TextHighlighter.

(** The [span] elements that [highlightText] returns, with the number
    of their [key]. *)
Inductive part : Type :=
| Whole (text : jsstring)                       (* the text without any mark *)
| Normal (key : Z) (text : jsstring)            (* key + '-normal' *)
| Mark (key : Z) (colorClass : jsstring) (err : value) (text : jsstring)
                                                (* key + '-error' *)
| Tail (key : Z) (text : jsstring).             (* key + '-end' *)

Definition partText (p : part) : jsstring :=
  match p with
  | Whole text | Normal _ text | Mark _ _ _ text | Tail _ text => text
  end.

Inductive rendering : Type :=
| Rendered (parts : list part)
| TypeError                  (* reading [e.start] of [null] throws *)
| Fallback                   (* no record has a position: lines 126 to 172 *)
| Unmodelled.                (* an offset outside the embedding *)

(** [typeof v === 'number'] *)
Definition isNumber (v : option value) : bool :=
  match v with
  | Some (VNum _ _) => true
  | _ => false
  end.

(** [typeof e.start === 'number' && typeof e.end === 'number']; reading
    a property of [null] throws, every other value has the property or
    gives [undefined]. *)
Definition hasPosition (e : value) : outcome bool :=
  match e with
  | VNull => Throws
  | _ => Returns (isNumber (getProp e (js "start")) && isNumber (getProp e (js "end")))
  end.

(** [errors.some(hasPosition)] and [errors.filter(hasPosition)]: a
    test that throws ends both. *)
Fixpoint somePositioned (errors : list value) : outcome bool :=
  match errors with
  | [] => Returns false
  | e :: errors' =>
      match hasPosition e with
      | Throws => Throws
      | Returns true => Returns true
      | Returns false => somePositioned errors'
      end
  end.

Fixpoint positioned (errors : list value) : outcome (list value) :=
  match errors with
  | [] => Returns []
  | e :: errors' =>
      match hasPosition e, positioned errors' with
      | Returns keep, Returns l => Returns (if keep then e :: l else l)
      | _, _ => Throws
      end
  end.

(** The integer an offset denotes. *)
Definition offset (v : option value) : option Z :=
  match v with
  | Some (VNum m 0) => if (Z.abs m <=? 2 ^ 53)%Z then Some m else None
  | _ => None
  end.

Definition position (e : value) : option (Z * Z) :=
  match offset (getProp e (js "start")), offset (getProp e (js "end")) with
  | Some s, Some t => Some (s, t)
  | _, _ => None
  end.

(** The records with their offsets, when all of them are integers. *)
Fixpoint positions (errors : list value) : option (list (value * (Z * Z))) :=
  match errors with
  | [] => Some []
  | e :: errors' =>
      match position e, positions errors' with
      | Some p, Some l => Some ((e, p) :: l)
      | _, _ => None
      end
  end.

(** [(a, b) => a.start - b.start] *)
Definition byStart (a b : value * (Z * Z)) : Z := (fst (snd a) - fst (snd b))%Z.

Definition errorTypeColors (type : jsstring) : jsstring :=
  if str_eqb type (js "grammar") then js "bg-red-200 border-b-2 border-red-400"
  else if str_eqb type (js "spelling") then js "bg-yellow-200 border-b-2 border-yellow-400"
  else if str_eqb type (js "vocabulary") then js "bg-blue-200 border-b-2 border-blue-400"
  else if str_eqb type (js "style") then js "bg-purple-200 border-b-2 border-purple-400"
  else [].

(** [s.substring(a, b)] and [s.substring(a)] on integers: a negative
    index counts as 0. *)
Definition substringZ (s : jsstring) (a b : Z) : jsstring :=
  substring s (Z.to_nat a) (Z.to_nat b).

Definition substringFromZ (s : jsstring) (a : Z) : jsstring :=
  substringFrom s (Z.to_nat a).

(** The loop [sorted.forEach(...)] from [lastIndex] on, and the tail
    pushed after it. *)
Fixpoint forEach (originalText : jsstring) (sorted : list (value * (Z * Z)))
         (lastIndex : Z) : list part :=
  match sorted with
  | [] =>
      if (lastIndex <? Z.of_nat (length originalText))%Z
      then [Tail lastIndex (substringFromZ originalText lastIndex)]
      else []
  | (err, (start, stop)) :: sorted' =>
      (if (lastIndex <? start)%Z
       then [Normal lastIndex (substringZ originalText lastIndex start)]
       else [])
      ++ Mark start (errorTypeColors (renderType (getProp err (js "type")))) err
              (substringZ originalText start stop)
         :: forEach originalText sorted' stop
  end.

Definition highlightText (originalText : jsstring) (errors : list value) : rendering :=
  match errors with
  | [] => Rendered [Whole originalText]
  | _ :: _ =>
      match somePositioned errors with
      | Throws => TypeError
      | Returns false => Fallback
      | Returns true =>
          match positioned errors with
          | Throws => TypeError
          | Returns located =>
              match positions located with
              | Some ps => Rendered (forEach originalText (sort byStart ps) 0)
              | None => Unmodelled
              end
          end
      end
  end.

End TextHighlighter.

Import TextHighlighter.

(** ** Vocabulary of the further statements *)

(** The counter of a client along the requests that are let through:
    it restarts at 1 after a gap longer than the window and is raised
    by 1, up to the limit, otherwise. *)
Fixpoint counted (c last : Z) (times : list Z) : Prop :=
  match times with
  | [] => True
  | t :: times' =>
      (WINDOW_MS < t - last /\ counted 1 t times')%Z
      \/ (t - last <= WINDOW_MS /\ c < RATE_LIMIT /\ counted (c + 1) t times')%Z
  end.

(** The number of words of a text: the units that are not white space
    and stand at the start or after white space.  [afterSpace] tells
    that the previous unit was white space, or that there is none. *)
Fixpoint wordStarts (afterSpace : bool) (s : jsstring) : nat :=
  match s with
  | [] => 0
  | c :: s' =>
      if isSpace c then wordStarts true s'
      else (if afterSpace then 1 else 0) + wordStarts false s'
  end.

(** A pattern whose quantifiers are over one class each and which has
    no look-ahead. *)
Fixpoint simple (r : regex) : bool :=
  match r with
  | Star _ (Unit _) => true
  | Star _ _ => false
  | Ahead _ => false
  | Cat r1 r2 | Alt r1 r2 => simple r1 && simple r2
  | Group _ r1 => simple r1
  | Empty | Unit _ | Eos => true
  end.

(** The texts that [htmlOrCode] matches: a tag, a pair of braces, both
    with something inside, the call [console.log] and the head of a
    function. *)
Definition codeForm (w : jsstring) : Prop :=
  (exists m, m <> [] /\ forallb (fun c => negb (c =? 62)%N) m = true
             /\ w = js "<" ++ m ++ js ">")
  \/ (exists m, m <> [] /\ forallb (fun c => negb (c =? 125)%N) m = true
                /\ w = js "{" ++ m ++ js "}")
  \/ w = js "console.log"
  \/ (exists m, forallb isSpace m = true /\ w = js "function" ++ m ++ js "(").

Definition contains (text w : jsstring) : Prop := exists a b, text = a ++ w ++ b.

(** A check of [f] on [count] integers from [k] on. *)
Fixpoint allFrom (count : nat) (k : Z) (f : Z -> bool) : bool :=
  match count with
  | O => true
  | S count' => f k && allFrom count' (k + 1)%Z f
  end.

(** The class of the badge of a score of [tenths] tenths. *)
Definition badge (tenths : Z) : jsstring :=
  if (40 <=? tenths)%Z then js "bg-green-500 text-white"
  else if (tenths =? 30)%Z then js "bg-yellow-400 text-white"
  else js "bg-red-400 text-white".

(** The spans of a list are in a row from [last] on: each starts where
    the one before it ended, or later, and none ends before it
    starts. *)
Fixpoint inRow (last : Z) (ps : list (value * (Z * Z))) : Prop :=
  match ps with
  | [] => True
  | (_, (s, t)) :: ps' => (last <= s /\ s <= t)%Z /\ inRow t ps'
  end.

(** A span that starts at 0 or later and holds at least one unit; two
    spans that share no unit. *)
Definition proper (a : value * (Z * Z)) : Prop :=
  (0 <= fst (snd a) < snd (snd a))%Z.

Definition apart (a b : value * (Z * Z)) : Prop :=
  (snd (snd a) <= fst (snd b) \/ snd (snd b) <= fst (snd a))%Z.

(** The same of two records, as far as they have positions. *)
Definition properSpan (o : value) : Prop :=
  forall p, position o = Some p -> proper (o, p).

Definition spansApart (o o' : value) : Prop :=
  forall p p',
    position o = Some p -> position o' = Some p' ->
    apart (o, p) (o', p').

(** The records that pass the test of [filter] all have a position that
    the embedding reads. *)
Definition readable (o : value) : Prop :=
  hasPosition o = Returns false
  \/ (hasPosition o = Returns true /\ exists p, position o = Some p).

Section StockCriterion.
Context {CM : CaseMapping}.

(** The criterion of a category for which the output gives nothing. *)
Definition fallbackCriterion (category : jsstring) : Criterion :=
  {| name := category; score := 3; feedback := defaultFeedback category |}.

End StockCriterion.

Section OneLine.
Context {CM : CaseMapping}.

(** The feedback of a criterion holds no line feed, or it is the stock
    feedback of its category. *)
Definition oneLine (c : Criterion) : Prop :=
  feedback c = defaultFeedback (name c) \/ ~ In 10%N (feedback c).

End OneLine.

(** A criterion as the prompt asks the model to write it, [Name (d/5):
    feedback] on a line of its own, and an output made of such lines. *)
Definition criterionLine (item : jsstring * char * jsstring) : jsstring :=
  let '(category, d, text) := item in
  category ++ js " (" ++ [d] ++ js "/5): " ++ text ++ nl.

Definition formatted (items : list (jsstring * char * jsstring)) : jsstring :=
  concat (map criterionLine items).

(** The line is well formed: the name is one of the four, the score is
    a digit, and the feedback holds no opening parenthesis. *)
Definition wellFormedLine (item : jsstring * char * jsstring) : Prop :=
  let '(category, d, text) := item in
  In category requiredCriteria /\ isDigit d = true /\ ~ In 40%N text.

Definition lineCategory (item : jsstring * char * jsstring) : jsstring :=
  fst (fst item).

(** The criterion that the line stands for. *)
Definition criterionOf (item : jsstring * char * jsstring) : Criterion :=
  let '(category, d, text) := item in
  {| name := category;
     score := floatOfZ (Z.of_N d - 48);
     feedback := collapseNewlines (trim text) |}.

(** The head of a criterion, [Name (d/5):], as the look-ahead of the
    primary pattern has it. *)
Definition headRe : regex :=
  (categoryName ;; Star true space ;; one "(" ;; scoreDigits ;; lit (js "/5):"))%re.

(** What may follow a criterion line: nothing, or another line. *)
Definition followed (s : jsstring) : Prop :=
  s = [] \/ exists item s', wellFormedLine item /\ s = criterionLine item ++ s'.

(** Whether an input departs from a literal run at some letter. *)
Fixpoint departs (w x : jsstring) : bool :=
  match w, x with
  | c :: w', y :: x' => if eqbIgnoreCase c y then departs w' x' else true
  | _, _ => false
  end.

(** Inputs used below: a map in which one client has used its five
    requests, a burst of seven requests, two records with positions, and
    a submission of 150 different words of two letters. *)
Definition busyMap : list (jsstring * Entry) :=
  [(js "10.0.0.1", MkEntry 5 1000); (js "10.0.0.2", MkEntry 2 500)].

Definition burst : list (jsstring * Z) :=
  map (fun now => (js "10.0.0.1", now)) [0; 1; 2; 3; 4; 5; 70000]%Z.

Definition twoMarks : list value :=
  [VObj [(js "text", VStr (js "de")); (js "start", VNum 3 0); (js "end", VNum 5 0)];
   VObj [(js "text", VStr (js "ab")); (js "start", VNum 0 0); (js "end", VNum 2 0)]].

Definition twoMarksParts : list part :=
  Eval vm_compute in
    match highlightText (js "abcdef") twoMarks with
    | Rendered parts => parts
    | _ => []
    end.

Definition sampleEssay : jsstring :=
  flat_map (fun a => flat_map (fun b => [a; b; 32%N]) (js "abcdefghijklmopqrstuvwxyz"))
           (js "abcdef").

Definition alwaysEnglish (sentence : jsstring) : jsstring := js "eng".

(** An output of four criterion lines, the last category first. *)
Definition sampleLines : list (jsstring * char * jsstring) :=
  [(js "Language", chr "2", js "Weak."); (js "Content", chr "4", js "Good.");
   (js "Communicative Achievement", chr "3", js "Fine.");
   (js "Organisation", chr "5", js "Clear.")].

(** * Properties *)

Unset Implicit Arguments.

(** ** The basic mapping is a case mapping *)

Lemma lowerUnit_length (s : jsstring) : length s <= length (flat_map lowerUnit s).
Proof.
  induction s as [|c s IH]; simpl; [lia|].
  rewrite length_app. unfold lowerUnit at 1.
  destruct (isUpper c); [simpl; lia|].
  destruct (c =? 304)%N; simpl; lia.
Qed.

Definition basicLatin : CaseMapping :=
  {| toLowerCase := flat_map lowerUnit; toLowerCase_length := lowerUnit_length |}.

(** ** Strings *)

Lemma str_eqb_eq (a b : jsstring) : str_eqb a b = true <-> a = b.
Proof.
  revert b; induction a as [|x a IH]; intros [|y b]; simpl; split; intro H;
    try reflexivity; try discriminate.
  - apply andb_true_iff in H as [Hx Hab].
    apply N.eqb_eq in Hx. apply IH in Hab. congruence.
  - injection H as -> ->. rewrite N.eqb_refl. simpl. now apply IH.
Qed.

Lemma str_eqb_refl (a : jsstring) : str_eqb a a = true.
Proof. now apply str_eqb_eq. Qed.

Lemma str_eqb_neq (a b : jsstring) : str_eqb a b = false <-> a <> b.
Proof.
  split.
  - intros H E. apply str_eqb_eq in E. congruence.
  - intro H. destruct (str_eqb a b) eqn:E; [|reflexivity].
    apply str_eqb_eq in E. contradiction.
Qed.

Lemma substring_at (l : jsstring) (s n : nat) :
  substring l s (s + n) = firstn n (skipn s l).
Proof.
  unfold substring. rewrite Nat.max_r, Nat.min_l by lia.
  f_equal. lia.
Qed.

(** An occurrence lies within the string. *)
Lemma substring_eq_bound (l t : jsstring) (s : nat) :
  substring l s (s + length t) = t -> t <> [] -> s + length t <= length l.
Proof.
  intros H Ht. rewrite substring_at in H.
  apply (f_equal (@length _)) in H. rewrite length_firstn, length_skipn in H.
  assert (0 < length t) by (destruct t; [contradiction|simpl; lia]).
  lia.
Qed.

(** ** The matcher finds only matches

    [Matches r st st'] says that [r] can read the input of [st] up to
    [st'], recording its groups on the way.  Whatever the backtracking
    matcher returns is such a reading. *)

Lemma run_sound (r : regex) :
  forall k st res,
    run r k st = Some res -> exists st', Matches r st st' /\ k st' = Some res.
Proof.
  induction r as [|p|r1 IH1 r2 IH2|r1 IH1 r2 IH2|g r1 IH1|i r1 IH1|r1 IH1|];
    intros k st res; cbn [run].
  - intro H. exists st. split; [constructor|assumption].
  - destruct st as [[|c s] i cs]; simpl; [discriminate|].
    destruct (p c) eqn:E; [|discriminate].
    intro H. eexists. split; [constructor; eassumption|assumption].
  - intro H. apply IH1 in H as (st1 & H1 & H).
    apply IH2 in H as (st2 & H2 & H).
    exists st2. split; [econstructor; eassumption|assumption].
  - destruct (run r1 k st) as [res'|] eqn:E.
    + intros [= <-]. apply IH1 in E as (st' & H1 & H).
      exists st'. split; [now apply MAltL|assumption].
    + intro H. apply IH2 in H as (st' & H2 & H).
      exists st'. split; [now apply MAltR|assumption].
  - generalize (S (length (rest st))). intro n. revert st res.
    induction n as [|n IHn]; intros st res H; simpl in H.
    + exists st. split; [constructor|assumption].
    + assert (Hagain : forall res',
                 run r1 (fun st' => if pos st' =? pos st then None
                                    else iterate (run r1) g k n st') st = Some res' ->
                 exists st', Matches (Star g r1) st st' /\ k st' = Some res').
      { intros res' E. apply IH1 in E as (st1 & H1 & E).
        destruct (pos st1 =? pos st); [discriminate|].
        apply IHn in E as (st2 & H2 & E).
        exists st2. split; [econstructor; eassumption|assumption]. }
      destruct g.
      * destruct (run r1 _ st) as [res'|] eqn:E.
        -- injection H as <-. now apply Hagain.
        -- exists st. split; [constructor|assumption].
      * destruct (k st) as [res'|] eqn:E.
        -- injection H as <-. exists st. split; [constructor|assumption].
        -- now apply Hagain.
  - intro H. apply IH1 in H as (st' & H1 & H).
    exists (capture i st st'). split; [now constructor|assumption].
  - destruct (run r1 Some st) as [st1|] eqn:E; [|discriminate].
    intro H. apply IH1 in E as (st' & H1 & [= ->]).
    eexists. split; [constructor; eassumption|assumption].
  - destruct st as [[|c s] i cs]; simpl; [|discriminate].
    intro H. eexists. split; [constructor|assumption].
Qed.

Lemma Matches_cat_inv (r1 r2 : regex) (st st' : mstate) :
  Matches (Cat r1 r2) st st' -> exists st2, Matches r1 st st2 /\ Matches r2 st2 st'.
Proof. inversion 1; subst. eauto. Qed.

Lemma Matches_group_inv (i : nat) (r : regex) (st st' : mstate) :
  Matches (Group i r) st st' -> exists st1, Matches r st st1 /\ st' = capture i st st1.
Proof. inversion 1; subst. eauto. Qed.

Lemma Matches_unit_inv (p : char -> bool) (st st' : mstate) :
  Matches (Unit p) st st' ->
  exists c, p c = true /\ rest st = c :: rest st' /\ pos st' = S (pos st)
            /\ caps st' = caps st.
Proof. inversion 1; subst. simpl. eauto. Qed.

Lemma Matches_ahead_inv (r : regex) (st st' : mstate) :
  Matches (Ahead r) st st' ->
  exists st1, Matches r st st1 /\ st' = MState (rest st) (pos st) (caps st1).
Proof. inversion 1; subst. eauto. Qed.

Lemma Matches_groupless (r : regex) (st st' : mstate) :
  Matches r st st' -> groupless r = true -> caps st' = caps st.
Proof.
  induction 1; simpl; intro G; try reflexivity;
    try (apply andb_true_iff in G as [G1 G2]); try discriminate; auto.
  - rewrite IHMatches2, IHMatches1; auto.
  - rewrite IHMatches2, IHMatches1; auto.
Qed.

Lemma groupless_lit (s : jsstring) : groupless (lit s) = true.
Proof. induction s; simpl; auto. Qed.

Lemma groupless_litI (s : jsstring) : groupless (litI s) = true.
Proof. induction s; simpl; auto. Qed.

Lemma capture_unit (i : nat) (p : char -> bool) (st st1 : mstate) :
  Matches (Unit p) st st1 ->
  exists c, p c = true /\ caps (capture i st st1) = (i, [c]) :: caps st.
Proof.
  intro H. apply Matches_unit_inv in H as (c & Hc & Hr & Hp & Hcs).
  exists c. split; [assumption|]. unfold capture. simpl.
  rewrite Hp, Hr, Hcs. replace (S (pos st) - pos st) with 1 by lia. reflexivity.
Qed.

Lemma capture_scoreDigits (i : nat) (st st1 : mstate) :
  Matches scoreDigits st st1 ->
  exists s, scoreText s /\ caps (capture i st st1) = (i, s) :: caps st.
Proof.
  unfold scoreDigits. intro H.
  apply Matches_cat_inv in H as (st2 & Hd & Ho).
  apply Matches_unit_inv in Hd as (d & Hd & Hr & Hp & Hcs).
  unfold Opt in Ho. inversion Ho as [| | |r1 r2 sa sb Hdot| r1 r2 sa sb He| | | | |]; subst.
  - apply Matches_cat_inv in Hdot as (st3 & Hdot & Hd').
    apply Matches_unit_inv in Hdot as (c & Hc & Hr2 & Hp2 & Hcs2).
    apply Matches_unit_inv in Hd' as (d' & Hd' & Hr3 & Hp3 & Hcs3).
    apply N.eqb_eq in Hc. subst c.
    exists [d; 46%N; d']. split.
    + exists d. split; [assumption|]. right. now exists d'.
    + unfold capture. simpl. rewrite Hp3, Hp2, Hp, Hr, Hr2, Hr3, Hcs3, Hcs2, Hcs.
      replace (S (S (S (pos st))) - pos st) with 3 by lia. reflexivity.
  - inversion He; subst.
    exists [d]. split.
    + exists d. split; [assumption|]. now left.
    + unfold capture. simpl. rewrite Hp, Hr, Hcs.
      replace (S (pos st) - pos st) with 1 by lia. reflexivity.
Qed.

Lemma matchAt_sound (r : regex) (s : jsstring) (i : nat) (m : rmatch) :
  matchAt r s i = Some m ->
  exists st, Matches r (MState s i []) st /\ m_caps m = caps st.
Proof.
  unfold matchAt. destruct (run r Some (MState s i [])) as [st|] eqn:E; [|discriminate].
  intros [= <-]. apply run_sound in E as (st' & H & [= ->]).
  now exists st.
Qed.

Lemma search_matchAt (r : regex) (s : jsstring) :
  forall i m, search r s i = Some m -> exists s' i', matchAt r s' i' = Some m.
Proof.
  induction s as [|c s IH]; intros i m; simpl.
  - destruct (matchAt r [] i) eqn:E; [|discriminate]. intros [= <-]. eauto.
  - destruct (matchAt r (c :: s) i) eqn:E.
    + intros [= <-]. eauto.
    + apply IH.
Qed.

Lemma scan_matchAt (r : regex) (s : jsstring) :
  forall skip i m, In m (scan r skip s i) -> exists s' i', matchAt r s' i' = Some m.
Proof.
  induction s as [|c s IH]; intros skip i m; simpl.
  - destruct skip; [|contradiction].
    destruct (matchAt r [] i) eqn:E; [|contradiction].
    intros [<-|[]]. eauto.
  - destruct skip; [|apply IH].
    destruct (matchAt r (c :: s) i) eqn:E; [|apply IH].
    intros [<-|H]; [eauto|]. eapply IH, H.
Qed.

(** What the three patterns capture as the score. *)
Lemma primaryRe_score (s : jsstring) (i : nat) (m : rmatch) :
  matchAt primaryRe s i = Some m -> scoreText (group m 2).
Proof.
  intro H. apply matchAt_sound in H as (st & H & Hc).
  unfold group. rewrite Hc. clear Hc m. unfold primaryRe in H.
  apply Matches_cat_inv in H as (st1 & _ & H).
  apply Matches_cat_inv in H as (st2 & _ & H).
  apply Matches_cat_inv in H as (st3 & _ & H).
  apply Matches_cat_inv in H as (st4 & H2 & H).
  apply Matches_cat_inv in H as (st5 & H5 & H).
  apply Matches_cat_inv in H as (st6 & H6 & H).
  apply Matches_cat_inv in H as (st7 & H7 & H).
  apply Matches_group_inv in H2 as (st3' & H2 & ->).
  apply (capture_scoreDigits 2) in H2 as (txt & Htxt & Hcaps).
  apply Matches_groupless in H5; [|apply groupless_lit].
  apply Matches_groupless in H6; [|reflexivity].
  apply Matches_group_inv in H7 as (st6' & H7 & ->).
  apply Matches_groupless in H7; [|reflexivity].
  apply Matches_ahead_inv in H as (st8 & H & ->).
  apply Matches_groupless in H; [|reflexivity].
  simpl. rewrite H. simpl. rewrite H7, H6, H5, Hcaps. simpl. assumption.
Qed.

Lemma lineRe_score (s : jsstring) (i : nat) (m : rmatch) :
  matchAt lineRe s i = Some m -> exists d, isDigit d = true /\ group m 2 = [d].
Proof.
  intro H. apply matchAt_sound in H as (st & H & Hc).
  unfold group. rewrite Hc. clear Hc m. unfold lineRe in H.
  apply Matches_cat_inv in H as (st1 & _ & H).
  apply Matches_cat_inv in H as (st2 & _ & H).
  apply Matches_cat_inv in H as (st3 & H2 & H).
  apply Matches_cat_inv in H as (st4 & H4 & H).
  apply Matches_cat_inv in H as (st5 & H5 & H).
  apply Matches_cat_inv in H as (st6 & H6 & H).
  apply Matches_cat_inv in H as (st7 & H7 & H).
  apply Matches_group_inv in H2 as (st2' & H2 & ->).
  apply (capture_unit 2) in H2 as (d & Hd & Hcaps).
  apply Matches_groupless in H4; [|apply groupless_lit].
  apply Matches_groupless in H5; [|reflexivity].
  apply Matches_groupless in H6; [|reflexivity].
  apply Matches_groupless in H7; [|reflexivity].
  apply Matches_group_inv in H as (st7' & H & ->).
  apply Matches_groupless in H; [|reflexivity].
  exists d. split; [assumption|].
  simpl. rewrite H, H7, H6, H5, H4, Hcaps. reflexivity.
Qed.

Lemma lastResortRe_score (lowered s : jsstring) (i : nat) (m : rmatch) :
  matchAt (lastResortRe lowered) s i = Some m ->
  group m 1 = [100%N] \/ group m 1 = [68%N].
Proof.
  intro H. apply matchAt_sound in H as (st & H & Hc).
  unfold group. rewrite Hc. clear Hc m. unfold lastResortRe in H.
  apply Matches_cat_inv in H as (st1 & _ & H).
  apply Matches_cat_inv in H as (st2 & _ & H).
  apply Matches_cat_inv in H as (st3 & H1 & H).
  apply Matches_group_inv in H1 as (st2' & H1 & ->).
  apply (capture_unit 1) in H1 as (c & Hc & Hcaps).
  apply Matches_groupless in H; [|apply groupless_lit].
  rewrite H, Hcaps. simpl.
  unfold eqbIgnoreCase in Hc. simpl in Hc.
  rewrite orb_false_r in Hc. apply orb_true_iff in Hc as [Hc|Hc];
    apply N.eqb_eq in Hc; subst c; auto.
Qed.

(** ** Progress of the primary loop

    [scan] advances past every match; the loop of the source starts the
    next search where the last match ended, and would not terminate on
    an empty match.  A match of the primary pattern is never empty. *)

Lemma Matches_pos_le (r : regex) (st st' : mstate) :
  Matches r st st' -> pos st <= pos st'.
Proof. induction 1; simpl; lia. Qed.

Lemma matchAt_end (r : regex) (s : jsstring) (i : nat) (m : rmatch) :
  matchAt r s i = Some m ->
  exists st, Matches r (MState s i []) st /\ m_index m = i /\ m_end m = pos st.
Proof.
  unfold matchAt. destruct (run r Some (MState s i [])) as [st|] eqn:E; [|discriminate].
  intros [= <-]. apply run_sound in E as (st' & H & [= ->]).
  now exists st.
Qed.

Lemma primary_match_nonempty (s : jsstring) (i : nat) (m : rmatch) :
  matchAt primaryRe s i = Some m -> m_index m < m_end m.
Proof.
  intro H. apply matchAt_end in H as (st & H & -> & ->).
  unfold primaryRe in H.
  apply Matches_cat_inv in H as (st1 & H1 & H).
  apply Matches_cat_inv in H as (st2 & H2 & H).
  apply Matches_cat_inv in H as (st3 & H3 & H).
  apply Matches_pos_le in H1, H2, H. simpl in H1.
  apply Matches_unit_inv in H3 as (c & _ & _ & Hp & _). lia.
Qed.

(** ** The descent of [JSON.parse] never runs short of fuel

    Every successful call consumes at least one unit, and twice the
    number of units it consumes is fuel enough for it. *)

Lemma dropWhile_length (p : char -> bool) (s : jsstring) :
  length (dropWhile p s) <= length s.
Proof. induction s as [|c s IH]; simpl; [lia|]. destruct (p c); simpl; lia. Qed.

Lemma skipSpace_length (s : jsstring) : length (skipSpace s) <= length s.
Proof. apply dropWhile_length. Qed.

Lemma parseStringBody_length (n : nat) :
  forall s acc str s',
    length s <= n -> parseStringBody s acc = Some (str, s') -> length s' < length s.
Proof.
  induction n as [|n IH]; intros [|c s] acc str s' Hn; simpl; try discriminate.
  - simpl in Hn. lia.
  - simpl in Hn. destruct (c =? 34)%N.
    + intros [= <- <-]. lia.
    + destruct (c =? 92)%N.
      * destruct s as [|e s'']; [discriminate|]. simpl in Hn.
        assert (Hrec : forall acc', parseStringBody s'' acc' = Some (str, s') ->
                                    length s' < S (S (length s''))).
        { intros acc' H. apply IH in H; lia. }
        repeat match goal with
               | |- (if ?b then _ else _) = _ -> _ => destruct b; [now apply Hrec|]
               end.
        destruct (e =? 117)%N; [|discriminate].
        destruct s'' as [|a [|b [|c' [|d s4]]]]; try discriminate.
        destruct (hex4 a b c' d); [|discriminate].
        intro H. apply IH in H; simpl in *; lia.
      * destruct (c <? 32)%N; [discriminate|].
        intro H. apply IH in H; lia.
Qed.

Lemma digits_length (s : jsstring) :
  forall acc n z n' s',
    digits s acc n = (z, n', s') -> n' + length s' = n + length s.
Proof.
  induction s as [|c s IH]; intros acc n z n' s'; simpl.
  - intros [= <- <- <-]. reflexivity.
  - destruct (isDigit c).
    + intro H. apply IH in H. lia.
    + intros [= <- <- <-]. reflexivity.
Qed.

Lemma parseSign_length (plus : bool) (s : jsstring) :
  length (snd (parseSign plus s)) <= length s.
Proof.
  unfold parseSign. destruct s as [|c s]; simpl; [lia|].
  destruct (c =? 45)%N; simpl; [lia|].
  destruct (plus && (c =? 43)%N); simpl; lia.
Qed.

Lemma parseMantissa_length (s : jsstring) (m : Z) (nf : nat) (s' : jsstring) :
  parseMantissa s = Some (m, nf, s') -> length s' < length s.
Proof.
  unfold parseMantissa.
  destruct (digits s 0 0) as [[i ni] s1] eqn:Hd. apply digits_length in Hd.
  destruct ((ni =? 0) || _) eqn:Hz; [discriminate|].
  apply orb_false_iff in Hz as [Hz _]. apply Nat.eqb_neq in Hz.
  destruct s1 as [|c s2].
  - intros [= <- <- <-]. simpl in *. lia.
  - destruct (c =? 46)%N.
    + destruct (digits s2 i 0) as [[f nf'] s3] eqn:Hf. apply digits_length in Hf.
      destruct (nf' =? 0); [discriminate|].
      intros [= <- <- <-]. simpl in *. unfold jsstring, char in *. lia.
    + intros [= <- <- <-]. simpl in *. unfold jsstring, char in *. lia.
Qed.

Lemma parseExponent_length (s : jsstring) (e : Z) (s' : jsstring) :
  parseExponent s = Some (e, s') -> length s' <= length s.
Proof.
  unfold parseExponent. destruct s as [|c s1]; [intros [= <- <-]; lia|].
  destruct ((c =? 101) || (c =? 69))%N; [|intros [= <- <-]; lia].
  pose proof (parseSign_length true s1) as Hs.
  destruct (parseSign true s1) as [eneg s2]. simpl in Hs.
  destruct (digits s2 0 0) as [[x ne] s3] eqn:Hd. apply digits_length in Hd.
  destruct (ne =? 0); [discriminate|].
  intros [= <- <-]. simpl in *. unfold jsstring, char in *. lia.
Qed.

Lemma parseNumber_length (s : jsstring) (v : value) (s' : jsstring) :
  parseNumber s = Some (v, s') -> length s' < length s.
Proof.
  unfold parseNumber.
  pose proof (parseSign_length false s) as Hs.
  destruct (parseSign false s) as [neg s1]. simpl in Hs.
  destruct (parseMantissa s1) as [[[m nf] s2]|] eqn:Hm; [|discriminate].
  apply parseMantissa_length in Hm.
  destruct (parseExponent s2) as [[e s3]|] eqn:He; [|discriminate].
  apply parseExponent_length in He.
  intros [= <- <-]. unfold jsstring, char in *. lia.
Qed.

Lemma skipn_length_lt (n : nat) (s : jsstring) :
  0 < n -> s <> [] -> length (skipn n s) < length s.
Proof.
  intros Hn Hs. rewrite length_skipn. destruct s; [contradiction|cbn [length]; lia].
Qed.

(** Every successful call of the descent consumes input. *)
Lemma parse_consumes (fuel : nat) :
  (forall s v s', parseValue fuel s = Some (v, s') -> length s' < length s)
  /\ (forall s l s', parseElements fuel s = Some (l, s') -> length s' < length s)
  /\ (forall s acc props s',
         parseMembers fuel s acc = Some (props, s') -> length s' < length s).
Proof.
  induction fuel as [|fuel (IHv & IHe & IHm)]; [repeat split; intros; discriminate|].
  split; [|split].
  - intros s v s'. cbn [parseValue].
    pose proof (skipSpace_length s) as Hs.
    destruct (skipSpace s) as [|c s0]; [discriminate|]. simpl in Hs.
    destruct (c =? 123)%N.
    { pose proof (skipSpace_length s0) as Hs0.
      destruct (skipSpace s0) as [|d s1]; [discriminate|]. simpl in Hs0.
      destruct (d =? 125)%N; [intros [= <- <-]; lia|].
      destruct (parseMembers fuel (d :: s1) []) as [[props s3]|] eqn:E; [|discriminate].
      apply IHm in E. simpl in E. intros [= <- <-]. lia. }
    destruct (c =? 91)%N.
    { pose proof (skipSpace_length s0) as Hs0.
      destruct (skipSpace s0) as [|d s1]; [discriminate|]. simpl in Hs0.
      destruct (d =? 93)%N; [intros [= <- <-]; lia|].
      destruct (parseElements fuel (d :: s1)) as [[l s3]|] eqn:E; [|discriminate].
      apply IHe in E. simpl in E. intros [= <- <-]. lia. }
    destruct (c =? 34)%N.
    { destruct (parseStringBody s0 []) as [[str s1]|] eqn:E; [|discriminate].
      apply (parseStringBody_length (length s0)) in E; [|lia].
      intros [= <- <-]. lia. }
    assert (Hskip : forall n w, 0 < n ->
              Some (w, skipn n (c :: s0)) = Some (v, s') -> length s' < length s).
    { intros n w Hn [= _ <-].
      pose proof (skipn_length_lt n (c :: s0) Hn ltac:(discriminate)) as Hlt.
      cbn [length] in *. unfold jsstring, char in *. lia. }
    destruct (startsWith _ _); [intro H; apply (Hskip 4 _ ltac:(lia) H)|].
    destruct (startsWith _ _); [intro H; apply (Hskip 5 _ ltac:(lia) H)|].
    destruct (startsWith _ _); [intro H; apply (Hskip 4 _ ltac:(lia) H)|].
    intro H. apply parseNumber_length in H. simpl in H. lia.
  - intros s l s'. cbn [parseElements].
    destruct (parseValue fuel s) as [[v s1]|] eqn:E; [|discriminate].
    apply IHv in E. pose proof (skipSpace_length s1) as Hs.
    destruct (skipSpace s1) as [|c s2]; [discriminate|]. simpl in Hs.
    destruct (c =? 93)%N; [intros [= <- <-]; lia|].
    destruct (c =? 44)%N; [|discriminate].
    destruct (parseElements fuel s2) as [[l' s3]|] eqn:E'; [|discriminate].
    apply IHe in E'. intros [= <- <-]. lia.
  - intros s acc props s'. cbn [parseMembers].
    pose proof (skipSpace_length s) as Hs.
    destruct (skipSpace s) as [|q s0]; [discriminate|]. simpl in Hs.
    destruct (q =? 34)%N; [|discriminate].
    destruct (parseStringBody s0 []) as [[key s1]|] eqn:E; [|discriminate].
    apply (parseStringBody_length (length s0)) in E; [|lia].
    pose proof (skipSpace_length s1) as Hs1.
    destruct (skipSpace s1) as [|c s2]; [discriminate|]. simpl in Hs1.
    destruct (c =? 58)%N; [|discriminate].
    destruct (parseValue fuel s2) as [[v s3]|] eqn:Ev; [|discriminate].
    apply IHv in Ev. pose proof (skipSpace_length s3) as Hs3.
    destruct (skipSpace s3) as [|d s4]; [discriminate|]. simpl in Hs3.
    destruct (d =? 125)%N; [intros [= <- <-]; lia|].
    destruct (d =? 44)%N; [|discriminate].
    intro H. apply IHm in H. lia.
Qed.

(** Twice the number of units a successful call consumes is enough fuel
    for it: with that much or more the call gives the same result. *)
Lemma parse_fuel (g : nat) :
  (forall s v s', parseValue g s = Some (v, s') ->
     forall f, 2 * (length s - length s') <= f -> parseValue f s = Some (v, s'))
  /\ (forall s l s', parseElements g s = Some (l, s') ->
     forall f, 2 * (length s - length s') <= f -> parseElements f s = Some (l, s'))
  /\ (forall s acc props s', parseMembers g s acc = Some (props, s') ->
     forall f, 2 * (length s - length s') <= f -> parseMembers f s acc = Some (props, s')).
Proof.
  induction g as [|g (IHv & IHe & IHm)]; [repeat split; intros; discriminate|].
  destruct (parse_consumes g) as (Cv & Ce & Cm).
  destruct (parse_consumes (S g)) as (Cv' & Ce' & Cm').
  split; [|split].
  - intros s v s' H f Hf. pose proof (Cv' _ _ _ H) as Hc.
    destruct f as [|f]; [lia|]. revert H. cbn [parseValue].
    pose proof (skipSpace_length s) as Hs.
    destruct (skipSpace s) as [|c s0]; [discriminate|]. cbn [length] in Hs.
    destruct (c =? 123)%N.
    { pose proof (skipSpace_length s0) as Hs0.
      destruct (skipSpace s0) as [|d s1]; [discriminate|].
      destruct (d =? 125)%N; [trivial|].
      destruct (parseMembers g (d :: s1) []) as [[props s3]|] eqn:E; [|discriminate].
      intros [= <- <-]. pose proof (Cm _ _ _ _ E) as Hc'.
      rewrite (IHm _ _ _ _ E); [reflexivity|].
      unfold jsstring, char in *. lia. }
    destruct (c =? 91)%N.
    { pose proof (skipSpace_length s0) as Hs0.
      destruct (skipSpace s0) as [|d s1]; [discriminate|].
      destruct (d =? 93)%N; [trivial|].
      destruct (parseElements g (d :: s1)) as [[l s3]|] eqn:E; [|discriminate].
      intros [= <- <-]. pose proof (Ce _ _ _ E) as Hc'.
      rewrite (IHe _ _ _ E); [reflexivity|].
      unfold jsstring, char in *. lia. }
    trivial.
  - intros s l s' H f Hf. pose proof (Ce' _ _ _ H) as Hc.
    destruct f as [|f]; [lia|]. revert H. cbn [parseElements].
    destruct (parseValue g s) as [[v s1]|] eqn:E; [|discriminate].
    pose proof (Cv _ _ _ E) as Hv. pose proof (skipSpace_length s1) as Hs.
    destruct (skipSpace s1) as [|c s2] eqn:Hsk; [discriminate|]. cbn [length] in Hs.
    destruct (c =? 93)%N eqn:Hc93.
    { intros [= <- <-]. rewrite (IHv _ _ _ E), Hsk, Hc93; [reflexivity|].
      unfold jsstring, char in *. lia. }
    destruct (c =? 44)%N eqn:Hc44; [|discriminate].
    destruct (parseElements g s2) as [[l' s3]|] eqn:E'; [|discriminate].
    intros [= <- <-]. pose proof (Ce _ _ _ E') as He.
    rewrite (IHv _ _ _ E), Hsk, Hc93, Hc44, (IHe _ _ _ E'); [reflexivity| |];
      unfold jsstring, char in *; lia.
  - intros s acc props s' H f Hf. pose proof (Cm' _ _ _ _ H) as Hc.
    destruct f as [|f]; [lia|]. revert H. cbn [parseMembers].
    pose proof (skipSpace_length s) as Hs.
    destruct (skipSpace s) as [|q s0]; [discriminate|]. cbn [length] in Hs.
    destruct (q =? 34)%N; [|discriminate].
    destruct (parseStringBody s0 []) as [[key s1]|] eqn:E; [|discriminate].
    apply (parseStringBody_length (length s0)) in E; [|lia].
    pose proof (skipSpace_length s1) as Hs1.
    destruct (skipSpace s1) as [|c s2]; [discriminate|]. cbn [length] in Hs1.
    destruct (c =? 58)%N; [|discriminate].
    destruct (parseValue g s2) as [[v s3]|] eqn:Ev; [|discriminate].
    pose proof (Cv _ _ _ Ev) as Hv. pose proof (skipSpace_length s3) as Hs3.
    destruct (skipSpace s3) as [|d s4] eqn:Hsk; [discriminate|]. cbn [length] in Hs3.
    destruct (d =? 125)%N eqn:Hd125.
    { intros [= <- <-]. rewrite (IHv _ _ _ Ev), Hsk, Hd125; [reflexivity|].
      unfold jsstring, char in *. lia. }
    destruct (d =? 44)%N eqn:Hd44; [|discriminate].
    intro H. pose proof (Cm _ _ _ _ H) as Hm.
    rewrite (IHv _ _ _ Ev), Hsk, Hd125, Hd44; [|unfold jsstring, char in *; lia].
    apply (IHm _ _ _ _ H). unfold jsstring, char in *. lia.
Qed.

(** The fuel [JSON_parse] hands over is always enough: more fuel never
    changes the result of the descent, so a [None] of [JSON_parse] is a
    syntax error of the text and never a descent cut short. *)
Theorem JSON_parse_fuel (s : jsstring) (g : nat) :
  2 * length s + 2 <= g ->
  parseValue g s = parseValue (2 * length s + 2) s.
Proof.
  intro Hg. destruct (parse_fuel g) as (Hv & _). destruct (parse_fuel (2 * length s + 2)) as (Hv' & _).
  destruct (parseValue g s) as [[v s']|] eqn:E.
  - symmetry. apply (Hv _ _ _ E). lia.
  - destruct (parseValue (2 * length s + 2) s) as [[v s']|] eqn:E'; [|reflexivity].
    rewrite (Hv' _ _ _ E' g) in E; [discriminate|lia].
Qed.

(** ** A fragment decodes to a list or not at all *)

Lemma scan_matchAt_suffix (r : regex) (s : jsstring) :
  forall skip i m,
    In m (scan r skip s i) -> exists k, matchAt r (skipn k s) (i + k) = Some m.
Proof.
  induction s as [|c s IH]; intros skip i m; simpl.
  - destruct skip; [|contradiction].
    destruct (matchAt r [] i) eqn:E; [|contradiction].
    intros [<-|[]]. exists 0. now rewrite Nat.add_0_r.
  - assert (Htail : forall skip', In m (scan r skip' s (S i)) ->
                                  exists k, matchAt r (skipn k (c :: s)) (i + k) = Some m).
    { intros skip' H. apply IH in H as (k & H). exists (S k).
      simpl. now replace (i + S k) with (S i + k) by lia. }
    destruct skip; [|apply Htail].
    destruct (matchAt r (c :: s) i) eqn:E; [|apply Htail].
    intros [<-|H]; [|eapply Htail, H].
    exists 0. now rewrite Nat.add_0_r.
Qed.




(** ** The sort *)

Section Sorting.
Variable A : Type.
Variable key : A -> Z.

(** A comparator that orders by a key. *)
Let cmp (a b : A) : Z := (key a - key b)%Z.
Let le (a b : A) : Prop := (key a <= key b)%Z.

Lemma sort_cons (x : A) (l : list A) :
  sort cmp (x :: l) = insertSorted cmp x (sort cmp l).
Proof. reflexivity. Qed.

Lemma In_insertSorted (x y : A) (l : list A) :
  In y (insertSorted cmp x l) <-> y = x \/ In y l.
Proof.
  induction l as [|z l IH]; simpl.
  - intuition.
  - destruct (cmp x z <=? 0)%Z; simpl; rewrite ?IH; intuition.
Qed.

Lemma In_sort (y : A) (l : list A) : In y (sort cmp l) <-> In y l.
Proof.
  induction l as [|x l IH]; [simpl; tauto|].
  rewrite sort_cons, In_insertSorted, IH. simpl. intuition.
Qed.

Lemma length_insertSorted (x : A) (l : list A) :
  length (insertSorted cmp x l) = S (length l).
Proof.
  induction l as [|z l IH]; simpl; [reflexivity|].
  destruct (cmp x z <=? 0)%Z; simpl; congruence.
Qed.

Lemma length_sort (l : list A) : length (sort cmp l) = length l.
Proof.
  induction l as [|x l IH]; [reflexivity|].
  rewrite sort_cons, length_insertSorted, IH. reflexivity.
Qed.

Lemma insertSorted_sorted (x : A) (l : list A) :
  StronglySorted le l -> StronglySorted le (insertSorted cmp x l).
Proof.
  induction 1 as [|z l Hl IH Hz]; simpl.
  - repeat constructor.
  - destruct (cmp x z <=? 0)%Z eqn:E.
    + apply Z.leb_le in E. constructor; [now constructor|].
      constructor; [unfold le, cmp in *; lia|].
      rewrite Forall_forall in *. intros w Hw. specialize (Hz w Hw).
      unfold le, cmp in *. lia.
    + apply Z.leb_gt in E. constructor; [assumption|].
      rewrite Forall_forall in *. intros w Hw.
      apply In_insertSorted in Hw as [->|Hw]; [unfold le, cmp in *; lia|auto].
Qed.

Lemma sort_sorted (l : list A) : StronglySorted le (sort cmp l).
Proof.
  induction l as [|x l IH]; [constructor|].
  rewrite sort_cons. now apply insertSorted_sorted.
Qed.

(** In a sorted list an element of smaller key stands before every
    element of larger key. *)
Lemma sorted_before (l : list A) (x y : A) :
  StronglySorted le l -> In x l -> In y l -> (key x < key y)%Z ->
  exists pre mid post, l = pre ++ x :: mid ++ y :: post.
Proof.
  induction 1 as [|z l Hl IH Hz]; simpl; [tauto|].
  intros Hx Hy Hlt. rewrite Forall_forall in Hz.
  destruct Hx as [->|Hx].
  - destruct Hy as [->|Hy]; [lia|].
    apply in_split in Hy as (mid & post & ->).
    now exists [], mid, post.
  - destruct Hy as [->|Hy].
    + specialize (Hz x Hx). unfold le in Hz. lia.
    + destruct (IH Hx Hy Hlt) as (pre & mid & post & ->).
      now exists (z :: pre), mid, post.
Qed.

End Sorting.

Section Extractor.
Context {CM : CaseMapping}.

Lemma compareCriteria_key (a b : Criterion) :
  compareCriteria a b = (sortKey a - sortKey b)%Z.
Proof. reflexivity. Qed.

(** *** The default pass leaves every required name in the list *)

Lemma has_true (names : list jsstring) (s : jsstring) :
  has names s = true <-> In s names.
Proof.
  unfold has. rewrite existsb_exists. split.
  - intros (x & Hx & E). apply str_eqb_eq in E. now subst.
  - intro H. exists s. split; [assumption|apply str_eqb_refl].
Qed.

Lemma defaultStep_keeps (text : jsstring) (found rs : list jsstring)
      (acc : list Criterion) (c : Criterion) :
  In c acc ->
  In c (fold_left (fun acc required =>
                     if has found required then acc
                     else acc ++ [defaultCriterion text required]) rs acc).
Proof.
  revert acc. induction rs as [|r rs IH]; simpl; intros acc H; [assumption|].
  apply IH. destruct (has found r); [assumption|].
  apply in_or_app. now left.
Qed.

Lemma defaultStep_adds (text : jsstring) (found rs : list jsstring)
      (acc : list Criterion) (r : jsstring) :
  In r rs -> has found r = false ->
  In (defaultCriterion text r)
     (fold_left (fun acc required =>
                   if has found required then acc
                   else acc ++ [defaultCriterion text required]) rs acc).
Proof.
  revert acc. induction rs as [|r' rs IH]; simpl; intros acc H Hf; [tauto|].
  destruct H as [->|H].
  - rewrite Hf. apply defaultStep_keeps. apply in_or_app. right. now left.
  - now apply IH.
Qed.

Lemma defaultPass_keeps (text : jsstring) (cs : list Criterion) (c : Criterion) :
  In c cs -> In c (defaultPass text cs).
Proof. apply defaultStep_keeps. Qed.

Lemma defaultPass_required (text : jsstring) (cs : list Criterion) (r : jsstring) :
  In r requiredCriteria ->
  exists c, In c (defaultPass text cs) /\ name c = r.
Proof.
  intro Hr. destruct (has (map name cs) r) eqn:E.
  - apply has_true, in_map_iff in E as (c & Hn & Hc).
    exists c. split; [now apply defaultPass_keeps|assumption].
  - exists (defaultCriterion text r). split; [|reflexivity].
    now apply defaultStep_adds.
Qed.

(** Every result names each of the four categories at least once. *)
Lemma required_present (output writing r : jsstring) :
  In r requiredCriteria ->
  exists c, In c (criteria (parseAnalysisOutput output writing)) /\ name c = r.
Proof.
  intro Hr. simpl.
  destruct (defaultPass_required (analysisSegment output)
              (gapFillPass (analysisSegment output) (primaryPass (analysisSegment output)))
              r Hr) as (c & Hc & Hn).
  exists c. split; [|assumption].
  unfold compareCriteria. apply (In_sort _ sortKey). exact Hc.
Qed.

(** C3: the claim fails on every input.  The comparator reads the rank
    of a name as [sortOrder[name] || 999], and the rank 0 of Content is
    falsy: Content is ranked 999 and sorted last.  In every result a
    criterion named Language stands before a criterion named Content. *)
Theorem content_sorted_after_language (output writing : jsstring) :
  exists pre l mid c post,
    criteria (parseAnalysisOutput output writing) = pre ++ l :: mid ++ c :: post
    /\ name l = js "Language" /\ name c = js "Content".
Proof.
  destruct (required_present output writing (js "Language")) as (l & Hl & Hnl);
    [simpl; tauto|].
  destruct (required_present output writing (js "Content")) as (c & Hc & Hnc);
    [simpl; tauto|].
  assert (Hs : StronglySorted (fun a b => (sortKey a <= sortKey b)%Z)
                 (criteria (parseAnalysisOutput output writing)))
    by apply (sort_sorted _ sortKey).
  assert (Hlt : (sortKey l < sortKey c)%Z)
    by (unfold sortKey; rewrite Hnl, Hnc; reflexivity).
  destruct (sorted_before _ sortKey _ l c Hs Hl Hc Hlt) as (pre & mid & post & E).
  exists pre, l, mid, c, post. auto.
Qed.

End Extractor.

(** ** Scores *)

Lemma isDigit_cases (d : char) :
  isDigit d = true -> In d [48; 49; 50; 51; 52; 53; 54; 55; 56; 57]%N.
Proof.
  unfold isDigit. intro H. apply andb_true_iff in H as [H1 H2].
  apply N.leb_le in H1, H2.
  assert (E : d = N.of_nat (48 + (N.to_nat d - 48))) by lia.
  assert (Hk : N.to_nat d - 48 < 10) by lia.
  revert E. generalize (N.to_nat d - 48) Hk. intros k Hk' ->.
  do 10 (destruct k as [|k]; [simpl; tauto|]). lia.
Qed.

Lemma parseFloat_digit (d : char) :
  isDigit d = true ->
  exists k, (0 <= k <= 99)%Z /\ parseFloat [d] = decimalScore k.
Proof.
  intro H. exists (10 * Z.of_N (d - 48))%Z.
  apply isDigit_cases in H. simpl in H.
  repeat (destruct H as [<-|H]; [split; [simpl; lia|vm_compute; reflexivity]|]).
  contradiction.
Qed.

Lemma parseFloat_digit_dot_digit (d d' : char) :
  isDigit d = true -> isDigit d' = true ->
  exists k, (0 <= k <= 99)%Z /\ parseFloat [d; 46%N; d'] = decimalScore k.
Proof.
  intros H H'. exists (10 * Z.of_N (d - 48) + Z.of_N (d' - 48))%Z.
  apply isDigit_cases in H, H'. simpl in H, H'.
  repeat (destruct H as [<-|H];
          [repeat (destruct H' as [<-|H'];
                   [split; [simpl; lia|vm_compute; reflexivity]|]);
           contradiction|]).
  contradiction.
Qed.

Lemma parseFloat_scoreText (s : jsstring) :
  scoreText s -> exists k, (0 <= k <= 99)%Z /\ parseFloat s = decimalScore k.
Proof.
  intros (d & Hd & [->|(d' & Hd' & ->)]).
  - now apply parseFloat_digit.
  - now apply parseFloat_digit_dot_digit.
Qed.

Lemma decimalScore_bounds (k : Z) :
  (0 <= k <= 99)%Z ->
  (0 <=? decimalScore k)%float = true /\ (decimalScore k <=? 9.9)%float = true.
Proof.
  intro Hk.
  assert (Hall : forallb (fun n => (0 <=? decimalScore (Z.of_nat n))%float
                                   && (decimalScore (Z.of_nat n) <=? 9.9)%float)
                         (seq 0 100) = true) by (vm_compute; reflexivity).
  rewrite forallb_forall in Hall.
  specialize (Hall (Z.to_nat k)). rewrite Z2Nat.id in Hall by lia.
  apply andb_true_iff. apply Hall. apply in_seq. lia.
Qed.

Section Scores.
Context {CM : CaseMapping}.

Lemma primaryPass_scores (text : jsstring) (c : Criterion) :
  In c (primaryPass text) -> scoreShape c.
Proof.
  unfold primaryPass, matchAll. intro H.
  apply in_map_iff in H as (m & <- & Hm).
  apply scan_matchAt in Hm as (s & i & Hm).
  right. simpl. apply parseFloat_scoreText. eapply primaryRe_score, Hm.
Qed.

Lemma gapFillLine_scores (st : list Criterion * list jsstring) (line : jsstring) :
  (forall c, In c (fst st) -> scoreShape c) ->
  forall c, In c (fst (gapFillLine st line)) -> scoreShape c.
Proof.
  intros Hst c. unfold gapFillLine.
  destruct (search lineRe line 0) as [m|] eqn:E; [|apply Hst].
  destruct (has (snd st) (group m 1)); [apply Hst|]. simpl.
  intro H. apply in_app_or in H as [H|[<-|[]]]; [now apply Hst|].
  apply search_matchAt in E as (s & i & E).
  apply lineRe_score in E as (d & Hd & E).
  right. simpl. rewrite E. now apply parseFloat_digit.
Qed.

Lemma gapFillPass_scores (text : jsstring) (cs : list Criterion) :
  (forall c, In c cs -> scoreShape c) ->
  forall c, In c (gapFillPass text cs) -> scoreShape c.
Proof.
  intros Hcs. unfold gapFillPass. destruct (length cs <? 4); [|assumption].
  generalize (map name cs). generalize (splitLines text). revert cs Hcs.
  intros cs Hcs lines. revert cs Hcs.
  induction lines as [|line lines IH]; intros cs Hcs names; simpl; [assumption|].
  destruct (gapFillLine (cs, names) line) as [cs' names'] eqn:E.
  apply IH. intros c Hc.
  apply (gapFillLine_scores (cs, names) line Hcs). now rewrite E.
Qed.

(** The last-resort scan never recovers a score: the criterion it
    builds has score 3, or NaN when the scan matched. *)
Lemma defaultCriterion_score (text required : jsstring) :
  score (defaultCriterion text required) = 3%float
  \/ PrimFloat.is_nan (score (defaultCriterion text required)) = true.
Proof.
  unfold defaultCriterion. simpl.
  destruct (search (lastResortRe (toLowerCase required)) text 0) as [m|] eqn:E;
    [|now left].
  right. apply search_matchAt in E as (s & i & E).
  apply lastResortRe_score in E as [-> | ->]; reflexivity.
Qed.

Lemma defaultPass_scores (text : jsstring) (cs : list Criterion) :
  (forall c, In c cs -> scoreShape c) ->
  forall c, In c (defaultPass text cs) -> scoreShape c.
Proof.
  unfold defaultPass. generalize (map name cs) as found.
  generalize requiredCriteria as rs. intros rs found. revert cs.
  induction rs as [|r rs IH]; intros cs Hcs; simpl; [assumption|].
  apply IH. destruct (has found r); [assumption|].
  intros c Hc. apply in_app_or in Hc as [Hc|[<-|[]]]; [now apply Hcs|].
  destruct (defaultCriterion_score text r) as [E|E].
  - right. exists 30%Z. split; [lia|]. rewrite E. vm_compute. reflexivity.
  - now left.
Qed.

(** C9, as amended: a score of the result that is a number is a decimal
    with at most one fractional digit between 0 and 9.9; the patterns
    accept every digit, and nothing clamps a score to 5. *)
Theorem score_range (output writing : jsstring) (c : Criterion) :
  In c (criteria (parseAnalysisOutput output writing)) ->
  PrimFloat.is_nan (score c) = false ->
  (exists tenths, (0 <= tenths <= 99)%Z /\ score c = decimalScore tenths)
  /\ (0 <=? score c)%float = true /\ (score c <=? 9.9)%float = true.
Proof.
  intros Hc Hnan. simpl in Hc. apply (proj1 (In_sort _ sortKey c _)) in Hc.
  assert (H : scoreShape c).
  { clear Hnan. revert c Hc. unfold pushedCriteria.
    apply defaultPass_scores, gapFillPass_scores. apply primaryPass_scores. }
  destruct H as [H|(k & Hk & E)]; [congruence|].
  split; [now exists k|]. rewrite E. now apply decimalScore_bounds.
Qed.

End Scores.

(** C9 as stated fails: the patterns accept every digit, so a score may
    exceed 5. *)
Lemma score_above_five :
  exists c,
    In c (criteria (parseAnalysisOutput (CM := basicLatin) (js "Content (9/5): x") []))
    /\ (score c <=? 5)%float = false.
Proof.
  exists {| name := js "Content"; score := 9%float; feedback := js "x" |}.
  split; [|reflexivity]. vm_compute. tauto.
Qed.

(** ** The overall score of four whole scores *)

Lemma Permutation_insertSorted (A : Type) (cmp : A -> A -> Z) (x : A) (l : list A) :
  Permutation (insertSorted cmp x l) (x :: l).
Proof.
  induction l as [|y l IH]; simpl; [reflexivity|].
  destruct (cmp x y <=? 0)%Z; [reflexivity|].
  rewrite IH. apply perm_swap.
Qed.

Lemma Permutation_sort (A : Type) (cmp : A -> A -> Z) (l : list A) :
  Permutation (sort cmp l) l.
Proof.
  induction l as [|x l IH]; [reflexivity|].
  change (sort cmp (x :: l)) with (insertSorted cmp x (sort cmp l)).
  rewrite Permutation_insertSorted. now constructor.
Qed.

Lemma small_cases (n : Z) (bound : nat) :
  (0 <= n < Z.of_nat bound)%Z -> In n (map Z.of_nat (seq 0 bound)).
Proof.
  intro H. apply in_map_iff. exists (Z.to_nat n). split; [lia|].
  apply in_seq. lia.
Qed.

(** Sums of a few digits are exact in binary64. *)
Lemma floatOfZ_add (a b : Z) :
  (0 <= a < 28)%Z -> (0 <= b < 10)%Z ->
  (floatOfZ a + floatOfZ b)%float = floatOfZ (a + b).
Proof.
  intros Ha Hb.
  apply (small_cases a 28) in Ha. apply (small_cases b 10) in Hb.
  simpl in Ha, Hb.
  repeat (destruct Ha as [<-|Ha];
          [repeat (destruct Hb as [<-|Hb]; [vm_compute; reflexivity|]);
           contradiction|]).
  contradiction.
Qed.

Lemma round_quarter (total : Z) :
  (0 <= total < 37)%Z ->
  Math_round (floatOfZ total / floatOfNat 4)%float = floatOfZ ((2 * total + 4) / 8).
Proof.
  intro H. apply (small_cases total 37) in H. simpl in H.
  repeat (destruct H as [<-|H]; [vm_compute; reflexivity|]).
  contradiction.
Qed.

Lemma sumZ_perm (l l' : list Z) : Permutation l l' -> sumZ l = sumZ l'.
Proof. induction 1; simpl; lia. Qed.

Section OverallScore.
Context {CM : CaseMapping}.

(** When the result lists four criteria whose scores are whole numbers
    from 0 to 9, the overall score is their mean rounded to the nearest
    integer, upwards on a tie. *)
Lemma overall_is_rounded_mean (output writing : jsstring) (ds : list Z) :
  map score (criteria (parseAnalysisOutput output writing)) = map floatOfZ ds ->
  length ds = 4 ->
  Forall (fun d => 0 <= d < 10)%Z ds ->
  overallScore (parseAnalysisOutput output writing)
  = floatOfZ ((2 * sumZ ds + 4) / 8).
Proof.
  intros Hscores Hlen Hds. simpl in *.
  remember (pushedCriteria (analysisSegment output)) as pushed eqn:Hp. clear Hp.
  assert (Hperm : Permutation (sort compareCriteria pushed) pushed)
    by apply Permutation_sort.
  assert (Hlen' : length (sort compareCriteria pushed) = 4).
  { rewrite <- (length_map score), Hscores, length_map. exact Hlen. }
  rewrite Hlen'. change (0 <? 4) with true. cbv iota.
  apply (Permutation_map score) in Hperm. rewrite Hscores in Hperm.
  apply Permutation_sym, Permutation_map_inv in Hperm as (ds' & Hpushed & Hperm).
  rewrite (sumZ_perm _ _ Hperm).
  assert (Hds' : Forall (fun d => 0 <= d < 10)%Z ds')
    by (eapply Permutation_Forall; eassumption).
  assert (Hlen'' : length ds' = 4)
    by (rewrite <- (Permutation_length Hperm); exact Hlen).
  assert (Hsum : sumScores pushed = floatOfZ (sumZ ds')).
  { unfold sumScores. clear - Hpushed Hds' Hlen''.
    destruct ds' as [|d1 [|d2 [|d3 [|d4 [|]]]]]; try discriminate.
    destruct pushed as [|p1 [|p2 [|p3 [|p4 [|]]]]]; try discriminate.
    simpl in Hpushed. injection Hpushed as E1 E2 E3 E4.
    inversion Hds' as [|? ? H1 Hds1]; subst.
    inversion Hds1 as [|? ? H2 Hds2]; subst.
    inversion Hds2 as [|? ? H3 Hds3]; subst.
    inversion Hds3 as [|? ? H4 _]; subst.
    simpl. rewrite E1, E2, E3, E4. unfold sumZ. simpl.
    change 0%float with (floatOfZ 0).
    rewrite !floatOfZ_add by lia.
    f_equal. lia. }
  rewrite Hsum. apply round_quarter.
  clear - Hds' Hlen''.
  destruct ds' as [|d1 [|d2 [|d3 [|d4 [|]]]]]; try discriminate.
  inversion Hds' as [|? ? H1 Hds1]; subst.
  inversion Hds1 as [|? ? H2 Hds2]; subst.
  inversion Hds2 as [|? ? H3 Hds3]; subst.
  inversion Hds3 as [|? ? H4 _]; subst.
  unfold sumZ. simpl. lia.
Qed.

End OverallScore.

(** ** Properties of objects *)

Lemma lookup_setProp_same (k : jsstring) (v : value) (props : list (jsstring * value)) :
  lookup k (setProp k v props) = Some v.
Proof.
  induction props as [|[k' v'] props IH]; simpl.
  - now rewrite str_eqb_refl.
  - destruct (str_eqb k k') eqn:E; simpl.
    + now rewrite str_eqb_refl.
    + now rewrite E.
Qed.

Lemma lookup_setProp_other (k k' : jsstring) (v : value) (props : list (jsstring * value)) :
  k <> k' -> lookup k (setProp k' v props) = lookup k props.
Proof.
  intro Hk. induction props as [|[k2 v2] props IH]; simpl.
  - apply str_eqb_neq in Hk. now rewrite Hk.
  - destruct (str_eqb k' k2) eqn:E; simpl.
    + apply str_eqb_eq in E. subst k2.
      apply str_eqb_neq in Hk. now rewrite Hk.
    + now rewrite IH.
Qed.

Lemma spanOf_withSpan (props : list (jsstring * value)) (s t : nat) :
  spanOf (withSpan (VObj props) s t) = Some (Z.of_nat s, Z.of_nat t).
Proof.
  unfold spanOf, withSpan, getProp.
  rewrite lookup_setProp_other by discriminate.
  now rewrite !lookup_setProp_same.
Qed.

Lemma getProp_withSpan (e : value) (s t : nat) (k : jsstring) :
  k <> js "start" -> k <> js "end" -> getProp (withSpan e s t) k = getProp e k.
Proof.
  intros H1 H2. destruct e; try reflexivity. simpl.
  now rewrite !lookup_setProp_other.
Qed.

Lemma textOf_withSpan (e : value) (s t : nat) : textOf (withSpan e s t) = textOf e.
Proof. unfold textOf. now rewrite getProp_withSpan by discriminate. Qed.

Lemma category_withSpan (e : value) (s t : nat) : category (withSpan e s t) = category e.
Proof. unfold category. now rewrite getProp_withSpan by discriminate. Qed.

Lemma getProp_recategorize (e : value) (k : jsstring) :
  k <> js "type" -> getProp (recategorize e) k = getProp e k.
Proof.
  intro Hk. unfold recategorize. destruct (isRegister e); [|reflexivity].
  destruct e; try reflexivity. simpl. now rewrite lookup_setProp_other.
Qed.

Lemma isRegister_category (e : value) :
  isRegister e = true <-> category e = Some (VStr (js "register")).
Proof.
  unfold isRegister, category. split.
  - intro H. apply andb_true_iff in H as [_ H].
    destruct (getProp e (js "type")) as [[]|]; try discriminate.
    apply str_eqb_eq in H. now subst.
  - intro H. rewrite H, str_eqb_refl.
    destruct e; try discriminate. reflexivity.
Qed.

Lemma category_recategorize (e : value) :
  category (recategorize e)
  = if isRegister e then Some (VStr (js "style")) else category e.
Proof.
  unfold recategorize. destruct (isRegister e) eqn:E; [|reflexivity].
  apply isRegister_category in E. unfold category in *.
  destruct e; try discriminate. simpl. apply lookup_setProp_same.
Qed.

Lemma hasSpanField_spanOf (e : value) : hasSpanField e = false -> spanOf e = None.
Proof.
  unfold hasSpanField, spanOf.
  destruct (getProp e (js "start")), (getProp e (js "end")); easy.
Qed.

(** ** The mask *)

Lemma nth_setUsed (j : nat) (used : list bool) (p : nat) :
  nth p (setUsed j used) false = (p =? j) || nth p used false.
Proof.
  revert used p. induction j as [|j IH]; intros [|b used] [|p]; simpl; try reflexivity.
  - now destruct p.
  - rewrite IH. now destruct p.
  - apply IH.
Qed.

Lemma nth_markUsed (n j : nat) (used : list bool) (p : nat) :
  nth p (markUsed n j used) false = (j <=? p) && (p <? j + n) || nth p used false.
Proof.
  revert j used. induction n as [|n IH]; intros j used; simpl.
  - destruct (j <=? p) eqn:E1, (p <? j + 0) eqn:E2; try reflexivity.
    apply Nat.leb_le in E1. apply Nat.ltb_lt in E2. lia.
  - rewrite IH, nth_setUsed.
    destruct (S j <=? p) eqn:E1, (p <? S j + n) eqn:E2, (p =? j) eqn:E3,
             (j <=? p) eqn:E4, (p <? j + S n) eqn:E5; try reflexivity;
      repeat match goal with
             | H : (_ <=? _) = true |- _ => apply Nat.leb_le in H
             | H : (_ <=? _) = false |- _ => apply Nat.leb_gt in H
             | H : (_ <? _) = true |- _ => apply Nat.ltb_lt in H
             | H : (_ <? _) = false |- _ => apply Nat.ltb_ge in H
             | H : (_ =? _) = true |- _ => apply Nat.eqb_eq in H
             | H : (_ =? _) = false |- _ => apply Nat.eqb_neq in H
             end; lia.
Qed.

Lemma isUsed_markUsed (n j : nat) (used : list bool) (p : nat) :
  isUsed (markUsed n j used) p <-> (j <= p < j + n) \/ isUsed used p.
Proof.
  unfold isUsed. rewrite nth_markUsed, orb_true_iff, andb_true_iff,
    Nat.leb_le, Nat.ltb_lt. tauto.
Qed.

Lemma isUsed_fresh (m p : nat) : ~ isUsed (repeat false m) p.
Proof. unfold isUsed. now rewrite nth_repeat. Qed.

Lemma slice_used_free (used : list bool) (i n : nat) :
  existsb (fun b => b) (slice used i (i + n)) = false
  <-> forall p, i <= p < i + n -> ~ isUsed used p.
Proof.
  unfold slice, isUsed. replace (i + n - i) with n by lia. split.
  - intros H p Hp Hu.
    assert (Hn : nth (p - i) (firstn n (skipn i used)) false = true).
    { rewrite nth_firstn.
      replace (p - i <? n) with true by (symmetry; apply Nat.ltb_lt; lia).
      rewrite nth_skipn. now replace (i + (p - i)) with p by lia. }
    destruct (Nat.lt_ge_cases (p - i) (length (firstn n (skipn i used)))) as [Hlt|Hge].
    + apply (existsb_nth _ _ false Hlt) in H. congruence.
    + rewrite nth_overflow in Hn by assumption. discriminate.
  - intro H. destruct (existsb _ _) eqn:E; [|reflexivity].
    apply existsb_exists in E as (b & Hin & ->).
    apply (In_nth _ _ false) in Hin as (q & Hq & Hnth).
    rewrite nth_firstn in Hnth.
    rewrite length_firstn in Hq.
    replace (q <? n) with true in Hnth by (symmetry; apply Nat.ltb_lt; lia).
    rewrite nth_skipn in Hnth.
    exfalso. apply (H (i + q)); [lia|assumption].
Qed.

(** ** The scan for the first free occurrence *)

Lemma freeMatchAt_true (normWriting normError : jsstring) (used : list bool) (s : nat) :
  freeMatchAt normWriting normError used s = true
  <-> substring normWriting s (s + length normError) = normError
      /\ forall p, s <= p < s + length normError -> ~ isUsed used p.
Proof.
  unfold freeMatchAt.
  rewrite andb_true_iff, negb_true_iff, str_eqb_eq, slice_used_free. tauto.
Qed.

Lemma firstFree_some (n i : nat) (nw ne : jsstring) (used : list bool) (s : nat) :
  firstFree n i nw ne used = Some s ->
  i <= s < i + n /\ freeMatchAt nw ne used s = true
  /\ forall s', i <= s' < s -> freeMatchAt nw ne used s' = false.
Proof.
  revert i. induction n as [|n IH]; intros i; simpl; [discriminate|].
  destruct (freeMatchAt nw ne used i) eqn:E.
  - intros [= <-]. split; [lia|]. split; [assumption|]. intros s' Hs'. lia.
  - intro H. apply IH in H as (Hr & Hf & Hl).
    split; [lia|]. split; [assumption|].
    intros s' Hs'. destruct (Nat.eq_dec s' i) as [->|Hne]; [assumption|].
    apply Hl. lia.
Qed.

Lemma firstFree_none (n i : nat) (nw ne : jsstring) (used : list bool) :
  firstFree n i nw ne used = None ->
  forall s', i <= s' < i + n -> freeMatchAt nw ne used s' = false.
Proof.
  revert i. induction n as [|n IH]; intros i; simpl; [intros _ s' Hs'; lia|].
  destruct (freeMatchAt nw ne used i) eqn:E; [discriminate|].
  intros H s' Hs'. destruct (Nat.eq_dec s' i) as [->|Hne]; [assumption|].
  apply (IH _ H). lia.
Qed.

Lemma findStart_some (nw ne : jsstring) (used : list bool) (s : nat) :
  findStart nw ne used = Some s ->
  freeMatchAt nw ne used s = true
  /\ forall s', s' < s -> freeMatchAt nw ne used s' = false.
Proof.
  unfold findStart. destruct (length ne <=? length nw); [|discriminate].
  intro H. apply firstFree_some in H as (_ & Hf & Hl).
  split; [assumption|]. intros s' Hs'. apply Hl. lia.
Qed.

Lemma findStart_none (nw ne : jsstring) (used : list bool) :
  findStart nw ne used = None ->
  forall s', freeMatchAt nw ne used s' = false.
Proof.
  unfold findStart. intros H s'.
  destruct (freeMatchAt nw ne used s') eqn:E; [|reflexivity]. exfalso.
  pose proof E as E'. apply freeMatchAt_true in E' as [Hsub _].
  destruct ne as [|c ne].
  - simpl in H. unfold freeMatchAt, substring, slice in H. simpl in H. discriminate.
  - apply substring_eq_bound in Hsub; [|discriminate].
    destruct (length (c :: ne) <=? length nw) eqn:Hle.
    + rewrite (firstFree_none _ _ _ _ _ H s') in E; [discriminate|lia].
    + apply Nat.leb_gt in Hle. lia.
Qed.

Lemma slice_used_taken (used : list bool) (i n : nat) :
  existsb (fun b => b) (slice used i (i + n)) = true ->
  exists p, i <= p < i + n /\ isUsed used p.
Proof.
  unfold slice, isUsed. replace (i + n - i) with n by lia. intro E.
  apply existsb_exists in E as (b & Hin & ->).
  apply (In_nth _ _ false) in Hin as (q & Hq & Hnth).
  rewrite nth_firstn in Hnth. rewrite length_firstn in Hq.
  replace (q <? n) with true in Hnth by (symmetry; apply Nat.ltb_lt; lia).
  rewrite nth_skipn in Hnth.
  exists (i + q). split; [lia|assumption].
Qed.

Lemma not_free_taken (nw ne : jsstring) (used : list bool) (s : nat) :
  freeMatchAt nw ne used s = false ->
  substring nw s (s + length ne) = ne ->
  exists p, s <= p < s + length ne /\ isUsed used p.
Proof.
  unfold freeMatchAt. intros H Hsub.
  apply str_eqb_eq in Hsub. rewrite Hsub in H. simpl in H.
  apply negb_false_iff in H. now apply slice_used_taken.
Qed.

(** ** The location pass *)

Section Locator.
Context {CM : CaseMapping}.

(** What [locateOne] does to a record: it returns it unchanged, with
    the mask unchanged, when the record has no text to look for or the
    scan finds no free occurrence; or it attaches the span of the first
    free occurrence and marks it. *)
Lemma locateOne_cases (writing : jsstring) (e : value) (used : list bool)
      (o : value) (used' : list bool) :
  locateOne writing e used = Returns (o, used') ->
  (o = e /\ used' = used
   /\ forall t, textOf e = Some t -> t <> [] ->
      forall s, freeMatchAt (toLowerCase writing) (toLowerCase t) used s = false)
  \/ (exists props t s,
        e = VObj props /\ textOf e = Some t /\ t <> []
        /\ findStart (toLowerCase writing) (toLowerCase t) used = Some s
        /\ o = withSpan e s (s + length t)
        /\ used' = markUsed (length (toLowerCase t)) s used).
Proof.
  unfold locateOne.
  destruct (truthy e) eqn:Te; cbn [negb].
  - destruct (getProp e (js "text")) as [t0|] eqn:Ht.
    + destruct (truthy t0) eqn:Tt; cbn [negb].
      * destruct t0 as [| | |text| |]; try discriminate.
        destruct (findStart (toLowerCase writing) (toLowerCase text) used) as [s|] eqn:Hf.
        -- intros [= <- <-]. right.
           destruct e; try discriminate.
           exists props, text, s. unfold textOf. rewrite Ht.
           repeat split; try assumption.
           intros ->. discriminate.
        -- intros [= <- <-]. left. repeat split.
           unfold textOf. rewrite Ht.
           intros t [= <-] _ s. now apply findStart_none.
      * intros [= <- <-]. left. repeat split.
        unfold textOf. rewrite Ht.
        intros t Ht' Hne. destruct t0; try discriminate.
        injection Ht' as ->. destruct t; [contradiction|discriminate].
    + intros [= <- <-]. left. repeat split.
      unfold textOf. rewrite Ht. discriminate.
  - intros [= <- <-]. left. repeat split. intros t Ht' Hne.
    destruct e; try discriminate.
Qed.

Lemma claims_withSpan (e : value) (props : list (jsstring * value))
      (t : jsstring) (s stop p : nat) :
  e = VObj props -> textOf e = Some t ->
  claims (withSpan e s stop) p <-> s <= p < s + length (toLowerCase t).
Proof.
  intros -> Ht. unfold claims. rewrite textOf_withSpan, spanOf_withSpan, Ht. split.
  - intros (t' & s' & e' & [= <-] & [= Hs _] & Hp).
    apply Nat2Z.inj in Hs. now subst.
  - intro Hp. now exists t, s, (Z.of_nat stop).
Qed.

Lemma claims_no_span (e : value) (p : nat) : hasSpanField e = false -> ~ claims e p.
Proof.
  intros H (t & s & e' & _ & Hs & _).
  rewrite (hasSpanField_spanOf _ H) in Hs. discriminate.
Qed.

Lemma marked_succ (o : value) (out : list value) (k p : nat) :
  marked (o :: out) (S k) p <-> marked out k p.
Proof. reflexivity. Qed.

Lemma marked_zero (o : value) (out : list value) (p : nat) :
  marked (o :: out) 0 p <-> claims o p.
Proof.
  unfold marked. simpl. split.
  - now intros (o' & [= <-] & H).
  - intro H. now exists o.
Qed.

(** The invariant of the pass, from any mask: every record was either
    passed over, all occurrences of its text being blocked, or located
    at the leftmost occurrence that was vacant. *)
Lemma locateAll_inv (writing : jsstring) (es : list value) :
  forall (used : list bool) (out : list value),
    Forall (fun e => hasSpanField e = false) es ->
    locateAll writing es used = Returns out ->
    length out = length es
    /\ forall j e o,
        nth_error es j = Some e -> nth_error out j = Some o ->
        passedOver writing used out j e o
        \/ exists t s, locatedAt writing used out j e o t s.
Proof.
  induction es as [|e es IH]; intros used out Hes; simpl.
  - intros [= <-]. split; [reflexivity|]. intros [|j] e o; discriminate.
  - destruct (locateOne writing e used) as [[o used']|] eqn:Hone; [|discriminate].
    destruct (locateAll writing es used') as [out'|] eqn:Hall; [|discriminate].
    intros [= <-].
    inversion Hes as [|e0 es0 He Hes']; subst e0 es0.
    destruct (IH used' out' Hes' Hall) as [Hlen Hrec].
    split; [simpl; congruence|].
    (* the mask after the head is the mask before it plus what the head claimed *)
    assert (Hmask : forall p, isUsed used' p <-> isUsed used p \/ claims o p).
    { intro p. destruct (locateOne_cases _ _ _ _ _ Hone)
        as [(-> & -> & _)|(props & t & s & -> & Ht & _ & _ & -> & ->)].
      - pose proof (claims_no_span _ p He). tauto.
      - rewrite isUsed_markUsed, (claims_withSpan _ props t s _ p eq_refl Ht). tauto. }
    assert (Hblocked : forall j s n,
               blocked used' out' j s n -> blocked used (o :: out') (S j) s n).
    { intros j s n (p & Hp & [Hu|(k & Hk & Hm)]).
      - apply Hmask in Hu as [Hu|Hc].
        + exists p. split; [assumption|]. now left.
        + exists p. split; [assumption|]. right. exists 0. split; [lia|].
          now apply marked_zero.
      - exists p. split; [assumption|]. right. exists (S k). split; [lia|].
        now apply marked_succ. }
    assert (Hvacant : forall j s n,
               vacant used' out' j s n -> vacant used (o :: out') (S j) s n).
    { intros j s n Hv p Hp. destruct (Hv p Hp) as [Hu Hm]. split.
      - intro H. apply Hu, Hmask. now left.
      - intros [|k] Hk Hmk.
        + apply marked_zero in Hmk. apply Hu, Hmask. now right.
        + apply marked_succ in Hmk. apply (Hm k); [lia|assumption]. }
    intros [|j] e1 o1; simpl.
    + intros [= <-] [= <-].
      destruct (locateOne_cases _ _ _ _ _ Hone)
        as [(-> & -> & Hnone)|(props & t & s & -> & Ht & Hne & Hf & -> & ->)].
      * left. split; [reflexivity|]. intros t Ht Hne s Hocc.
        destruct (not_free_taken _ _ _ _ (Hnone t Ht Hne s) Hocc) as (p & Hp & Hu).
        exists p. split; [assumption|]. now left.
      * right. exists t, s. apply findStart_some in Hf as [Hfree Hleft].
        apply freeMatchAt_true in Hfree as [Hocc Hfree].
        split; [now exists props|]. split; [assumption|]. split; [assumption|].
        split; [reflexivity|]. split; [assumption|]. split.
        -- intros p Hp. split; [now apply Hfree|]. intros k Hk. lia.
        -- intros s' Hs' Hocc'.
           destruct (not_free_taken _ _ _ _ (Hleft s' Hs') Hocc') as (p & Hp & Hu).
           exists p. split; [assumption|]. now left.
    + intros He1 Ho1. destruct (Hrec j e1 o1 He1 Ho1)
        as [[-> Hb]|(t & s & Hobj & Ht & Hne & -> & Hocc & Hv & Hleft)].
      * left. split; [reflexivity|]. intros t Ht Hne s Hocc.
        apply Hblocked. now apply Hb.
      * right. exists t, s.
        split; [assumption|]. split; [assumption|]. split; [assumption|].
        split; [reflexivity|]. split; [assumption|]. split.
        -- now apply Hvacant.
        -- intros s' Hs' Hocc'. apply Hblocked. now apply Hleft.
Qed.

End Locator.

(** ** The turn of one record

    The pass hands every record to [locateOne] with the mask as the
    records before it have left it; the mask only grows. *)

Section Turns.
Context {CM : CaseMapping}.

Lemma locateOne_grows (writing : jsstring) (e : value) (used : list bool)
      (o : value) (used' : list bool) :
  locateOne writing e used = Returns (o, used') ->
  forall p, isUsed used p -> isUsed used' p.
Proof.
  intros H p Hp.
  destruct (locateOne_cases _ _ _ _ _ H)
    as [(_ & -> & _)|(props & t & s & _ & _ & _ & _ & _ & ->)]; [assumption|].
  apply isUsed_markUsed. now right.
Qed.

Lemma locateAll_turn (writing : jsstring) (es : list value) :
  forall used out j e,
    locateAll writing es used = Returns out ->
    nth_error es j = Some e ->
    exists o usedj usedj',
      nth_error out j = Some o
      /\ locateOne writing e usedj = Returns (o, usedj')
      /\ forall p, isUsed used p -> isUsed usedj p.
Proof.
  induction es as [|e0 es IH]; intros used out j e; [destruct j; discriminate|].
  simpl. destruct (locateOne writing e0 used) as [[o0 used1]|] eqn:Hone; [|discriminate].
  destruct (locateAll writing es used1) as [out'|] eqn:Hall; [|discriminate].
  intros [= <-]. destruct j as [|j]; simpl.
  - intros [= <-]. exists o0, used, used1. repeat split; auto.
  - intro He. destruct (IH used1 out' j e Hall He) as (o & uj & uj' & Ho & Hj & Hg).
    exists o, uj, uj'. repeat split; try assumption.
    intros p Hp. apply Hg. eapply locateOne_grows; eassumption.
Qed.



(** A record decoded without span fields that comes out with a span was
    located: at the first offset that [findStart] found free. *)
Lemma locateOne_located (writing : jsstring) (e : value) (used : list bool)
      (o : value) (used' : list bool) (s0 e0 : Z) :
  locateOne writing e used = Returns (o, used') ->
  hasSpanField e = false ->
  spanOf o = Some (s0, e0) ->
  exists props t n,
    e = VObj props /\ textOf e = Some t /\ t <> []
    /\ o = withSpan e n (n + length t)
    /\ s0 = Z.of_nat n /\ e0 = Z.of_nat (n + length t)
    /\ findStart (toLowerCase writing) (toLowerCase t) used = Some n
    /\ used' = markUsed (length (toLowerCase t)) n used.
Proof.
  intros Hone Hclean Hspan.
  destruct (locateOne_cases _ _ _ _ _ Hone)
    as [(-> & _ & _)|(props & t & n & -> & Ht & Hne & Hf & -> & ->)].
  - rewrite (hasSpanField_spanOf _ Hclean) in Hspan. discriminate.
  - rewrite spanOf_withSpan in Hspan. injection Hspan as <- <-.
    exists props, t, n. repeat split; assumption.
Qed.

End Turns.

Section LocatorResults.
Context {CM : CaseMapping}.

Lemma decodedErrors_nil : decodedErrors [] = [].
Proof. reflexivity. Qed.

(** The error list of the result: the located records, or the decoded
    ones when the location pass threw. *)
Lemma parseErrors_cases (errorsText writing : jsstring) :
  (locateAll writing (decodedErrors errorsText) (repeat false (length writing)) = Throws
   /\ parseErrors errorsText writing = decodedErrors errorsText)
  \/ (exists out,
         locateAll writing (decodedErrors errorsText) (repeat false (length writing))
         = Returns out
         /\ parseErrors errorsText writing = out).
Proof.
  unfold parseErrors. destruct errorsText as [|c errorsText].
  - right. exists []. now rewrite decodedErrors_nil.
  - destruct (errorMatches (c :: errorsText)) as [|f fs] eqn:E.
    + right. exists []. unfold decodedErrors. now rewrite E.
    + destruct (locateAll _ _ _) as [out|].
      * right. now exists out.
      * now left.
Qed.

Lemma locateAll_shape (writing : jsstring) (es : list value) :
  forall used out,
    locateAll writing es used = Returns out ->
    Forall2 (fun e o => o = e \/ exists start stop, o = withSpan e start stop) es out.
Proof.
  induction es as [|e es IH]; intros used out; simpl.
  - intros [= <-]. constructor.
  - destruct (locateOne writing e used) as [[o used']|] eqn:Hone; [|discriminate].
    destruct (locateAll writing es used') as [out'|] eqn:Hall; [|discriminate].
    intros [= <-]. constructor; [|now apply (IH used')].
    destruct (locateOne_cases _ _ _ _ _ Hone)
      as [(-> & _)|(props & t & s & _ & _ & _ & _ & -> & _)].
    + now left.
    + right. now exists s, (s + length t).
Qed.

Lemma Forall2_same (A : Type) (R : A -> A -> Prop) (l : list A) :
  (forall a, R a a) -> Forall2 R l l.
Proof. intro H. induction l; constructor; auto. Qed.

(** Every record of the result is a decoded record as emitted, in the
    order of decoding. *)
Lemma errors_emitted (output writing : jsstring) :
  Forall2 emitted
          (decodeFragments (errorMatches (errorsSegment output)))
          (errors (parseAnalysisOutput output writing)).
Proof.
  change (errors (parseAnalysisOutput output writing))
    with (parseErrors (errorsSegment output) writing).
  destruct (parseErrors_cases (errorsSegment output) writing)
    as [[_ ->]|(out & Hall & ->)]; unfold decodedErrors in *.
  - induction (decodeFragments _); constructor; [now left|assumption].
  - apply locateAll_shape in Hall.
    remember (decodeFragments (errorMatches (errorsSegment output))) as dec eqn:Hd.
    clear Hd. revert out Hall.
    induction dec as [|e dec IH]; intros out Hall; inversion Hall; subst; constructor.
    + assumption.
    + now apply IH.
Qed.

End LocatorResults.

Section ErrorList.
Context {CM : CaseMapping}.

Lemma category_emitted (e o : value) :
  emitted e o -> category o = category (recategorize e).
Proof.
  intros [->|(s & t & ->)]; [reflexivity|apply category_withSpan].
Qed.

(** C5: every record of the result is the decoded record of the same
    rank; a decoded category [register] comes out as [style], every
    other category, recognized or not, comes out as it was decoded.  The
    highlighter is where an unrecognized category is shown as [style]. *)
Theorem register_recategorized (output writing : jsstring) :
  Forall2
    (fun e o =>
       (category e = Some (VStr (js "register")) ->
        category o = Some (VStr (js "style")))
       /\ (category e <> Some (VStr (js "register")) -> category o = category e))
    (decodeFragments (errorMatches (errorsSegment output)))
    (errors (parseAnalysisOutput output writing))
  /\ forall t, has recognizedTypes t = false -> renderType (Some (VStr t)) = js "style".
Proof.
  split.
  - eapply Forall2_impl; [|apply errors_emitted].
    intros e o He. rewrite (category_emitted _ _ He), category_recategorize.
    destruct (isRegister e) eqn:E.
    + split; [reflexivity|]. intro H. apply isRegister_category in E. contradiction.
    + split; [|reflexivity]. intro H. apply isRegister_category in H. congruence.
  - intros t Ht. unfold renderType. now rewrite Ht.
Qed.

(** *** Decoding the fragments *)







End ErrorList.

Section Spans.
Context {CM : CaseMapping}.

(** A record of the result that carries a span was located by the pass:
    at the leftmost occurrence of its text that was free. *)
Lemma located_record (output writing : jsstring) (j : nat) (o : value) (s e : Z) :
  noSpanFields (decodedErrors (errorsSegment output)) ->
  nth_error (errors (parseAnalysisOutput output writing)) j = Some o ->
  spanOf o = Some (s, e) ->
  exists t n,
    textOf o = Some t /\ t <> []
    /\ s = Z.of_nat n /\ e = Z.of_nat (n + length t)
    /\ leftmostFree writing (errors (parseAnalysisOutput output writing)) j t n
    /\ forall p, claims o p <-> n <= p < n + length (toLowerCase t).
Proof.
  intros Hno Ho Hspan.
  change (errors (parseAnalysisOutput output writing))
    with (parseErrors (errorsSegment output) writing) in *.
  destruct (parseErrors_cases (errorsSegment output) writing)
    as [[_ E]|(out & Hall & E)]; rewrite E in *.
  - apply nth_error_In in Ho. unfold noSpanFields in Hno.
    rewrite Forall_forall in Hno.
    rewrite (hasSpanField_spanOf _ (Hno _ Ho)) in Hspan. discriminate.
  - destruct (locateAll_inv writing _ _ _ Hno Hall) as [Hlen Hrec].
    assert (Hj : j < length (decodedErrors (errorsSegment output))).
    { rewrite <- Hlen. apply nth_error_Some. congruence. }
    destruct (nth_error (decodedErrors (errorsSegment output)) j) as [e0|] eqn:He0;
      [|apply nth_error_None in He0; lia].
    destruct (Hrec j e0 o He0 Ho)
      as [[-> _]|(t & n & [props ->] & Ht & Hne & -> & Hocc & Hv & Hleft)].
    + apply nth_error_In in He0. unfold noSpanFields in Hno.
      rewrite Forall_forall in Hno.
      rewrite (hasSpanField_spanOf _ (Hno _ He0)) in Hspan. discriminate.
    + rewrite spanOf_withSpan in Hspan. injection Hspan as <- <-.
      exists t, n. rewrite textOf_withSpan.
      split; [assumption|]. split; [assumption|].
      split; [reflexivity|]. split; [reflexivity|]. split.
      * split; [assumption|]. split.
        -- intros p k o' Hp Hk Ho' Hc. destruct (Hv p Hp) as [_ Hm].
           apply (Hm k Hk). now exists o'.
        -- intros s' Hs' Hocc'.
           destruct (Hleft s' Hs' Hocc') as (p & Hp & [Hu|(k & Hk & o' & Ho' & Hc)]).
           ++ now apply isUsed_fresh in Hu.
           ++ now exists p, k, o'.
      * intro p. now apply (claims_withSpan _ props).
Qed.

Lemma noSpanFields_nth (es : list value) (j k : nat) (e : value) :
  noSpanFields (firstn j es) -> k < j -> nth_error es k = Some e ->
  hasSpanField e = false.
Proof.
  unfold noSpanFields. rewrite Forall_forall. intros H Hk He. apply H.
  apply (nth_error_In _ k). rewrite nth_error_firstn.
  now replace (k <? j) with true by (symmetry; apply Nat.ltb_lt; lia).
Qed.






(** C10, as amended.  Take a record of the result that carries a span
    and was decoded without a [start] or [end] field of its own,
    lower-casing keeping the length of the quoted text and commuting
    with taking substrings of the submission, as it does when it maps
    the submission unit by unit.  Then [0 <= start],
    [end = start + length text], [end <= length writing], and the
    submission between [start] and [end] equals the quoted text, letter
    case apart. *)
Theorem located_span_is_occurrence (output writing : jsstring)
        (i : nat) (d o : value) (t : jsstring) (s e : Z) :
  (forall a b, toLowerCase (substring writing a b)
               = substring (toLowerCase writing) a b) ->
  nth_error (decodedErrors (errorsSegment output)) i = Some d ->
  hasSpanField d = false ->
  nth_error (errors (parseAnalysisOutput output writing)) i = Some o ->
  textOf o = Some t ->
  spanOf o = Some (s, e) ->
  length (toLowerCase t) = length t ->
  (0 <= s)%Z
  /\ e = (s + Z.of_nat (length t))%Z
  /\ (e <= Z.of_nat (length writing))%Z
  /\ toLowerCase (substring writing (Z.to_nat s) (Z.to_nat e)) = toLowerCase t.
Proof.
  intros Hsub Hd Hc Ho Ht Hspan Hlen.
  assert (Hloc : exists n, s = Z.of_nat n /\ e = Z.of_nat (n + length t)
                           /\ occursAt writing t n /\ t <> []).
  { change (errors (parseAnalysisOutput output writing))
      with (parseErrors (errorsSegment output) writing) in *.
    destruct (parseErrors_cases (errorsSegment output) writing)
      as [[_ E]|(out & Hall & E)]; rewrite E in *.
    - rewrite Hd in Ho. injection Ho as <-.
      rewrite (hasSpanField_spanOf _ Hc) in Hspan. discriminate.
    - destruct (locateAll_turn writing _ _ _ i d Hall Hd)
        as (o' & uj & uj' & Ho' & Hturn & _).
      rewrite Ho in Ho'. injection Ho' as <-.
      destruct (locateOne_located _ _ _ _ _ _ _ Hturn Hc Hspan)
        as (props & t' & n & -> & Ht' & Hne & -> & -> & -> & Hf & _).
      rewrite textOf_withSpan, Ht' in Ht. injection Ht as ->.
      apply findStart_some in Hf as [Hfree _].
      apply freeMatchAt_true in Hfree as [Hocc _].
      exists n. repeat split; assumption. }
  destruct Hloc as (n & -> & -> & Hocc & Hne).
  unfold occursAt in Hocc. rewrite Hlen in Hocc.
  assert (Hne' : toLowerCase t <> []).
  { intro E. rewrite E in Hlen. destruct t; [contradiction|discriminate]. }
  assert (Hb : n + length (toLowerCase t) <= length (toLowerCase writing)).
  { apply substring_eq_bound; [|assumption]. now rewrite Hlen. }
  assert (Hw : length (toLowerCase writing) <= length writing).
  { pose proof (Hsub 0 (0 + length writing)) as H0.
    rewrite !substring_at in H0. simpl in H0. rewrite firstn_all in H0.
    apply (f_equal (@length _)) in H0. rewrite length_firstn in H0. lia. }
  rewrite !Nat2Z.id, Hsub, Hocc.
  repeat split; lia.
Qed.

End Spans.

(** ** When the location pass completes *)

Section Completion.
Context {CM : CaseMapping}.




End Completion.

(** ** The criterion extractor on concrete outputs *)

(** C1, at a failing input: when the model output repeats the Content
    header, the result lists five criteria, two of them named Content,
    where the claim promises exactly four, one per category. *)
Theorem repeated_header_gives_five_criteria :
  map name (criteria (parseAnalysisOutput (CM := basicLatin) repeatedHeaderOutput []))
  = [js "Communicative Achievement"; js "Organisation"; js "Language";
     js "Content"; js "Content"].
Proof. vm_compute. reflexivity. Qed.

(** C2, at a failing input: for the output [Content d/5] the last-resort
    scan takes the letter [d] for the score, the Content score is NaN and
    so is the overall score, which is then no integer. *)
Theorem overall_score_nan :
  let r := parseAnalysisOutput (CM := basicLatin) (js "Content d/5") [] in
  length (criteria r) = 4
  /\ PrimFloat.is_nan (overallScore r) = true
  /\ isInteger (overallScore r) = false.
Proof. vm_compute. repeat split. Qed.

(** C8, at a failing input: in [Content 4/5] the category name is
    followed by the token [4/5], yet the last-resort scan does not see
    it and Content gets the default 3; the scan matches [d/5] instead,
    as in [Content d/5], and then yields NaN. *)
Theorem last_resort_misses_digit :
  map (fun c => (name c, score c))
      (criteria (parseAnalysisOutput (CM := basicLatin) (js "Content 4/5") []))
  = [(js "Communicative Achievement", 3%float); (js "Organisation", 3%float);
     (js "Language", 3%float); (js "Content", 3%float)]
  /\ PrimFloat.is_nan
       (score (defaultCriterion (CM := basicLatin) (js "Content d/5") (js "Content")))
     = true.
Proof. vm_compute. split; reflexivity. Qed.

(** On a well-formed output the four criteria come out in the order
    Communicative Achievement, Organisation, Language, Content. *)
Example well_formed_order :
  map name (criteria (parseAnalysisOutput (CM := basicLatin) wellFormedOutput (js "I am gonna go.")))
  = [js "Communicative Achievement"; js "Organisation"; js "Language"; js "Content"].
Proof. vm_compute. reflexivity. Qed.

(** ** The overall score on the examples of the specification *)

Example overall_score_examples :
  map (fun output => overallScore (parseAnalysisOutput (CM := basicLatin) output []))
      [scoredOutput "4" "3" "4" "5"; scoredOutput "3" "3" "4" "3";
       scoredOutput "5" "4" "4" "4"; js ""]
  = [4%float; 3%float; 4%float; 3%float].
Proof. vm_compute. reflexivity. Qed.

(** The end-to-end scenario of the specification: one [register] error
    on [gonna], which occurs once in the submission. *)
Example end_to_end :
  let r := parseAnalysisOutput (CM := basicLatin) wellFormedOutput (js "I am gonna go.") in
  overallScore r = 4%float
  /\ map score (criteria r) = [5%float; 3%float; 4%float; 4%float]
  /\ map (fun o => (textOf o, category o, spanOf o)) (errors r)
     = [(Some (js "gonna"), Some (VStr (js "style")), Some (5, 10)%Z)].
Proof. vm_compute. repeat split. Qed.

(** ** Concrete runs of the locator *)

(** The example of the specification: both records of [seen him] are
    located, at 2 and at 24. *)
Example repeated_phrase_spans :
  map spanOf (errors (parseAnalysisOutput (CM := basicLatin)
                        repeatedPhraseOutput repeatedPhraseWriting))
  = [Some (2, 10)%Z; Some (24, 32)%Z].
Proof. vm_compute. reflexivity. Qed.

(** The range that a record claims can be longer than its span.  The
    lower case of U+0130 has two units, so in the submission [i], U+0307,
    [b], [b] the record of U+0130 [b] carries the span 0 to 2 and claims
    the offsets 0 to 3; the record of [b] is then located at 3, although
    the occurrence of [b] at 2 lies outside every span. *)
Example lengthened_phrase_claims_more :
  map spanOf
      (errors (parseAnalysisOutput (CM := basicLatin)
                 (js "ERRORS:" ++ jsq "[{'text':'" ++ [304%N; 98%N]
                  ++ jsq "'},{'text':'b'}]")
                 [105%N; 775%N; 98%N; 98%N]))
  = [Some (0, 2)%Z; Some (3, 4)%Z]
  /\ occursAt (CM := basicLatin) [105%N; 775%N; 98%N; 98%N] (js "b") 2.
Proof. split; vm_compute; reflexivity. Qed.


Lemma basicLatin_map (s : jsstring) :
  forallb (fun c => negb (c =? 304)%N) s = true ->
  flat_map lowerUnit s = map lowerChar s.
Proof.
  induction s as [|c s IH]; simpl; [reflexivity|].
  intro H. apply andb_true_iff in H as [Hc Hs]. rewrite (IH Hs).
  unfold lowerUnit, lowerChar. destruct (isUpper c); [reflexivity|].
  apply negb_true_iff in Hc. now rewrite Hc.
Qed.

Lemma forallb_firstn (A : Type) (p : A -> bool) (n : nat) (l : list A) :
  forallb p l = true -> forallb p (firstn n l) = true.
Proof.
  revert l. induction n as [|n IH]; intros [|a l]; simpl; auto.
  intro H. apply andb_true_iff in H as [Ha Hl]. rewrite Ha. simpl. auto.
Qed.

Lemma forallb_skipn (A : Type) (p : A -> bool) (n : nat) (l : list A) :
  forallb p l = true -> forallb p (skipn n l) = true.
Proof.
  revert l. induction n as [|n IH]; intros [|a l]; simpl; auto.
  intro H. apply andb_true_iff in H as [Ha Hl]. auto.
Qed.

Lemma basicLatin_substring (writing : jsstring) :
  forallb (fun c => negb (c =? 304)%N) writing = true ->
  forall a b,
    toLowerCase (CaseMapping := basicLatin) (substring writing a b)
    = substring (toLowerCase (CaseMapping := basicLatin) writing) a b.
Proof.
  intros H a b. simpl. unfold substring.
  rewrite (basicLatin_map writing H).
  rewrite basicLatin_map by now apply forallb_firstn, forallb_skipn.
  now rewrite skipn_map, firstn_map.
Qed.



(** C10 as stated fails.  The lower case of U+0130 has two units, so
    in the submission U+0130, [a] the text [a], whose own lower case has
    its length, is found at offset 2 of the lower-cased submission and
    gets the span 2 to 3, past the end of the submission.  And a record
    that is not located keeps the [start] and [end] that the model
    output wrote into it, whatever they are. *)
Lemma span_past_the_submission :
  (length (toLowerCase (CaseMapping := basicLatin) (js "a")) = length (js "a")
   /\ map (fun o => (textOf o, spanOf o))
          (errors (parseAnalysisOutput (CM := basicLatin)
                     (js "ERRORS:" ++ jsq "[{'text':'a'}]") [304%N; 97%N]))
      = [(Some (js "a"), Some (2, 3)%Z)]
   /\ (Z.of_nat (length [304%N; 97%N]) < 3)%Z)
  /\ (map (fun o => (textOf o, spanOf o))
          (errors (parseAnalysisOutput (CM := basicLatin)
                     (js "ERRORS:" ++ jsq "[{'text':'zz','start':5,'end':9}]") (js "abc")))
      = [(Some (js "zz"), Some (5, 9)%Z)]
      /\ (5 + Z.of_nat (length (js "zz")) <> 9)%Z).
Proof.
  split.
  - split; [vm_compute; reflexivity|]. split; [vm_compute; reflexivity|].
    simpl. lia.
  - split; [vm_compute; reflexivity|]. simpl. lia.
Qed.

(** ** The theorems at concrete inputs *)




Lemma score_range_witness :
  (exists tenths, (0 <= tenths <= 99)%Z /\ 9%float = decimalScore tenths)
  /\ (0 <=? 9)%float = true /\ (9 <=? 9.9)%float = true.
Proof.
  apply (score_range (CM := basicLatin) (js "Content (9/5): x") []
           {| name := js "Content"; score := 9%float; feedback := js "x" |}).
  - vm_compute. tauto.
  - vm_compute. reflexivity.
Defined.

Lemma located_span_is_occurrence_witness :
  (0 <= 5)%Z
  /\ 10%Z = (5 + Z.of_nat (length (js "gonna")))%Z
  /\ (10 <= Z.of_nat (length (js "I am gonna go.")))%Z
  /\ toLowerCase (CaseMapping := basicLatin)
       (substring (js "I am gonna go.") (Z.to_nat 5) (Z.to_nat 10))
     = toLowerCase (CaseMapping := basicLatin) (js "gonna").
Proof.
  apply (located_span_is_occurrence (CM := basicLatin) wellFormedOutput
           (js "I am gonna go.") 0
           (VObj [(js "text", VStr (js "gonna"));
                  (js "correction", VStr (js "going to"));
                  (js "type", VStr (js "style"));
                  (js "explanation", VStr (js "too informal"))])
           (withSpan
              (VObj [(js "text", VStr (js "gonna"));
                     (js "correction", VStr (js "going to"));
                     (js "type", VStr (js "style"));
                     (js "explanation", VStr (js "too informal"))]) 5 10)).
  - apply basicLatin_substring. vm_compute. reflexivity.
  - vm_compute. reflexivity.
  - reflexivity.
  - vm_compute. reflexivity.
  - vm_compute. reflexivity.
  - vm_compute. reflexivity.
  - vm_compute. reflexivity.
Defined.

(** * Properties of the code around the parser *)

(** ** The rate limiter *)

Lemma Map_get_set_same (ip : jsstring) (e : Entry) (m : list (jsstring * Entry)) :
  Map_get ip (Map_set ip e m) = Some e.
Proof.
  induction m as [|[k e'] m IH]; simpl.
  - now rewrite str_eqb_refl.
  - destruct (str_eqb ip k) eqn:E; simpl; now rewrite E.
Qed.

Lemma Map_get_set_other (ip ip' : jsstring) (e : Entry) (m : list (jsstring * Entry)) :
  ip' <> ip -> Map_get ip' (Map_set ip e m) = Map_get ip' m.
Proof.
  intro Hne. induction m as [|[k e'] m IH]; simpl.
  - destruct (str_eqb ip' ip) eqn:E; [|reflexivity].
    apply str_eqb_eq in E. contradiction.
  - destruct (str_eqb ip k) eqn:E; simpl.
    + apply str_eqb_eq in E. subst k.
      destruct (str_eqb ip' ip) eqn:E'; [|reflexivity].
      apply str_eqb_eq in E'. contradiction.
    + now rewrite IH.
Qed.


(** A request leaves the entries of the other clients as they are. *)
Lemma isRateLimited_other (ip ip' : jsstring) (now : Z)
      (rateLimitMap : list (jsstring * Entry)) :
  ip' <> ip ->
  Map_get ip' (snd (isRateLimited ip now rateLimitMap)) = Map_get ip' rateLimitMap.
Proof.
  intro Hne. unfold isRateLimited.
  destruct (WINDOW_MS <? _)%Z; [now apply Map_get_set_other|].
  destruct (RATE_LIMIT <=? _)%Z; [reflexivity|now apply Map_get_set_other].
Qed.

(** X1: the request of one client changes neither what the map holds
    for another client nor the answer that client gets next. *)
Theorem other_clients_untouched (ip ip' : jsstring) (now now' : Z)
        (rateLimitMap : list (jsstring * Entry)) :
  ip' <> ip ->
  Map_get ip' (snd (isRateLimited ip now rateLimitMap)) = Map_get ip' rateLimitMap
  /\ fst (isRateLimited ip' now' (snd (isRateLimited ip now rateLimitMap)))
     = fst (isRateLimited ip' now' rateLimitMap).
Proof.
  intro Hne.
  pose proof (isRateLimited_other ip ip' now rateLimitMap Hne) as H.
  split; [exact H|].
  unfold isRateLimited at 1 3. rewrite H.
  destruct (WINDOW_MS <? _)%Z; [reflexivity|].
  now destruct (RATE_LIMIT <=? _)%Z.
Qed.

(** X2: a refused request leaves the map as it was, so refusals never
    prolong a block: the client has used its five requests, its last
    request let through is at most a window old, and from then on it is
    refused exactly until more than a window has passed since that
    request. *)
Theorem refused_until_window_passed (ip : jsstring) (now : Z)
        (rateLimitMap : list (jsstring * Entry)) :
  fst (isRateLimited ip now rateLimitMap) = true ->
  snd (isRateLimited ip now rateLimitMap) = rateLimitMap
  /\ exists e,
       Map_get ip rateLimitMap = Some e
       /\ (RATE_LIMIT <= count e)%Z
       /\ (now - lastRequest e <= WINDOW_MS)%Z
       /\ forall now',
            fst (isRateLimited ip now' rateLimitMap)
            = (now' - lastRequest e <=? WINDOW_MS)%Z.
Proof.
  unfold isRateLimited.
  destruct (Map_get ip rateLimitMap) as [e|] eqn:Hget.
  - destruct (WINDOW_MS <? now - lastRequest e)%Z eqn:Hw; [discriminate|].
    destruct (RATE_LIMIT <=? count e)%Z eqn:Hc; [|discriminate].
    intros _. split; [reflexivity|]. exists e.
    split; [reflexivity|]. split; [lia|]. split; [lia|].
    intro now'. destruct (WINDOW_MS <? now' - lastRequest e)%Z eqn:Hw'; simpl; lia.
  - cbn [lastRequest count].
    destruct (WINDOW_MS <? now - now)%Z; [discriminate|].
    unfold RATE_LIMIT. simpl. discriminate.
Qed.

Lemma accepted_other (ip client : jsstring) (now : Z) (requests : list (jsstring * Z))
      (m : list (jsstring * Entry)) :
  client <> ip ->
  accepted ip ((client, now) :: requests) m
  = accepted ip requests (snd (isRateLimited client now m)).
Proof.
  intro Hne. cbn [accepted].
  destruct (isRateLimited client now m) as [limited m'].
  apply str_eqb_neq in Hne. now rewrite Hne.
Qed.

Lemma accepted_counted (ip : jsstring) (requests : list (jsstring * Z)) :
  forall m,
    match Map_get ip m with
    | Some e => counted (count e) (lastRequest e) (accepted ip requests m)
    | None =>
        match accepted ip requests m with
        | [] => True
        | t :: times => counted 1 t times
        end
    end.
Proof.
  induction requests as [|[client now] requests IH]; intro m.
  - simpl. now destruct (Map_get ip m).
  - destruct (str_eqb client ip) eqn:Hip.
    + apply str_eqb_eq in Hip. subst client.
      cbn [accepted]. unfold isRateLimited. rewrite str_eqb_refl.
      destruct (Map_get ip m) as [e|] eqn:Hget.
      * destruct (WINDOW_MS <? now - lastRequest e)%Z eqn:Hw.
        { cbn [andb negb counted]. left. split; [lia|].
          specialize (IH (Map_set ip (MkEntry 1 now) m)).
          now rewrite Map_get_set_same in IH. }
        destruct (RATE_LIMIT <=? count e)%Z eqn:Hc.
        { cbn [andb negb]. specialize (IH m). now rewrite Hget in IH. }
        cbn [andb negb counted]. right. split; [lia|]. split; [lia|].
        specialize (IH (Map_set ip (MkEntry (count e + 1) now) m)).
        now rewrite Map_get_set_same in IH.
      * cbn [lastRequest count].
        replace (WINDOW_MS <? now - now)%Z with false by (unfold WINDOW_MS; lia).
        replace (RATE_LIMIT <=? 0)%Z with false by (unfold RATE_LIMIT; lia).
        cbn [andb negb].
        specialize (IH (Map_set ip (MkEntry (0 + 1) now) m)).
        now rewrite Map_get_set_same in IH.
    + apply str_eqb_neq in Hip. rewrite (accepted_other _ _ _ _ _ Hip).
      rewrite <- (isRateLimited_other client ip now m) by congruence.
      apply IH.
Qed.

Lemma counted_suffix (times : list Z) :
  forall c last i x,
    (1 <= c)%Z -> counted c last times -> nth_error times i = Some x ->
    exists c', (1 <= c')%Z /\ counted c' x (skipn (S i) times).
Proof.
  induction times as [|t times IH]; intros c last i x Hc H Hx.
  - destruct i; discriminate.
  - destruct i as [|i].
    + injection Hx as <-. cbn [skipn].
      destruct H as [[_ H]|(_ & _ & H)]; [exists 1%Z|exists (c + 1)%Z];
        (split; [lia|exact H]).
    + cbn [nth_error] in Hx. cbn [skipn].
      destruct H as [[_ H]|(_ & _ & H)];
        [apply (IH 1%Z t i x)|apply (IH (c + 1)%Z t i x)]; try assumption; lia.
Qed.

(** Six requests in a row cannot all be counted in one window. *)
Lemma counted_five (c x : Z) (t1 t2 t3 t4 t5 : Z) (rest : list Z) :
  (1 <= c)%Z -> counted c x (t1 :: t2 :: t3 :: t4 :: t5 :: rest) ->
  (WINDOW_MS < t1 - x \/ WINDOW_MS < t2 - t1 \/ WINDOW_MS < t3 - t2
   \/ WINDOW_MS < t4 - t3 \/ WINDOW_MS < t5 - t4)%Z.
Proof.
  intros Hc H. cbn [counted] in H.
  destruct H as [[H _]|(_ & H1 & H)]; [tauto|].
  destruct H as [[H _]|(_ & H2 & H)]; [tauto|].
  destruct H as [[H _]|(_ & H3 & H)]; [tauto|].
  destruct H as [[H _]|(_ & H4 & H)]; [tauto|].
  destruct H as [[H _]|(_ & H5 & H)]; [tauto|].
  unfold RATE_LIMIT in *. lia.
Qed.

Lemma accepted_In (ip : jsstring) (requests : list (jsstring * Z)) :
  forall m t, In t (accepted ip requests m) -> In t (map snd requests).
Proof.
  induction requests as [|[client now] requests IH]; intros m t; simpl; [tauto|].
  destruct (isRateLimited client now m) as [limited m'].
  destruct (str_eqb client ip && negb limited).
  - intros [<-|H]; [now left|right; eauto].
  - intro H. right. eauto.
Qed.

Lemma accepted_sorted (ip : jsstring) (requests : list (jsstring * Z)) :
  forall m,
    StronglySorted Z.le (map snd requests) ->
    StronglySorted Z.le (accepted ip requests m).
Proof.
  induction requests as [|[client now] requests IH]; intros m Hs; simpl.
  - constructor.
  - simpl in Hs. inversion Hs as [|? ? Hs' Hall]; subst.
    destruct (isRateLimited client now m) as [limited m'].
    destruct (str_eqb client ip && negb limited); [|now apply IH].
    constructor; [now apply IH|].
    apply Forall_forall. intros t Ht. apply accepted_In in Ht.
    rewrite Forall_forall in Hall. now apply Hall.
Qed.

Lemma sorted_skipn (times : list Z) :
  forall i x,
    StronglySorted Z.le times -> nth_error times i = Some x ->
    Forall (Z.le x) (skipn (S i) times) /\ StronglySorted Z.le (skipn (S i) times).
Proof.
  induction times as [|t times IH]; intros i x Hs Hx.
  - destruct i; discriminate.
  - inversion Hs as [|? ? Hs' Hall]; subst. destruct i as [|i].
    + injection Hx as <-. now split.
    + cbn [nth_error] in Hx. cbn [skipn]. now apply IH.
Qed.

Lemma sorted_last_of_five (x t1 t2 t3 t4 t5 : Z) (rest : list Z) :
  Forall (Z.le x) (t1 :: t2 :: t3 :: t4 :: t5 :: rest) ->
  StronglySorted Z.le (t1 :: t2 :: t3 :: t4 :: t5 :: rest) ->
  (x <= t1 /\ t1 <= t2 /\ t2 <= t3 /\ t3 <= t4 /\ t4 <= t5)%Z.
Proof.
  intros Hle Hs.
  inversion Hle as [|? ? L1 _]; subst.
  inversion Hs as [|? ? S1 A1]; subst. inversion A1 as [|? ? B12 _]; subst.
  inversion S1 as [|? ? S2 A2]; subst. inversion A2 as [|? ? B23 _]; subst.
  inversion S2 as [|? ? S3 A3]; subst. inversion A3 as [|? ? B34 _]; subst.
  inversion S3 as [|? ? S4 A4]; subst. inversion A4 as [|? ? B45 _]; subst.
  lia.
Qed.

(** X3: while the clock of the server does not run backwards, any six
    requests of one client that are let through span more than a
    window: at most five requests of a client pass within a minute. *)
Theorem six_accepted_span_a_window (ip : jsstring) (requests : list (jsstring * Z))
        (i : nat) (first sixth : Z) :
  StronglySorted Z.le (map snd requests) ->
  nth_error (accepted ip requests []) i = Some first ->
  nth_error (accepted ip requests []) (i + 5) = Some sixth ->
  (WINDOW_MS < sixth - first)%Z.
Proof.
  intros Hs Hfirst Hsixth.
  pose proof (accepted_sorted ip requests [] Hs) as Hsorted.
  pose proof (accepted_counted ip requests []) as Hc. cbn [Map_get] in Hc.
  remember (accepted ip requests []) as times eqn:Htimes. clear Htimes Hs.
  assert (Hrest : exists c, (1 <= c)%Z /\ counted c first (skipn (S i) times)).
  { destruct times as [|t times]; [destruct i; discriminate|].
    destruct i as [|i].
    - injection Hfirst as <-. exists 1%Z. now split.
    - cbn [nth_error] in Hfirst. cbn [skipn].
      apply (counted_suffix times 1 t i first); [lia|assumption..]. }
  destruct Hrest as (c & Hc1 & Hcounted).
  destruct (sorted_skipn times i first Hsorted Hfirst) as [Hle Hsorted'].
  assert (Hnth : nth_error (skipn (S i) times) 4 = Some sixth).
  { rewrite nth_error_skipn. now replace (S i + 4) with (i + 5) by lia. }
  destruct (skipn (S i) times) as [|t1 [|t2 [|t3 [|t4 [|t5 rest]]]]]; try discriminate.
  injection Hnth as ->.
  pose proof (counted_five c first t1 t2 t3 t4 sixth rest Hc1 Hcounted) as Hgap.
  pose proof (sorted_last_of_five first t1 t2 t3 t4 sixth rest Hle Hsorted') as Hord.
  lia.
Qed.

(** ** Splitting and counting words *)

Lemma splitFrom_count (p : char -> bool) (s : jsstring) :
  forall inRun,
    exists piece pieces,
      splitFrom p inRun s = piece :: pieces.
Proof.
  induction s as [|c s IH]; intro inRun; simpl; [eauto|].
  destruct (p c).
  - destruct inRun; [apply IH|eauto].
  - destruct (IH false) as (piece & pieces & ->). eauto.
Qed.

Lemma splitFrom_words (s : jsstring) :
  forall inRun piece pieces,
    splitFrom isSpace inRun s = piece :: pieces ->
    length (filter nonEmpty (piece :: pieces)) = wordStarts true s
    /\ (inRun = false -> length (filter nonEmpty pieces) = wordStarts false s).
Proof.
  induction s as [|c s IH]; intros inRun piece pieces; simpl.
  - intros [= <- <-]. now split.
  - destruct (isSpace c).
    + destruct inRun.
      * intro H. destruct (IH _ _ _ H) as [H1 _]. split; [exact H1|discriminate].
      * intros [= <- <-].
        destruct (splitFrom_count isSpace s true) as (q & qs & E). rewrite E.
        destruct (IH _ _ _ E) as [H1 _]. now split.
    + destruct (splitFrom_count isSpace s false) as (q & qs & E). rewrite E.
      intros [= <- <-]. destruct (IH _ _ _ E) as [_ H2]. simpl.
      rewrite (H2 eq_refl). now split.
Qed.

Lemma wordStarts_dropWhile (s : jsstring) :
  wordStarts true (dropWhile isSpace s) = wordStarts true s.
Proof.
  induction s as [|c s IH]; [reflexivity|]. cbn [dropWhile].
  destruct (isSpace c) eqn:E; [|reflexivity]. cbn [wordStarts]. now rewrite E.
Qed.

Lemma wordStarts_app (a : jsstring) (c : char) (b : jsstring) :
  isSpace c = true ->
  forall afterSpace,
    wordStarts afterSpace (a ++ c :: b) = wordStarts afterSpace a + wordStarts true b.
Proof.
  intro Hc. induction a as [|x a IH]; intro afterSpace; simpl.
  - now rewrite Hc.
  - destruct (isSpace x); [apply IH|]. rewrite IH. lia.
Qed.

Lemma wordStarts_trailing (r : jsstring) (afterSpace : bool) :
  wordStarts afterSpace (rev (dropWhile isSpace r)) = wordStarts afterSpace (rev r).
Proof.
  induction r as [|c r IH]; [reflexivity|]. cbn [dropWhile].
  destruct (isSpace c) eqn:E; [|reflexivity].
  rewrite IH. cbn [rev]. rewrite (wordStarts_app (rev r) c [] E). simpl. lia.
Qed.

Lemma wordStarts_trim (s : jsstring) : wordStarts true (trim s) = wordStarts true s.
Proof.
  unfold trim. rewrite wordStarts_trailing, rev_involutive.
  apply wordStarts_dropWhile.
Qed.

Lemma countWords_wordStarts (text : jsstring) : countWords text = wordStarts true text.
Proof.
  unfold countWords, splitRuns.
  destruct (splitFrom_count isSpace (trim text) false) as (piece & pieces & E).
  rewrite E. destruct (splitFrom_words _ _ _ _ E) as [-> _].
  apply wordStarts_trim.
Qed.

Lemma wordStarts_bound (s : jsstring) :
  2 * wordStarts false s <= length s /\ 2 * wordStarts true s <= length s + 1.
Proof.
  induction s as [|c s [IH1 IH2]]; simpl; [lia|].
  destruct (isSpace c); lia.
Qed.

Lemma wordStarts_zero (s : jsstring) :
  wordStarts true s = 0 <-> forallb isSpace s = true.
Proof.
  induction s as [|c s IH]; simpl; [tauto|].
  destruct (isSpace c); simpl; [assumption|]. split; [lia|discriminate].
Qed.

Lemma dropWhile_all (p : char -> bool) (s : jsstring) :
  forallb p s = true -> dropWhile p s = [].
Proof.
  induction s as [|c s IH]; [reflexivity|]. simpl. intro H.
  apply andb_true_iff in H as [Hc Hs]. rewrite Hc. now apply IH.
Qed.

Lemma trim_blank (s : jsstring) : trim s = [] <-> forallb isSpace s = true.
Proof.
  split.
  - intro H. apply wordStarts_zero. rewrite <- wordStarts_trim, H. reflexivity.
  - intro H. unfold trim. now rewrite (dropWhile_all _ _ H).
Qed.

(** X4: [countWords] counts the words of the text, the maximal runs of
    units that are not white space.  The page shows the same number
    under the text area as the handler counts, it warns exactly for the
    texts of 1 to 149 words, and it sends exactly the texts that have a
    word. *)
Theorem countWords_counts_words (text : jsstring) :
  countWords text = wordStarts true text
  /\ wordCountShown text = countWords text
  /\ (warningShown text = true <-> 0 < countWords text < 150)
  /\ (handleAnalyzeSends text = true <-> 0 < countWords text).
Proof.
  assert (Hshown : wordCountShown text = countWords text).
  { unfold wordCountShown, countWords. f_equal. apply filter_ext.
    intro w. unfold nonEmpty. simpl. now destruct w. }
  split; [apply countWords_wordStarts|]. split; [exact Hshown|]. split.
  - unfold warningShown. rewrite Hshown, andb_true_iff, !Nat.ltb_lt. reflexivity.
  - unfold handleAnalyzeSends. rewrite countWords_wordStarts.
    pose proof (trim_blank text) as Hb. pose proof (wordStarts_zero text) as Hz.
    cbn [truthy]. destruct (trim text) as [|c t] eqn:E; simpl.
    + split; [discriminate|]. intro H. apply proj1 in Hb. specialize (Hb eq_refl).
      apply Hz in Hb. lia.
    + split; [|reflexivity]. intros _.
      destruct (Nat.eq_dec (wordStarts true text) 0) as [E0|]; [|lia].
      apply Hz, Hb in E0. discriminate.
Qed.

(** X5: the count of two texts joined by a unit of white space is the
    sum of their counts, a text counts no word exactly when it is blank,
    and a text of [n] words has at least [2 n - 1] units. *)
Theorem countWords_additive (a b : jsstring) (c : char) :
  isSpace c = true ->
  countWords (a ++ c :: b) = countWords a + countWords b
  /\ (countWords a = 0 <-> forallb isSpace a = true)
  /\ 2 * countWords a <= length a + 1.
Proof.
  intro Hc. rewrite !countWords_wordStarts.
  split; [now apply wordStarts_app|].
  split; [apply wordStarts_zero|apply wordStarts_bound].
Qed.

(** *** Sentences *)

Lemma splitFrom_pieces (p : char -> bool) (s : jsstring) :
  forall inRun,
    Forall (fun piece => forallb (fun c => negb (p c)) piece = true)
           (splitFrom p inRun s).
Proof.
  induction s as [|c s IH]; intro inRun; simpl.
  - repeat constructor.
  - destruct (p c) eqn:E.
    + destruct inRun; [apply IH|]. constructor; [reflexivity|apply IH].
    + specialize (IH false). destruct (splitFrom p false s) as [|piece pieces].
      * repeat constructor. simpl. now rewrite E.
      * inversion IH; subst. constructor; [|assumption]. simpl. now rewrite E.
Qed.

Lemma forallb_dropWhile (q p : char -> bool) (s : jsstring) :
  forallb q s = true -> forallb q (dropWhile p s) = true.
Proof.
  induction s as [|c s IH]; [reflexivity|]. cbn [dropWhile forallb].
  intro H. apply andb_true_iff in H as [Hc Hs].
  destruct (p c); [now apply IH|]. simpl. now rewrite Hc, Hs.
Qed.

Lemma forallb_rev (q : char -> bool) (s : jsstring) :
  forallb q (rev s) = forallb q s.
Proof.
  induction s as [|c s IH]; [reflexivity|]. simpl.
  rewrite forallb_app, IH. simpl. rewrite andb_true_r. apply andb_comm.
Qed.

Lemma forallb_trim (q : char -> bool) (s : jsstring) :
  forallb q s = true -> forallb q (trim s) = true.
Proof.
  intro H. unfold trim. rewrite forallb_rev. apply forallb_dropWhile.
  rewrite forallb_rev. now apply forallb_dropWhile.
Qed.

Lemma dropWhile_head (p : char -> bool) (s : jsstring) :
  match dropWhile p s with
  | c :: _ => p c = false
  | [] => True
  end.
Proof.
  induction s as [|c s IH]; [exact I|]. cbn [dropWhile].
  destruct (p c) eqn:E; [exact IH|exact E].
Qed.

(** A trimmed string neither starts nor ends with white space. *)
Lemma trim_ends (s : jsstring) :
  match trim s with
  | c :: _ => isSpace c = false
  | [] => True
  end
  /\ match rev (trim s) with
     | c :: _ => isSpace c = false
     | [] => True
     end.
Proof.
  unfold trim. rewrite rev_involutive. split; [|apply dropWhile_head].
  pose proof (dropWhile_head isSpace s) as Hhead.
  remember (dropWhile isSpace s) as x eqn:Hx. clear Hx.
  destruct x as [|c x]; [exact I|].
  (* the head of x survives the removal of the white space at its end *)
  assert (H : forall r : jsstring,
             match rev r with
             | c :: _ => isSpace c = false
             | [] => True
             end ->
             match rev (dropWhile isSpace r) with
             | c :: _ => isSpace c = false
             | [] => True
             end).
  { induction r as [|d r IH]; [trivial|]. cbn [dropWhile].
    destruct (isSpace d) eqn:E; [|trivial].
    intro Hr. apply IH. cbn [rev] in Hr.
    destruct (rev r) as [|e r']; [simpl in Hr; congruence|exact Hr]. }
  apply H. now rewrite rev_involutive.
Qed.

Lemma splitFrom_whole (p : char -> bool) (s : jsstring) :
  forallb (fun c => negb (p c)) s = true -> splitFrom p false s = [s].
Proof.
  induction s as [|c s IH]; [reflexivity|]. simpl. intro H.
  apply andb_true_iff in H as [Hc Hs]. apply negb_true_iff in Hc.
  now rewrite Hc, (IH Hs).
Qed.

(** X6: every sentence that [isMostlyEnglish] hands to the language
    detector is non-empty, neither starts nor ends with white space, and
    holds none of [.], [!], [?], the backslash and the letter [n]: the
    text is cut at every [n].  It is not cut at line feeds: a text
    without these five units is one sentence, however many lines it
    has. *)
Theorem sentences_hold_no_n (text : jsstring) :
  (forall sentence,
      In sentence (sentences text) ->
      sentence <> []
      /\ forallb (fun c => negb (isSentenceBreak c)) sentence = true
      /\ ~ In 110%N sentence
      /\ match sentence with c :: _ => isSpace c = false | [] => True end
      /\ match rev sentence with c :: _ => isSpace c = false | [] => True end)
  /\ (forallb (fun c => negb (isSentenceBreak c)) text = true ->
      sentences text = filter nonEmpty [trim text]).
Proof.
  split.
  - unfold sentences. intros sentence H. apply filter_In in H as [H Hne].
    apply in_map_iff in H as (piece & <- & Hpiece).
    pose proof (splitFrom_pieces isSentenceBreak text false) as Hall.
    rewrite Forall_forall in Hall. specialize (Hall piece Hpiece).
    apply (forallb_trim _ piece) in Hall.
    split; [intro E; rewrite E in Hne; discriminate|].
    split; [assumption|]. split; [|apply trim_ends].
    intro Hin. rewrite forallb_forall in Hall. specialize (Hall _ Hin). discriminate.
  - intro H. unfold sentences, splitRuns. now rewrite (splitFrom_whole _ _ H).
Qed.

(** ** The matcher finds every match of a simple pattern *)

Lemma iterate_S (body : cont -> mstate -> option mstate) (g : bool) (k : cont)
      (n : nat) (st : mstate) :
  iterate body g k (S n) st
  = if g then
      match body (fun st' => if pos st' =? pos st then None
                             else iterate body g k n st') st with
      | Some st' => Some st'
      | None => k st
      end
    else
      match k st with
      | Some st' => Some st'
      | None => body (fun st' => if pos st' =? pos st then None
                                 else iterate body g k n st') st
      end.
Proof. reflexivity. Qed.

Lemma run_complete (r : regex) (st st' : mstate) :
  Matches r st st' -> simple r = true ->
  forall k, k st' <> None -> run r k st <> None.
Proof.
  induction 1 as [st|p c s i cs Hp|r1 r2 st1 st2 st3 H1 IH1 H2 IH2
                  |r1 r2 st st' H1 IH1|r1 r2 st st' H2 IH2
                  |g r st|g r st1 st2 st3 H1 IH1 H2 IH2
                  |i r st st' H1 IH1|r st st' H1 IH1|i cs];
    intros Hs k Hk; cbn [run].
  - assumption.
  - simpl. now rewrite Hp.
  - cbn [simple] in Hs. apply andb_true_iff in Hs as [Hs1 Hs2].
    apply IH1; [assumption|]. now apply IH2.
  - cbn [simple] in Hs. apply andb_true_iff in Hs as [Hs1 Hs2].
    specialize (IH1 Hs1 k Hk). now destruct (run r1 k st).
  - cbn [simple] in Hs. apply andb_true_iff in Hs as [Hs1 Hs2].
    destruct (run r1 k st); [discriminate|]. now apply IH2.
  - destruct g; cbn [iterate]; cbv zeta.
    + destruct (run r _ st); [discriminate|assumption].
    + destruct (k st); [discriminate|contradiction].
  - destruct r as [|p| | | | | |]; try discriminate.
    inversion H1 as [|p' c s i cs Hp| | | | | | | |]; subst.
    specialize (IH2 Hs k Hk). cbn [run rest] in IH2.
    cbn [rest length]. rewrite iterate_S. cbn [run rest pos caps]. rewrite Hp.
    replace (S i =? i) with false by (symmetry; apply Nat.eqb_neq; lia).
    destruct g.
    + destruct (iterate _ true k (S (length s)) _); [discriminate|contradiction].
    + destruct (k (MState (c :: s) i cs)); [discriminate|assumption].
  - cbn [simple] in Hs. now apply IH1.
  - discriminate.
  - assumption.
Qed.

Lemma matchAt_complete (r : regex) (s : jsstring) (i : nat) (st' : mstate) :
  Matches r (MState s i []) st' -> simple r = true -> matchAt r s i <> None.
Proof.
  intros H Hs. unfold matchAt.
  pose proof (run_complete r _ _ H Hs Some) as Hr.
  destruct (run r Some (MState s i [])); [discriminate|].
  exfalso. apply Hr; [discriminate|reflexivity].
Qed.

Lemma search_complete (r : regex) (a s : jsstring) :
  forall i, matchAt r s (i + length a) <> None -> search r (a ++ s) i <> None.
Proof.
  induction a as [|c a IH]; intros i H.
  - rewrite Nat.add_0_r in H. destruct s; simpl; now destruct (matchAt r _ i).
  - simpl. destruct (matchAt r (c :: a ++ s) i); [discriminate|].
    apply IH. now replace (S i + length a) with (i + length (c :: a)) by (simpl; lia).
Qed.

Lemma search_suffix (r : regex) (s : jsstring) :
  forall i m,
    search r s i = Some m ->
    exists a s', s = a ++ s' /\ matchAt r s' (i + length a) = Some m.
Proof.
  induction s as [|c s IH]; intros i m; simpl.
  - destruct (matchAt r [] i) eqn:E; [|discriminate]. intros [= <-].
    exists [], []. now rewrite Nat.add_0_r.
  - destruct (matchAt r (c :: s) i) eqn:E.
    + intros [= <-]. exists [], (c :: s). now rewrite Nat.add_0_r.
    + intro H. apply IH in H as (a & s' & -> & H).
      exists (c :: a), s'. split; [reflexivity|].
      now replace (i + length (c :: a)) with (S i + length a) by (simpl; lia).
Qed.

(** *** What a literal and a run of a class read *)

Lemma Matches_lit (w : jsstring) :
  forall st st', Matches (lit w) st st' -> rest st = w ++ rest st'.
Proof.
  induction w as [|c w IH]; intros st st' H; simpl in H.
  - now inversion H.
  - apply Matches_cat_inv in H as (st1 & H1 & H2).
    apply Matches_unit_inv in H1 as (c' & Hc & Hr & _).
    apply N.eqb_eq in Hc. subst c'. rewrite Hr, (IH _ _ H2). reflexivity.
Qed.

Lemma lit_Matches (w : jsstring) :
  forall s i cs, Matches (lit w) (MState (w ++ s) i cs) (MState s (i + length w) cs).
Proof.
  induction w as [|c w IH]; intros s i cs; simpl.
  - rewrite Nat.add_0_r. constructor.
  - econstructor; [constructor; apply N.eqb_refl|].
    replace (i + S (length w)) with (S i + length w) by lia. apply IH.
Qed.

Lemma Matches_star_unit (g : bool) (p : char -> bool) (st st' : mstate) :
  Matches (Star g (Unit p)) st st' ->
  exists m, forallb p m = true /\ rest st = m ++ rest st'.
Proof.
  remember (Star g (Unit p)) as r eqn:Hr. intro H.
  induction H as [| | | | |g' r st|g' r st1 st2 st3 H1 _ H2 IH2| | |];
    try discriminate.
  - exists []. now split.
  - injection Hr as -> ->. destruct (IH2 eq_refl) as (m & Hm & Hrest).
    apply Matches_unit_inv in H1 as (c & Hc & Hr1 & _).
    exists (c :: m). split; [simpl; now rewrite Hc, Hm|].
    rewrite Hr1, Hrest. reflexivity.
Qed.

Lemma star_unit_Matches (g : bool) (p : char -> bool) (m : jsstring) :
  forallb p m = true ->
  forall s i cs,
    Matches (Star g (Unit p)) (MState (m ++ s) i cs) (MState s (i + length m) cs).
Proof.
  induction m as [|c m IH]; intros Hm s i cs; simpl.
  - rewrite Nat.add_0_r. constructor.
  - simpl in Hm. apply andb_true_iff in Hm as [Hc Hm].
    econstructor; [constructor; exact Hc|].
    replace (i + S (length m)) with (S i + length m) by lia. now apply IH.
Qed.

Lemma Matches_plus_unit (p : char -> bool) (st st' : mstate) :
  Matches (Plus (Unit p)) st st' ->
  exists m, m <> [] /\ forallb p m = true /\ rest st = m ++ rest st'.
Proof.
  unfold Plus. intro H. apply Matches_cat_inv in H as (st1 & H1 & H2).
  apply Matches_unit_inv in H1 as (c & Hc & Hr & _).
  apply Matches_star_unit in H2 as (m & Hm & Hrest).
  exists (c :: m). split; [discriminate|]. split; [simpl; now rewrite Hc, Hm|].
  rewrite Hr, Hrest. reflexivity.
Qed.

Lemma plus_unit_Matches (p : char -> bool) (m : jsstring) :
  m <> [] -> forallb p m = true ->
  forall s i cs,
    Matches (Plus (Unit p)) (MState (m ++ s) i cs) (MState s (i + length m) cs).
Proof.
  intros Hne Hm s i cs. destruct m as [|c m]; [contradiction|].
  simpl in Hm. apply andb_true_iff in Hm as [Hc Hm].
  unfold Plus. simpl. econstructor; [constructor; exact Hc|].
  replace (i + S (length m)) with (S i + length m) by lia.
  now apply star_unit_Matches.
Qed.

Lemma Matches_one (a : ascii) (st st' : mstate) :
  Matches (one a) st st' -> rest st = chr a :: rest st'.
Proof.
  intro H. apply Matches_unit_inv in H as (c & Hc & Hr & _).
  apply N.eqb_eq in Hc. now subst c.
Qed.

(** *** The test for markup and code *)

Lemma htmlOrCode_reads (st st' : mstate) :
  Matches htmlOrCode st st' -> exists w, codeForm w /\ rest st = w ++ rest st'.
Proof.
  unfold htmlOrCode. intro H.
  inversion H as [| | |r1 r2 sa sb H1|r1 r2 sa sb H2| | | | |]; subst; clear H.
  { apply Matches_cat_inv in H1 as (s1 & Ha & H).
    apply Matches_cat_inv in H as (s2 & Hb & Hc).
    apply Matches_one in Ha, Hc.
    apply Matches_plus_unit in Hb as (m & Hne & Hm & Hb).
    exists (js "<" ++ m ++ js ">"). split; [left; now exists m|].
    rewrite Ha, Hb, Hc. simpl. now rewrite <- app_assoc. }
  inversion H2 as [| | |r1 r2 sa sb H1|r1 r2 sa sb H3| | | | |]; subst; clear H2.
  { apply Matches_cat_inv in H1 as (s1 & Ha & H).
    apply Matches_cat_inv in H as (s2 & Hb & Hc).
    apply Matches_one in Ha, Hc.
    apply Matches_plus_unit in Hb as (m & Hne & Hm & Hb).
    exists (js "{" ++ m ++ js "}"). split; [right; left; now exists m|].
    rewrite Ha, Hb, Hc. simpl. now rewrite <- app_assoc. }
  inversion H3 as [| | |r1 r2 sa sb H1|r1 r2 sa sb H4| | | | |]; subst; clear H3.
  { apply (Matches_lit (js "console.log")) in H1. exists (js "console.log").
    split; [right; right; now left|assumption]. }
  apply Matches_cat_inv in H4 as (s1 & Ha & H).
  apply Matches_cat_inv in H as (s2 & Hb & Hc).
  apply (Matches_lit (js "function")) in Ha. apply Matches_one in Hc.
  apply Matches_star_unit in Hb as (m & Hm & Hb).
  exists (js "function" ++ m ++ js "("). split; [right; right; right; now exists m|].
  rewrite Ha, Hb, Hc. rewrite <- !app_assoc. reflexivity.
Qed.

Lemma codeForm_read (w : jsstring) :
  codeForm w ->
  forall s i, exists st', Matches htmlOrCode (MState (w ++ s) i []) st'.
Proof.
  unfold htmlOrCode.
  intros [(m & Hne & Hm & ->)|[(m & Hne & Hm & ->)|[->|(m & Hm & ->)]]] s i.
  - eexists. apply MAltL. simpl.
    econstructor; [constructor; reflexivity|].
    rewrite <- app_assoc. econstructor; [now apply plus_unit_Matches|].
    simpl. constructor. reflexivity.
  - eexists. apply MAltR, MAltL. simpl.
    econstructor; [constructor; reflexivity|].
    rewrite <- app_assoc. econstructor; [now apply plus_unit_Matches|].
    simpl. constructor. reflexivity.
  - eexists. apply MAltR, MAltR, MAltL. apply lit_Matches.
  - eexists. apply MAltR, MAltR, MAltR.
    rewrite <- !app_assoc. econstructor; [apply lit_Matches|].
    econstructor; [now apply star_unit_Matches|].
    simpl. constructor. reflexivity.
Qed.

Lemma test_htmlOrCode (text : jsstring) :
  test htmlOrCode text = true <-> exists w, codeForm w /\ contains text w.
Proof.
  unfold test. split.
  - destruct (search htmlOrCode text 0) as [m|] eqn:E; [|discriminate]. intros _.
    apply search_suffix in E as (a & s' & -> & E).
    apply matchAt_sound in E as (st & H & _).
    apply htmlOrCode_reads in H as (w & Hw & Hr). simpl in Hr.
    exists w. split; [assumption|]. exists a, (rest st). now rewrite Hr.
  - intros (w & Hw & a & b & ->).
    destruct (codeForm_read w Hw b (0 + length a)) as (st' & H).
    pose proof (matchAt_complete _ _ _ _ H eq_refl) as Hm.
    pose proof (search_complete htmlOrCode a (w ++ b) 0 Hm) as Hs.
    now destruct (search htmlOrCode (a ++ w ++ b) 0).
Qed.

Section Meaningful.
Context {CM : CaseMapping}.

(** X7: a submission that holds a tag [<...>], a pair of braces
    [{...}], both with something inside, the text [console.log] or the
    word [function] followed, after white space or none, by an opening
    parenthesis is never taken for meaningful, whatever else it
    holds. *)
Theorem code_is_not_meaningful (text w : jsstring) :
  codeForm w -> contains text w -> isMeaningful text = false.
Proof.
  intros Hw Hc. unfold isMeaningful.
  assert (H : test htmlOrCode text = true) by (apply test_htmlOrCode; eauto).
  rewrite H.
  destruct (_ <? 0.3)%float; [reflexivity|].
  destruct (0.5 <? _)%float; [reflexivity|].
  now destruct (_ <? 0.5)%float.
Qed.

End Meaningful.

(** ** The handler *)

Lemma allFrom_spec (f : Z -> bool) (count : nat) :
  forall k, allFrom count k f = true ->
            forall z, (k <= z < k + Z.of_nat count)%Z -> f z = true.
Proof.
  induction count as [|count IH]; intros k H z Hz; [lia|].
  cbn [allFrom] in H. apply andb_true_iff in H as [Hk H].
  destruct (Z.eq_dec z k) as [->|Hne]; [assumption|].
  apply (IH (k + 1)%Z H). lia.
Qed.

(** Among at most 2000 sentences, the quotient of the runtime is at
    most 0.2 exactly when at most a fifth of them are counted. *)
Lemma fifth_of_sentences (k n : nat) :
  k <= n -> 0 < n <= 2000 ->
  (floatOfNat k / floatOfNat n <=? 0.2)%float = (5 * k <=? n).
Proof.
  intros Hk Hn.
  assert (Hall : allFrom 2000 1
                   (fun n => allFrom (S (Z.to_nat n)) 0
                               (fun k => Bool.eqb (floatOfZ k / floatOfZ n <=? 0.2)%float
                                                  (5 * k <=? n)%Z))
                 = true) by (vm_compute; reflexivity).
  pose proof (allFrom_spec _ _ _ Hall (Z.of_nat n) ltac:(lia)) as Hrow.
  pose proof (allFrom_spec _ _ _ Hrow (Z.of_nat k) ltac:(lia)) as Hcell.
  apply Bool.eqb_prop in Hcell. unfold floatOfNat. rewrite Hcell.
  destruct (5 * k <=? n) eqn:E.
  - apply Nat.leb_le in E. apply Z.leb_le. lia.
  - apply Nat.leb_gt in E. apply Z.leb_gt. lia.
Qed.

Lemma splitFrom_bound (p : char -> bool) (s : jsstring) :
  forall inRun piece pieces,
    splitFrom p inRun s = piece :: pieces ->
    2 * length (filter nonEmpty (piece :: pieces)) <= length s + 1
    /\ 2 * length (filter nonEmpty pieces) <= length s.
Proof.
  induction s as [|c s IH]; intros inRun piece pieces; simpl.
  - intros [= <- <-]. simpl. lia.
  - destruct (p c).
    + destruct inRun.
      * intro H. destruct (IH _ _ _ H) as [H1 H2]. simpl in H1. lia.
      * intros [= <- <-].
        destruct (splitFrom_count p s true) as (q & qs & E). rewrite E.
        destruct (IH _ _ _ E) as [H1 H2]. simpl in *. lia.
    + destruct (splitFrom_count p s false) as (q & qs & E). rewrite E.
      intros [= <- <-]. destruct (IH _ _ _ E) as [H1 H2]. simpl. lia.
Qed.

Lemma trimmed_nonEmpty (pieces : list jsstring) :
  length (filter nonEmpty (map trim pieces)) <= length (filter nonEmpty pieces).
Proof.
  induction pieces as [|piece pieces IH]; simpl; [lia|].
  destruct (nonEmpty (trim piece)) eqn:E.
  - assert (Hp : nonEmpty piece = true) by (destruct piece; [discriminate|reflexivity]).
    rewrite Hp. simpl. lia.
  - destruct (nonEmpty piece); simpl; lia.
Qed.

Lemma sentences_bound (text : jsstring) : 2 * length (sentences text) <= length text + 1.
Proof.
  unfold sentences, splitRuns.
  destruct (splitFrom_count isSentenceBreak text false) as (q & qs & E). rewrite E.
  pose proof (trimmed_nonEmpty (q :: qs)) as Ht.
  destruct (splitFrom_bound _ _ _ _ _ E) as [Hb _]. lia.
Qed.

Lemma nonEnglish_le (franc : jsstring -> jsstring) (ss : list jsstring) :
  nonEnglish franc ss <= length ss.
Proof. unfold nonEnglish. apply filter_length_le. Qed.

(** The language check on a submission of at most 4000 units. *)
Lemma isMostlyEnglish_fifth (franc : jsstring -> jsstring) (text : jsstring) :
  length text <= 4000 ->
  isMostlyEnglish franc text 0.2
  = (0 <? length (sentences text))
    && (5 * nonEnglish franc (sentences text) <=? length (sentences text)).
Proof.
  intro Hlen. unfold isMostlyEnglish.
  pose proof (sentences_bound text) as Hb.
  pose proof (nonEnglish_le franc (sentences text)) as Hle.
  destruct (sentences text) as [|s ss] eqn:E; [reflexivity|].
  rewrite fifth_of_sentences; [reflexivity|assumption|]. simpl in *. lia.
Qed.

Section HandlerProperties.
Context {CM : CaseMapping}.
Variable franc : jsstring -> jsstring.

(** X8: the language check on a submission of at most 4000 units, the
    limit of the handler: it passes exactly when the text has a sentence
    and at most a fifth of its sentences are taken for another language
    than English. *)
Theorem a_fifth_may_be_foreign (text : jsstring) :
  length text <= 4000 ->
  isMostlyEnglish franc text 0.2 = true
  <-> 0 < length (sentences text)
      /\ 5 * nonEnglish franc (sentences text) <= length (sentences text).
Proof.
  intro Hlen. rewrite (isMostlyEnglish_fifth franc text Hlen).
  rewrite andb_true_iff, Nat.ltb_lt, Nat.leb_le. reflexivity.
Qed.

(** X9: what holds of every submission that the handler has analysed:
    the client was within its limit, the text has 150 to 500 words and
    299 to 4000 units, it was taken for meaningful and at most a fifth
    of its sentences for foreign, and the answer is the result of
    parsing what the model returned, or the text [No response
    generated] when it returned nothing. *)
Theorem analysed_submission (header : option jsstring) (now : Z)
        (rateLimitMap : list (jsstring * Entry)) (writing : jsstring)
        (groq : completion) (analysis : AnalysisResult) :
  fst (POST franc header now rateLimitMap (Some writing) groq) = Analysis analysis ->
  fst (isRateLimited (clientOf header) now rateLimitMap) = false
  /\ 150 <= countWords writing <= 500
  /\ 299 <= length writing <= 4000
  /\ isMeaningful writing = true
  /\ 0 < length (sentences writing)
  /\ 5 * nonEnglish franc (sentences writing) <= length (sentences writing)
  /\ exists content,
       groq = Completed content
       /\ analysis = parseAnalysisOutput (outputOf content) writing.
Proof.
  unfold POST.
  destruct (isRateLimited (clientOf header) now rateLimitMap) as [limited m'].
  cbn [fst]. destruct limited; [discriminate|].
  destruct (isMeaningful writing); cbn [negb]; [|discriminate].
  destruct (isMostlyEnglish franc writing 0.2) eqn:Heng; cbn [negb]; [|discriminate].
  destruct (countWords writing <? 150) eqn:H1; [discriminate|].
  destruct (500 <? countWords writing) eqn:H2; [discriminate|].
  destruct (4000 <? length writing) eqn:H3; [discriminate|].
  destruct groq as [|content]; [discriminate|]. intros [= <-].
  apply Nat.ltb_ge in H1, H2, H3.
  assert (Hbound : 2 * countWords writing <= length writing + 1).
  { rewrite countWords_wordStarts. apply wordStarts_bound. }
  rewrite (isMostlyEnglish_fifth franc writing H3) in Heng.
  apply andb_true_iff in Heng as [Hs Hf].
  apply Nat.ltb_lt in Hs. apply Nat.leb_le in Hf.
  repeat split; try lia; try assumption. now exists content.
Qed.

(** X10: the empty submission passes the content check, every quotient
    of [isMeaningful] being [0 / 0], and is refused by the language
    check, which finds no sentence in it: the handler answers
    [Non-English text detected]. *)
Theorem empty_submission (header : option jsstring) (now : Z)
        (rateLimitMap : list (jsstring * Entry)) (groq : completion) :
  toLowerCase [] = [] ->
  fst (isRateLimited (clientOf header) now rateLimitMap) = false ->
  isMeaningful [] = true
  /\ isMostlyEnglish franc [] 0.2 = false
  /\ fst (POST franc header now rateLimitMap (Some []) groq) = NonEnglish.
Proof.
  intros Hlower Hlimit.
  assert (Hm : isMeaningful [] = true).
  { unfold isMeaningful, wordsOf. cbn [filter]. rewrite Hlower. vm_compute. reflexivity. }
  split; [exact Hm|]. split; [reflexivity|].
  unfold POST.
  destruct (isRateLimited (clientOf header) now rateLimitMap) as [limited m'].
  cbn [fst] in *. subst limited. now rewrite Hm.
Qed.

End HandlerProperties.

(** ** The criteria grid *)

(** A stable sort keeps the first element of a class whose members
    share one key. *)
Lemma find_insertSorted (A : Type) (key : A -> Z) (P : A -> bool) (x : A) (l : list A) :
  (forall a b, P a = true -> P b = true -> key a = key b) ->
  find P (insertSorted (fun a b => (key a - key b)%Z) x l)
  = if P x then Some x else find P l.
Proof.
  intro Hkey. induction l as [|y l IH]; simpl; [reflexivity|].
  destruct (key x - key y <=? 0)%Z eqn:E; [reflexivity|].
  simpl. rewrite IH. destruct (P y) eqn:Py; [|reflexivity].
  destruct (P x) eqn:Px; [|reflexivity].
  specialize (Hkey x y Px Py). lia.
Qed.

Lemma find_sort (A : Type) (key : A -> Z) (P : A -> bool) (l : list A) :
  (forall a b, P a = true -> P b = true -> key a = key b) ->
  find P (sort (fun a b => (key a - key b)%Z) l) = find P l.
Proof.
  intro Hkey. induction l as [|x l IH]; [reflexivity|].
  change (sort _ (x :: l))
    with (insertSorted (fun a b => (key a - key b)%Z) x
            (sort (fun a b => (key a - key b)%Z) l)).
  rewrite find_insertSorted by assumption. simpl. now rewrite IH.
Qed.

Section Grid.
Context {CM : CaseMapping}.

(** X11: for every model output the grid builds four cards in the order
    Content, Communicative Achievement, Organisation, Language, and the
    card of a category is the first criterion of that name that the
    extractor pushed: the placeholder [No feedback.] is never used, and
    the order in which the handler sorted the criteria does not
    matter. *)
Theorem grid_shows_first_pushed (output writing : jsstring) :
  Forall2
    (fun category card =>
       find (fun c => str_eqb (name c) category) (pushedCriteria (analysisSegment output))
       = Some card
       /\ name card = category
       /\ In card (criteria (parseAnalysisOutput output writing)))
    CriteriaGrid.order
    (CriteriaGrid.sorted (criteria (parseAnalysisOutput output writing))).
Proof.
  unfold CriteriaGrid.sorted.
  assert (H : forall category,
             In category CriteriaGrid.order ->
             let card := CriteriaGrid.shown
                           (criteria (parseAnalysisOutput output writing)) category in
             find (fun c => str_eqb (name c) category)
                  (pushedCriteria (analysisSegment output)) = Some card
             /\ name card = category
             /\ In card (criteria (parseAnalysisOutput output writing))).
  { intros category Hin. cbv zeta.
    destruct (required_present output writing category Hin) as (c & Hc & Hn).
    unfold CriteriaGrid.shown.
    assert (Hfind : find (fun c => str_eqb (name c) category)
                         (criteria (parseAnalysisOutput output writing))
                    = find (fun c => str_eqb (name c) category)
                           (pushedCriteria (analysisSegment output))).
    { cbn [criteria parseAnalysisOutput]. unfold compareCriteria.
      apply (find_sort Criterion sortKey). intros a b Ha Hb.
      apply str_eqb_eq in Ha, Hb. unfold sortKey. congruence. }
    destruct (find _ (criteria _)) as [card|] eqn:E.
    - split; [now rewrite <- Hfind|].
      apply find_some in E as [Hin' Hname]. apply str_eqb_eq in Hname.
      now split.
    - exfalso. apply (find_none _ _ E) in Hc. rewrite Hn, str_eqb_refl in Hc.
      discriminate. }
  induction CriteriaGrid.order as [|category rest IH]; simpl; constructor.
  - apply H. now left.
  - apply IH. intros c Hc. apply H. now right.
Qed.

End Grid.

(** *** The badge of a score *)

Lemma SFeqb_refl (x : spec_float) : x <> S754_nan -> SFeqb x x = true.
Proof.
  destruct x as [s|s| |s m e]; intro H; try contradiction.
  - unfold SFeqb, SFcompare. now destruct s.
  - unfold SFeqb, SFcompare. now destruct s.
  - unfold SFeqb, SFcompare. rewrite Z.compare_refl.
    destruct s; unfold Pos.compare; rewrite ?Pos.compare_cont_refl; reflexivity.
Qed.

(** Every comparison with NaN is false. *)
Lemma nan_compare (x y : float) :
  PrimFloat.is_nan x = true -> (y <=? x)%float = false /\ (x =? y)%float = false.
Proof.
  unfold PrimFloat.is_nan. rewrite !FloatAxioms.eqb_spec, FloatAxioms.leb_spec. intro H.
  destruct (Prim2SF x) eqn:E.
  1,2,4: rewrite SFeqb_refl in H by discriminate; discriminate.
  split; unfold SFleb, SFeqb, SFcompare; now destruct (Prim2SF y).
Qed.

Lemma getColor_decimal (tenths : Z) :
  (0 <= tenths <= 99)%Z ->
  CriteriaGrid.getColor (decimalScore tenths) = badge tenths.
Proof.
  intro Hk.
  assert (Hall : forallb (fun n => str_eqb (CriteriaGrid.getColor (decimalScore (Z.of_nat n)))
                                           (badge (Z.of_nat n)))
                         (seq 0 100) = true) by (vm_compute; reflexivity).
  rewrite forallb_forall in Hall.
  specialize (Hall (Z.to_nat tenths)). rewrite Z2Nat.id in Hall by lia.
  apply str_eqb_eq, Hall. apply in_seq. lia.
Qed.

Section Badges.
Context {CM : CaseMapping}.

(** X12: the badge of a criterion of the result is green when its score
    is 4 or more, yellow when it is exactly 3 and red in every other
    case: for a score below 3, for a score between 3.1 and 3.9, and for
    the NaN of a failed last-resort scan. *)
Theorem badge_of_score (output writing : jsstring) (c : Criterion) :
  In c (criteria (parseAnalysisOutput output writing)) ->
  (PrimFloat.is_nan (score c) = true
   /\ CriteriaGrid.getColor (score c) = js "bg-red-400 text-white")
  \/ exists tenths,
       (0 <= tenths <= 99)%Z /\ score c = decimalScore tenths
       /\ CriteriaGrid.getColor (score c)
          = if (40 <=? tenths)%Z then js "bg-green-500 text-white"
            else if (tenths =? 30)%Z then js "bg-yellow-400 text-white"
            else js "bg-red-400 text-white".
Proof.
  intro Hc. simpl in Hc. apply (proj1 (In_sort _ sortKey c _)) in Hc.
  assert (H : scoreShape c).
  { revert c Hc. unfold pushedCriteria.
    apply defaultPass_scores, gapFillPass_scores. apply primaryPass_scores. }
  destruct H as [H|(k & Hk & E)].
  - left. split; [assumption|]. unfold CriteriaGrid.getColor.
    destruct (nan_compare (score c) 4 H) as [-> _].
    now destruct (nan_compare (score c) 3 H) as [_ ->].
  - right. exists k. split; [assumption|]. split; [assumption|].
    rewrite E. now apply getColor_decimal.
Qed.

End Badges.

(** ** The highlighter *)

Lemma firstn_skipn_le (A : Type) (l : list A) (a b : nat) :
  a <= b -> firstn (b - a) (skipn a l) ++ skipn b l = skipn a l.
Proof.
  intro H. rewrite <- (firstn_skipn (b - a) (skipn a l)) at 2.
  rewrite skipn_skipn. now replace (b - a + a) with b by lia.
Qed.

Lemma substringZ_skipn (text : jsstring) (a b : Z) :
  (a <= b)%Z ->
  substringZ text a b ++ skipn (Z.to_nat b) text = skipn (Z.to_nat a) text.
Proof.
  intro H. unfold substringZ, substring.
  rewrite Nat.max_r, Nat.min_l by lia. apply firstn_skipn_le. lia.
Qed.

(** Spans in a row tile the text: the parts, put together, are the text
    from [lastIndex] on. *)
Lemma forEach_text (text : jsstring) (ps : list (value * (Z * Z))) :
  forall last,
    inRow last ps ->
    concat (map partText (forEach text ps last)) = skipn (Z.to_nat last) text.
Proof.
  induction ps as [|[err [s t]] ps IH]; intros last H.
  - cbn [forEach]. destruct (last <? Z.of_nat (length text))%Z eqn:E.
    + simpl. unfold substringFromZ, substringFrom. apply app_nil_r.
    + simpl. symmetry. apply skipn_all2. lia.
  - destruct H as [[H1 H2] H]. cbn [forEach].
    rewrite map_app, concat_app. cbn [map concat partText].
    rewrite (IH t H), substringZ_skipn by assumption.
    destruct (last <? s)%Z eqn:E; cbn [map concat partText].
    + rewrite app_nil_r. now apply substringZ_skipn.
    + simpl. now replace s with last by lia.
Qed.


Lemma Forall_insertSorted (A : Type) (cmp : A -> A -> Z) (P : A -> Prop) (x : A) (l : list A) :
  P x -> Forall P l -> Forall P (insertSorted cmp x l).
Proof.
  intros Hx Hl. induction Hl as [|y l Hy Hl IH]; simpl.
  - now constructor.
  - destruct (cmp x y <=? 0)%Z; repeat constructor; assumption.
Qed.

Lemma Forall_sort (A : Type) (cmp : A -> A -> Z) (P : A -> Prop) (l : list A) :
  Forall P l -> Forall P (sort cmp l).
Proof.
  induction 1 as [|x l Hx Hl IH]; [constructor|].
  change (sort cmp (x :: l)) with (insertSorted cmp x (sort cmp l)).
  now apply Forall_insertSorted.
Qed.

Lemma pairs_insertSorted (A : Type) (cmp : A -> A -> Z) (R : A -> A -> Prop)
      (x : A) (l : list A) :
  (forall a b, R a b -> R b a) ->
  Forall (R x) l -> ForallOrdPairs R l -> ForallOrdPairs R (insertSorted cmp x l).
Proof.
  intros Hsym Hx Hl. induction Hl as [|y l Hy Hl IH]; simpl.
  - repeat constructor.
  - inversion Hx as [|? ? Hxy Hx']; subst.
    destruct (cmp x y <=? 0)%Z.
    + constructor; [assumption|]. now constructor.
    + constructor; [|now apply IH].
      apply Forall_insertSorted; [now apply Hsym|assumption].
Qed.

Lemma pairs_sort (A : Type) (cmp : A -> A -> Z) (R : A -> A -> Prop) (l : list A) :
  (forall a b, R a b -> R b a) ->
  ForallOrdPairs R l -> ForallOrdPairs R (sort cmp l).
Proof.
  intros Hsym Hl. induction Hl as [|x l Hx Hl IH]; [constructor|].
  change (sort cmp (x :: l)) with (insertSorted cmp x (sort cmp l)).
  apply pairs_insertSorted; try assumption. now apply Forall_sort.
Qed.

Lemma apart_sym (a b : value * (Z * Z)) : apart a b -> apart b a.
Proof. unfold apart. tauto. Qed.

(** Proper spans that are pairwise apart, in the order of their starts,
    are in a row. *)
Lemma sorted_inRow (ps : list (value * (Z * Z))) :
  forall last,
    Forall (fun a => last <= fst (snd a))%Z ps ->
    Forall proper ps ->
    ForallOrdPairs apart ps ->
    StronglySorted (fun a b => fst (snd a) <= fst (snd b))%Z ps ->
    inRow last ps.
Proof.
  induction ps as [|[err [s t]] ps IH]; intros last Hlast Hproper Hapart Hsorted;
    [exact I|].
  inversion Hlast as [|? ? Hl _]; subst.
  inversion Hproper as [|? ? Hp Hproper']; subst.
  inversion Hapart as [|? ? Ha Hapart']; subst.
  inversion Hsorted as [|? ? Hsorted' Hs]; subst.
  unfold proper in Hp. cbn [fst snd] in *.
  split; [lia|]. apply IH; try assumption.
  rewrite Forall_forall in *. intros b Hb.
  specialize (Ha b Hb). specialize (Hs b Hb). specialize (Hproper' b Hb).
  unfold apart, proper in *. cbn [fst snd] in *. lia.
Qed.

Lemma sort_inRow (ps : list (value * (Z * Z))) :
  Forall proper ps -> ForallOrdPairs apart ps -> inRow 0 (sort byStart ps).
Proof.
  intros Hproper Hapart. apply sorted_inRow.
  - apply Forall_sort. revert Hproper. apply Forall_impl.
    unfold proper. intros a. lia.
  - now apply Forall_sort.
  - apply pairs_sort; [apply apart_sym|assumption].
  - apply (sort_sorted _ (fun a : value * (Z * Z) => fst (snd a))).
Qed.

(** The records that [filter] keeps, with the offsets that [positions]
    reads, inherit what holds of the positions of the records. *)
Lemma positions_of_filter (errors : list value) :
  forall located ps,
    positioned errors = Returns located ->
    positions located = Some ps ->
    Forall properSpan errors ->
    ForallOrdPairs spansApart errors ->
    Forall proper ps /\ ForallOrdPairs apart ps
    /\ forall a, In a ps -> In (fst a) errors /\ position (fst a) = Some (snd a).
Proof.
  induction errors as [|e errors IH]; intros located ps Hf Hp Hproper Hapart.
  - injection Hf as <-. injection Hp as <-.
    split; [constructor|]. split; [constructor|]. intros a [].
  - cbn [positioned] in Hf.
    destruct (hasPosition e) as [keep|]; [|discriminate].
    destruct (positioned errors) as [l|] eqn:Hl; [|discriminate].
    injection Hf as <-.
    inversion Hproper as [|? ? He Hproper']; subst.
    inversion Hapart as [|? ? Hea Hapart']; subst.
    destruct keep.
    + cbn [positions] in Hp.
      destruct (position e) as [p|] eqn:Hpe; [|discriminate].
      destruct (positions l) as [ps'|] eqn:Hps; [|discriminate].
      injection Hp as <-.
      destruct (IH l ps' eq_refl Hps Hproper' Hapart') as (IH1 & IH2 & IH3).
      split; [constructor; [now apply He|assumption]|].
      split.
      * constructor; [|assumption].
        apply Forall_forall. intros [o q] Ha.
        destruct (IH3 _ Ha) as [Hin Hq]. cbn [fst snd] in *.
        rewrite Forall_forall in Hea. now apply (Hea o Hin).
      * intros a [<-|Ha]; [split; [now left|assumption]|].
        destruct (IH3 a Ha). split; [now right|assumption].
    + destruct (IH l ps eq_refl Hp Hproper' Hapart') as (IH1 & IH2 & IH3).
      split; [assumption|]. split; [assumption|].
      intros a Ha. destruct (IH3 a Ha). split; [now right|assumption].
Qed.

Lemma highlightText_tiles (originalText : jsstring) (errors : list value)
        (parts : list part) :
  Forall properSpan errors ->
  ForallOrdPairs spansApart errors ->
  highlightText originalText errors = Rendered parts ->
  concat (map partText parts) = originalText.
Proof.
  intros Hproper Hapart. unfold highlightText.
  destruct errors as [|e errors]; [intros [= <-]; simpl; apply app_nil_r|].
  destruct (somePositioned (e :: errors)) as [[|]|]; try discriminate.
  destruct (positioned (e :: errors)) as [located|] eqn:Hf; [|discriminate].
  destruct (positions located) as [ps|] eqn:Hp; [|discriminate].
  intros [= <-].
  destruct (positions_of_filter _ _ _ Hf Hp Hproper Hapart) as (H1 & H2 & _).
  now rewrite (forEach_text originalText _ 0 (sort_inRow ps H1 H2)).
Qed.

(** X13: when the positions of the records are pairwise apart, each of
    them holding at least one unit from offset 0 on, the parts that the
    highlighter renders, put together, are the submitted text: nothing
    is lost and nothing is shown twice. *)
Theorem marks_tile_the_text (originalText : jsstring) (errors : list value)
        (parts : list part) :
  Forall properSpan errors ->
  ForallOrdPairs spansApart errors ->
  highlightText originalText errors = Rendered parts ->
  concat (map partText parts) = originalText.
Proof. apply highlightText_tiles. Qed.

(** *** A null record *)

Lemma filter_null (errors : list value) :
  In VNull errors -> positioned errors = Throws.
Proof.
  induction errors as [|e errors IH]; [intros []|].
  intros [->|H]; cbn [positioned].
  - reflexivity.
  - rewrite (IH H). now destruct (hasPosition e).
Qed.

Lemma some_null (errors : list value) :
  In VNull errors -> somePositioned errors <> Returns false.
Proof.
  induction errors as [|e errors IH]; [intros []|].
  intros [->|H]; cbn [somePositioned]; [discriminate|].
  destruct (hasPosition e) as [[|]|]; try discriminate. now apply IH.
Qed.

Lemma highlightText_null (originalText : jsstring) (errors : list value) :
  In VNull errors -> highlightText originalText errors = TypeError.
Proof.
  intro H. unfold highlightText.
  destruct errors as [|e errors]; [destruct H|].
  pose proof (some_null _ H) as Hs. rewrite (filter_null _ H).
  destruct (somePositioned (e :: errors)) as [[|]|]; congruence.
Qed.

Lemma Forall2_In_l (A B : Type) (R : A -> B -> Prop) (l : list A) (l' : list B) (a : A) :
  Forall2 R l l' -> In a l -> exists b, In b l' /\ R a b.
Proof.
  induction 1 as [|x y l l' Hxy H IH]; [intros []|].
  intros [->|Ha].
  - exists y. split; [now left|assumption].
  - destruct (IH Ha) as (b & Hb & Hr). exists b. split; [now right|assumption].
Qed.

Lemma Forall2_In_r (A B : Type) (R : A -> B -> Prop) (l : list A) (l' : list B) (b : B) :
  Forall2 R l l' -> In b l' -> exists a, In a l /\ R a b.
Proof.
  induction 1 as [|x y l l' Hxy H IH]; [intros []|].
  intros [->|Hb].
  - exists x. split; [now left|assumption].
  - destruct (IH Hb) as (a & Ha & Hr). exists a. split; [now right|assumption].
Qed.

Section Highlighting.
Context {CM : CaseMapping}.

(** X14: a [null] among the records that the model output lists reaches
    the highlighter and makes its rendering throw a TypeError, whatever
    the other records are. *)
Theorem null_record_throws (output writing : jsstring) :
  In VNull (decodeFragments (errorMatches (errorsSegment output))) ->
  In VNull (errors (parseAnalysisOutput output writing))
  /\ highlightText writing (errors (parseAnalysisOutput output writing)) = TypeError.
Proof.
  intro H.
  assert (Hin : In VNull (errors (parseAnalysisOutput output writing))).
  { destruct (Forall2_In_l _ _ _ _ _ _ (errors_emitted output writing) H)
      as (o & Ho & [E|(s & t & E)]); now rewrite E in Ho. }
  split; [assumption|]. now apply highlightText_null.
Qed.

End Highlighting.

(** *** The records that the locator sends *)

Lemma position_spanOf (o : value) (p : Z * Z) : position o = Some p -> spanOf o = Some p.
Proof.
  unfold position, offset, spanOf.
  destruct (getProp o (js "start")) as [[| |m [| |]| | |]|]; try discriminate.
  destruct (Z.abs m <=? 2 ^ 53)%Z; [|discriminate].
  destruct (getProp o (js "end")) as [[| |m' [| |]| | |]|]; try discriminate.
  destruct (Z.abs m' <=? 2 ^ 53)%Z; [|discriminate].
  now intros [= <-].
Qed.

Lemma spanOf_position (o : value) (s t : Z) :
  spanOf o = Some (s, t) -> (Z.abs s <= 2 ^ 53)%Z -> (Z.abs t <= 2 ^ 53)%Z ->
  o <> VNull
  /\ hasPosition o = Returns true /\ position o = Some (s, t).
Proof.
  intros H Hs Ht. destruct o as [| | | | |props]; try discriminate.
  unfold position, offset, spanOf, hasPosition in *.
  destruct (getProp (VObj props) (js "start")) as [[| |m [| |]| | |]|];
    try discriminate.
  destruct (getProp (VObj props) (js "end")) as [[| |m' [| |]| | |]|];
    try discriminate.
  injection H as -> ->.
  apply Z.leb_le in Hs, Ht. rewrite Hs, Ht. now repeat split.
Qed.

Lemma noField_position (o : value) :
  hasSpanField o = false -> o <> VNull -> hasPosition o = Returns false.
Proof.
  unfold hasSpanField, hasPosition. intros H Hn.
  destruct (getProp o (js "start")); [destruct (getProp o (js "end")); discriminate|].
  destruct o; try reflexivity. contradiction.
Qed.

Lemma filter_readable (errors : list value) :
  Forall readable errors ->
  exists located ps,
    positioned errors = Returns located
    /\ positions located = Some ps
    /\ (somePositioned errors = Returns true
        \/ (somePositioned errors = Returns false
            /\ Forall (fun o => hasPosition o = Returns false) errors)).
Proof.
  induction 1 as [|o errors Ho H IH].
  - exists [], []. repeat split. right. split; [reflexivity|constructor].
  - destruct IH as (located & ps & Hf & Hp & Hs).
    cbn [positioned somePositioned]. rewrite Hf.
    destruct Ho as [Ho|[Ho [p Hpo]]]; rewrite Ho.
    + exists located, ps. split; [reflexivity|]. split; [assumption|].
      destruct Hs as [Hs|[Hs Hall]]; [now left|].
      right. split; [assumption|]. now constructor.
    + exists (o :: located), ((o, p) :: ps). split; [reflexivity|].
      split; [|now left]. cbn [positions]. now rewrite Hpo, Hp.
Qed.

Lemma pairs_of_indices (A : Type) (R : A -> A -> Prop) (l : list A) :
  (forall j k a b, j < k -> nth_error l j = Some a -> nth_error l k = Some b -> R a b) ->
  ForallOrdPairs R l.
Proof.
  induction l as [|x l IH]; intro H; constructor.
  - apply Forall_forall. intros b Hb.
    apply In_nth_error in Hb as [k Hk].
    apply (H 0 (S k) x b); [lia|reflexivity|exact Hk].
  - apply IH. intros j k a b Hjk Ha Hb.
    apply (H (S j) (S k) a b); [lia|exact Ha|exact Hb].
Qed.

Section HighlightedResult.
Context {CM : CaseMapping}.
Variables output writing : jsstring.
Hypothesis noFields : noSpanFields (decodedErrors (errorsSegment output)).

Let out : list value := errors (parseAnalysisOutput output writing).

(** A record of the result has no span field, or the span of an
    occurrence of its text. *)
Lemma result_record (o : value) :
  In o out ->
  hasSpanField o = false
  \/ exists (n : nat) (t : jsstring),
       spanOf o = Some (Z.of_nat n, Z.of_nat (n + length t))
       /\ t <> [] /\ n + length t <= length (toLowerCase writing).
Proof.
  intro Ho.
  destruct (Forall2_In_r _ _ _ _ _ _ (errors_emitted output writing) Ho)
    as (e & He & Hem).
  assert (Hno : hasSpanField (recategorize e) = false).
  { unfold noSpanFields in noFields. rewrite Forall_forall in noFields.
    apply noFields. unfold decodedErrors. now apply in_map. }
  destruct Hem as [->|(s & t & ->)]; [now left|].
  destruct (recategorize e) as [| | | | |props] eqn:E; try (now left).
  right. apply In_nth_error in Ho as [j Hj].
  destruct (located_record output writing j _ _ _ noFields Hj
              (spanOf_withSpan props s t))
    as (t' & n & Ht & Hne & Hs & Hst & (Hocc & _) & _).
  apply Nat2Z.inj in Hs, Hst. subst s t.
  exists n, t'. rewrite spanOf_withSpan.
  split; [reflexivity|]. split; [assumption|].
  pose proof (toLowerCase_length t') as Hlen.
  assert (Hlt : toLowerCase t' <> []).
  { intro E'. rewrite E' in Hlen. destruct t'; [contradiction|simpl in Hlen; lia]. }
  pose proof (substring_eq_bound _ _ _ Hocc Hlt). lia.
Qed.

Lemma result_spans_apart : ForallOrdPairs spansApart out.
Proof.
  apply pairs_of_indices. intros j k a b Hjk Ha Hb [s t] [s' t'] Hpa Hpb.
  apply position_spanOf in Hpa, Hpb. unfold apart. cbn [fst snd].
  destruct (located_record output writing j a s t noFields Ha Hpa)
    as (ta & na & _ & Hnea & -> & -> & _ & Hca).
  destruct (located_record output writing k b s' t' noFields Hb Hpb)
    as (tb & nb & _ & Hneb & -> & -> & (_ & Hfree & _) & _).
  pose proof (toLowerCase_length ta) as Hla.
  pose proof (toLowerCase_length tb) as Hlb.
  assert (0 < length ta) by (destruct ta; [contradiction|simpl; lia]).
  assert (0 < length tb) by (destruct tb; [contradiction|simpl; lia]).
  destruct (Nat.le_gt_cases (na + length (toLowerCase ta)) nb) as [Hle|Hgt]; [lia|].
  destruct (Nat.le_gt_cases (nb + length (toLowerCase tb)) na) as [Hle'|Hgt']; [lia|].
  exfalso. destruct (Nat.le_gt_cases na nb) as [Hab|Hba].
  - apply (Hfree nb j a); [lia|assumption|assumption|]. apply Hca. lia.
  - apply (Hfree na j a); [lia|assumption|assumption|]. apply Hca. lia.
Qed.

Lemma result_spans_proper : Forall properSpan out.
Proof.
  apply Forall_forall. intros o Ho [s t] Hp.
  apply position_spanOf in Hp.
  destruct (result_record o Ho) as [Hno|(n & t' & Hs & Hne & _)].
  - rewrite (hasSpanField_spanOf _ Hno) in Hp. discriminate.
  - rewrite Hs in Hp. injection Hp as <- <-. unfold proper. cbn [fst snd].
    assert (0 < length t') by (destruct t'; [contradiction|simpl; lia]). lia.
Qed.

(** X15: the records that the page receives from the handler, the model
    output bringing no span fields of its own, are rendered by position
    whenever one of them is located, and the parts put together are the
    submission: every located record is marked, no text is lost or
    repeated.  When none is located the highlighter falls back to its
    search by text.  This holds for the error lists that travel as they
    are and hold no [null], the text area still holding the
    submission. *)
Theorem located_records_tile_the_submission (page : list value) :
  received out = Some page ->
  ~ In VNull page ->
  (Z.of_nat (length (toLowerCase writing)) <= 2 ^ 53)%Z ->
  (exists parts,
      highlightText writing page = Rendered parts
      /\ concat (map partText parts) = writing)
  \/ (highlightText writing page = Fallback
      /\ Forall (fun o => spanOf o = None) page).
Proof.
  unfold received. destruct (forallb carried out); [|discriminate].
  intros [= <-] Hnull Hbound.
  assert (Hread : Forall readable out).
  { apply Forall_forall. intros o Ho.
    assert (Hn : o <> VNull) by (intros ->; contradiction).
    destruct (result_record o Ho) as [Hno|(n & t & Hs & _ & Hle)].
    - left. now apply noField_position.
    - right. destruct (spanOf_position o _ _ Hs) as (_ & Hh & Hp); [lia|lia|].
      split; [assumption|]. now exists (Z.of_nat n, Z.of_nat (n + length t)). }
  destruct (filter_readable out Hread) as (located & ps & Hf & Hp & Hsome).
  destruct out as [|o0 rest] eqn:Eout.
  { left. exists [Whole writing]. split; [reflexivity|]. simpl. apply app_nil_r. }
  rewrite <- Eout in *.
  destruct Hsome as [Hs|[Hs Hall]].
  - left. exists (forEach writing (sort byStart ps) 0).
    assert (E : highlightText writing out
                = Rendered (forEach writing (sort byStart ps) 0)).
    { unfold highlightText. rewrite Eout at 1. now rewrite Hs, Hf, Hp. }
    split; [exact E|].
    apply (highlightText_tiles writing out _ result_spans_proper result_spans_apart E).
  - right. split.
    + unfold highlightText. rewrite Eout at 1. now rewrite Hs.
    + apply Forall_forall. intros o Ho. rewrite Forall_forall in Hall.
      specialize (Hall o Ho).
      destruct (result_record o Ho) as [Hno|(n & t & Hsp & _ & Hle)].
      * now apply hasSpanField_spanOf.
      * destruct (spanOf_position o _ _ Hsp) as (_ & Hh & _); [lia|lia|].
        congruence.
Qed.

End HighlightedResult.

(** ** Outputs without scores *)

Lemma Matches_rest (r : regex) (st st' : mstate) :
  Matches r st st' -> exists w, rest st = w ++ rest st'.
Proof.
  induction 1 as [st|p c s i cs Hp|r1 r2 st1 st2 st3 H1 [w1 IH1] H2 [w2 IH2]
                  |r1 r2 st st' H1 IH1|r1 r2 st st' H2 IH2
                  |g r st|g r st1 st2 st3 H1 [w1 IH1] H2 [w2 IH2]
                  |i r st st' H1 IH1|r st st' H1 IH1|i cs];
    try assumption; try (now exists []).
  - now exists [c].
  - exists (w1 ++ w2). now rewrite IH1, IH2, app_assoc.
  - exists (w1 ++ w2). now rewrite IH1, IH2, app_assoc.
Qed.

Lemma In_rest (c : char) (r : regex) (st st' : mstate) :
  Matches r st st' -> In c (rest st') -> In c (rest st).
Proof.
  intros H Hin. destruct (Matches_rest _ _ _ H) as [w ->].
  apply in_or_app. now right.
Qed.

(** Each of the three patterns reads a slash. *)
Lemma primaryRe_slash (st st' : mstate) :
  Matches primaryRe st st' -> In 47%N (rest st).
Proof.
  unfold primaryRe. intro H.
  apply Matches_cat_inv in H as (st1 & H1 & H).
  apply Matches_cat_inv in H as (st2 & H2 & H).
  apply Matches_cat_inv in H as (st3 & H3 & H).
  apply Matches_cat_inv in H as (st4 & H4 & H).
  apply Matches_cat_inv in H as (st5 & H5 & _).
  apply (Matches_lit (js "/5):")) in H5.
  apply (In_rest _ _ _ _ H1), (In_rest _ _ _ _ H2), (In_rest _ _ _ _ H3),
    (In_rest _ _ _ _ H4).
  rewrite H5. now left.
Qed.

Lemma lineRe_slash (st st' : mstate) :
  Matches lineRe st st' -> In 47%N (rest st).
Proof.
  unfold lineRe. intro H.
  apply Matches_cat_inv in H as (st1 & H1 & H).
  apply Matches_cat_inv in H as (st2 & H2 & H).
  apply Matches_cat_inv in H as (st3 & H3 & H).
  apply Matches_cat_inv in H as (st4 & H4 & _).
  apply (Matches_lit (js "/5")) in H4.
  apply (In_rest _ _ _ _ H1), (In_rest _ _ _ _ H2), (In_rest _ _ _ _ H3).
  rewrite H4. now left.
Qed.

Lemma lastResortRe_slash (lowered : jsstring) (st st' : mstate) :
  Matches (lastResortRe lowered) st st' -> In 47%N (rest st).
Proof.
  unfold lastResortRe. intro H.
  apply Matches_cat_inv in H as (st1 & H1 & H).
  apply Matches_cat_inv in H as (st2 & H2 & H).
  apply Matches_cat_inv in H as (st3 & H3 & H4).
  apply (Matches_lit (js "/5")) in H4.
  apply (In_rest _ _ _ _ H1), (In_rest _ _ _ _ H2), (In_rest _ _ _ _ H3).
  rewrite H4. now left.
Qed.

Lemma search_needs (r : regex) (c : char) (text : jsstring) :
  (forall st st', Matches r st st' -> In c (rest st)) ->
  ~ In c text -> search r text 0 = None.
Proof.
  intros Hr Hc. destruct (search r text 0) as [m|] eqn:E; [|reflexivity].
  exfalso. apply search_suffix in E as (a & s' & -> & E).
  apply matchAt_sound in E as (st & H & _). apply Hr in H. simpl in H.
  apply Hc, in_or_app. now right.
Qed.

Lemma matchAll_needs (r : regex) (c : char) (text : jsstring) :
  (forall st st', Matches r st st' -> In c (rest st)) ->
  ~ In c text -> matchAll r text = [].
Proof.
  intros Hr Hc. unfold matchAll. destruct (scan r 0 text 0) as [|m ms] eqn:E; [reflexivity|].
  exfalso. assert (Hm : In m (scan r 0 text 0)) by (rewrite E; now left).
  apply scan_matchAt_suffix in Hm as (k & Hm).
  apply matchAt_sound in Hm as (st & H & _). apply Hr in H. simpl in H.
  apply Hc. rewrite <- (firstn_skipn k text). apply in_or_app. now right.
Qed.

Lemma splitLines_units (text : jsstring) :
  forall line c, In line (splitLines text) -> In c line -> In c text.
Proof.
  induction text as [|x text IH]; intros line c; simpl.
  - intros [<-|[]] [].
  - destruct (x =? 10)%N.
    + intros [<-|H] Hc; [destruct Hc|]. right. eauto.
    + destruct (splitLines text) as [|l ls] eqn:E.
      * intros [<-|[]] [<-|[]]. now left.
      * intros [<-|H] Hc.
        -- destruct Hc as [<-|Hc]; [now left|]. right. apply (IH l); [now left|assumption].
        -- right. apply (IH line); [now right|assumption].
Qed.

Section WithoutScores.
Context {CM : CaseMapping}.

Lemma gapFill_nothing (lines : list jsstring) (st : list Criterion * list jsstring) :
  (forall line, In line lines -> search lineRe line 0 = None) ->
  fold_left gapFillLine lines st = st.
Proof.
  revert st. induction lines as [|line lines IH]; intros st H; [reflexivity|].
  cbn [fold_left]. unfold gapFillLine at 2. rewrite (H line) by now left.
  apply IH. intros l Hl. apply H. now right.
Qed.

(** X16: when the analysis segment of the model output holds no slash,
    as in the text [No response generated] that stands for a missing
    answer, the result lists the four categories with score 3 and the
    stock feedback, Content last, and the overall score is 3. *)
Theorem output_without_slash (output writing : jsstring) :
  ~ In 47%N (analysisSegment output) ->
  criteria (parseAnalysisOutput output writing)
  = map fallbackCriterion
        [js "Communicative Achievement"; js "Organisation"; js "Language"; js "Content"]
  /\ overallScore (parseAnalysisOutput output writing) = 3%float.
Proof.
  intro Hno. cbn [criteria overallScore parseAnalysisOutput].
  assert (Hpushed : pushedCriteria (analysisSegment output)
                    = map fallbackCriterion requiredCriteria).
  { unfold pushedCriteria, primaryPass.
    rewrite (matchAll_needs primaryRe 47%N _ primaryRe_slash Hno). cbn [map].
    unfold gapFillPass. cbn [length Nat.ltb Nat.leb].
    rewrite gapFill_nothing.
    - unfold defaultPass, requiredCriteria. cbn [map fold_left has existsb app].
      unfold defaultCriterion, fallbackCriterion.
      now rewrite !(search_needs _ 47%N _ (lastResortRe_slash _) Hno).
    - intros line Hline. apply (search_needs lineRe 47%N); [apply lineRe_slash|].
      intro Hc. apply Hno. now apply (splitLines_units _ line). }
  rewrite Hpushed. split; [reflexivity|]. vm_compute. reflexivity.
Qed.

End WithoutScores.

(** ** The feedback of a criterion *)

Lemma collapseFrom_lf (s : jsstring) : forall inRun, ~ In 10%N (collapseFrom inRun s).
Proof.
  induction s as [|c s IH]; intro inRun; simpl; [tauto|].
  destruct (c =? 10)%N eqn:E.
  - destruct inRun; [apply IH|]. intros [H|H]; [discriminate|now apply IH in H].
  - apply N.eqb_neq in E. intros [H|H]; [congruence|now apply IH in H].
Qed.

Lemma splitLines_lf (text : jsstring) :
  forall line, In line (splitLines text) -> ~ In 10%N line.
Proof.
  induction text as [|x text IH]; intros line; simpl.
  - intros [<-|[]] [].
  - destruct (x =? 10)%N eqn:E.
    + intros [<-|H]; [intros []|now apply IH].
    + apply N.eqb_neq in E. destruct (splitLines text) as [|l ls] eqn:El.
      * intros [<-|[]] [H|[]]. congruence.
      * intros [<-|H].
        -- intros [Hx|Hl]; [congruence|]. apply (IH l); [now left|assumption].
        -- apply IH. now right.
Qed.

Lemma In_dropWhile (p : char -> bool) (c : char) (s : jsstring) :
  In c (dropWhile p s) -> In c s.
Proof.
  induction s as [|x s IH]; [trivial|]. cbn [dropWhile].
  destruct (p x); [|trivial]. intro H. right. now apply IH.
Qed.

Lemma In_trim (c : char) (s : jsstring) : In c (trim s) -> In c s.
Proof.
  unfold trim. intro H. apply in_rev, In_dropWhile, in_rev in H.
  now apply In_dropWhile in H.
Qed.

(** What the line pattern captures as the feedback is a piece of the
    line. *)
Lemma lineRe_feedback (s : jsstring) (i : nat) (m : rmatch) (c : char) :
  matchAt lineRe s i = Some m -> In c (group m 3) -> In c s.
Proof.
  intro H. apply matchAt_sound in H as (st & H & Hc).
  unfold group. rewrite Hc. clear Hc m. unfold lineRe in H.
  apply Matches_cat_inv in H as (st1 & H1 & H).
  apply Matches_cat_inv in H as (st2 & H2 & H).
  apply Matches_cat_inv in H as (st3 & H3 & H).
  apply Matches_cat_inv in H as (st4 & H4 & H).
  apply Matches_cat_inv in H as (st5 & H5 & H).
  apply Matches_cat_inv in H as (st6 & H6 & H).
  apply Matches_cat_inv in H as (st7 & H7 & H).
  apply Matches_group_inv in H as (st8 & H & ->).
  unfold capture. cbn [caps assoc Nat.eqb]. intro Hin.
  apply (In_rest c _ _ _ H1), (In_rest c _ _ _ H2), (In_rest c _ _ _ H3),
    (In_rest c _ _ _ H4), (In_rest c _ _ _ H5), (In_rest c _ _ _ H6),
    (In_rest c _ _ _ H7).
  revert Hin. generalize (pos st8 - pos st7). intros n Hin.
  rewrite <- (firstn_skipn n (rest st7)). apply in_or_app. now left.
Qed.

Section Feedback.
Context {CM : CaseMapping}.

Lemma primaryPass_oneLine (text : jsstring) (c : Criterion) :
  In c (primaryPass text) -> oneLine c.
Proof.
  unfold primaryPass. intro H. apply in_map_iff in H as (m & <- & _).
  right. apply collapseFrom_lf.
Qed.

Lemma gapFillPass_oneLine (text : jsstring) (cs : list Criterion) :
  (forall c, In c cs -> oneLine c) ->
  forall c, In c (gapFillPass text cs) -> oneLine c.
Proof.
  intros Hcs. unfold gapFillPass. destruct (length cs <? 4); [|assumption].
  pose proof (splitLines_lf text) as Hlines.
  revert Hlines. generalize (map name cs). generalize (splitLines text).
  intros lines. revert cs Hcs.
  induction lines as [|line lines IH]; intros cs Hcs names Hlines; simpl; [assumption|].
  destruct (gapFillLine (cs, names) line) as [cs' names'] eqn:E.
  apply IH; [|intros l Hl; apply Hlines; now right].
  intros c Hc. unfold gapFillLine in E.
  destruct (search lineRe line 0) as [m|] eqn:Es;
    [|injection E as <- <-; now apply Hcs].
  destruct (has (snd (cs, names)) (group m 1));
    [injection E as <- <-; now apply Hcs|].
  injection E as <- <-. cbn [fst] in Hc.
  apply in_app_or in Hc as [Hc|[<-|[]]]; [now apply Hcs|].
  right. cbn [feedback]. intro Hin. apply In_trim in Hin.
  apply search_suffix in Es as (a & s' & Eline & Es).
  apply (lineRe_feedback _ _ _ _ Es) in Hin.
  apply (Hlines line); [now left|]. rewrite Eline. apply in_or_app. now right.
Qed.

Lemma defaultPass_oneLine (text : jsstring) (cs : list Criterion) :
  (forall c, In c cs -> oneLine c) ->
  forall c, In c (defaultPass text cs) -> oneLine c.
Proof.
  unfold defaultPass. generalize (map name cs) as found.
  generalize requiredCriteria as rs. intros rs found. revert cs.
  induction rs as [|r rs IH]; intros cs Hcs; simpl; [assumption|].
  apply IH. destruct (has found r); [assumption|].
  intros c Hc. apply in_app_or in Hc as [Hc|[<-|[]]]; [now apply Hcs|].
  now left.
Qed.

(** X17: the feedback of every criterion of the result is on one line:
    it holds no line feed, the primary pass turning each run of line
    feeds into a space and the line pass reading within a line, or it is
    the stock feedback of a category that was not found. *)
Theorem feedback_on_one_line (output writing : jsstring) (c : Criterion) :
  In c (criteria (parseAnalysisOutput output writing)) ->
  feedback c = defaultFeedback (name c) \/ ~ In 10%N (feedback c).
Proof.
  intro Hc. simpl in Hc. apply (proj1 (In_sort _ sortKey c _)) in Hc.
  revert c Hc. unfold pushedCriteria.
  apply defaultPass_oneLine, gapFillPass_oneLine. apply primaryPass_oneLine.
Qed.

End Feedback.

(** ** The two segments of the output *)

Lemma startsWith_firstn (p s : jsstring) (n : nat) :
  startsWith p (firstn n s) = true -> startsWith p s = true.
Proof.
  revert s n. induction p as [|x p IH]; intros s n; [reflexivity|].
  destruct n, s; simpl; try discriminate.
  intro H. apply andb_true_iff in H as [Hx Hp]. rewrite Hx. simpl. now apply (IH s n).
Qed.

Lemma indexOfFrom_found (p s : jsstring) :
  forall i n,
    indexOfFrom p s i = Some n ->
    i <= n /\ startsWith p (skipn (n - i) s) = true
    /\ indexOfFrom p (firstn (n - i) s) i = (if startsWith p [] then Some i else None).
Proof.
  induction s as [|c s IH]; intros i n; cbn [indexOfFrom].
  - destruct (startsWith p []) eqn:E; [|discriminate]. intros [= <-].
    rewrite Nat.sub_diag. simpl. now rewrite E.
  - destruct (startsWith p (c :: s)) eqn:E.
    + intros [= <-]. rewrite Nat.sub_diag. cbn [skipn firstn indexOfFrom].
      split; [lia|]. split; [assumption|]. now destruct (startsWith p []).
    + intro H. apply IH in H as (Hle & Hs & Hpre).
      split; [lia|]. replace (n - i) with (S (n - S i)) by lia.
      cbn [skipn firstn indexOfFrom]. split; [assumption|].
      destruct (startsWith p (c :: firstn (n - S i) s)) eqn:E'.
      * apply (startsWith_firstn p (c :: s) (S (n - S i))) in E'. congruence.
      * rewrite Hpre. destruct p; [discriminate|reflexivity].
Qed.

Section Segments.
Context {CM : CaseMapping}.

(** X18: the criteria and the overall score depend on the output before
    the first marker [ERRORS:] only, and the errors on the output from
    the marker on: parsing the two segments apart gives the same
    result, and the first segment gives no error. *)
Theorem segments_are_independent (output writing : jsstring) (n : nat) :
  indexOf output (js "ERRORS:") = Some n ->
  criteria (parseAnalysisOutput output writing)
  = criteria (parseAnalysisOutput (firstn n output) writing)
  /\ overallScore (parseAnalysisOutput output writing)
     = overallScore (parseAnalysisOutput (firstn n output) writing)
  /\ errors (parseAnalysisOutput output writing)
     = errors (parseAnalysisOutput (skipn n output) writing)
  /\ errors (parseAnalysisOutput (firstn n output) writing) = [].
Proof.
  intro H. unfold indexOf in H.
  destruct (indexOfFrom_found _ _ _ _ H) as (_ & Hs & Hpre).
  rewrite Nat.sub_0_r in Hs, Hpre. cbn [startsWith] in Hpre.
  assert (Ha : analysisSegment output = firstn n output).
  { unfold analysisSegment, indexOf. rewrite H. unfold substring.
    now rewrite Nat.max_r, Nat.min_l, Nat.sub_0_r by lia. }
  assert (Ha' : analysisSegment (firstn n output) = firstn n output).
  { unfold analysisSegment, indexOf. now rewrite Hpre. }
  assert (He : errorsSegment output = skipn n output).
  { unfold errorsSegment, indexOf. now rewrite H. }
  assert (He' : errorsSegment (skipn n output) = skipn n output).
  { unfold errorsSegment, indexOf.
    destruct (skipn n output) as [|c s]; [discriminate|].
    cbn [indexOfFrom]. now rewrite Hs. }
  assert (He'' : errorsSegment (firstn n output) = []).
  { unfold errorsSegment, indexOf. now rewrite Hpre. }
  cbn [criteria overallScore errors parseAnalysisOutput].
  rewrite Ha, Ha', He, He', He''. repeat split.
Qed.

(** X19: every result lists each of the four categories, so it has at
    least four criteria, whatever the model output is. *)
Theorem every_category_is_listed (output writing : jsstring) :
  (forall category,
      In category requiredCriteria ->
      exists c, In c (criteria (parseAnalysisOutput output writing))
                /\ name c = category)
  /\ 4 <= length (criteria (parseAnalysisOutput output writing)).
Proof.
  split; [intros category H; now apply required_present|].
  rewrite <- (length_map name).
  change 4 with (length requiredCriteria).
  apply NoDup_incl_length.
  - unfold requiredCriteria. repeat constructor; simpl; intuition discriminate.
  - intros category H.
    destruct (required_present output writing category H) as (c & Hc & <-).
    now apply in_map.
Qed.

End Segments.

(** ** Outputs in the format of the prompt

    The matcher run forwards: what it returns on an input of a known
    shape. *)

Lemma run_lit (w : jsstring) (k : cont) :
  forall s i cs,
    run (lit w) k (MState (w ++ s) i cs) = k (MState s (i + length w) cs).
Proof.
  induction w as [|c w IH]; intros s i cs; simpl.
  - now rewrite Nat.add_0_r.
  - rewrite N.eqb_refl. cbn [run] in IH. rewrite IH. f_equal. f_equal. lia.
Qed.

(** A greedy run of a class takes all the units of the class when what
    follows then succeeds. *)
Lemma run_star_greedy (p : char -> bool) (k : cont) (ws : jsstring) :
  forall s i cs res,
    forallb p ws = true ->
    match s with c :: _ => p c = false | [] => True end ->
    k (MState s (i + length ws) cs) = Some res ->
    run (Star true (Unit p)) k (MState (ws ++ s) i cs) = Some res.
Proof.
  induction ws as [|c ws IH]; intros s i cs res Hws Hs Hk.
  - simpl app. rewrite Nat.add_0_r in Hk. cbn [run rest]. rewrite iterate_S.
    cbn [run rest]. destruct s as [|c s]; [exact Hk|]. now rewrite Hs.
  - simpl in Hws. apply andb_true_iff in Hws as [Hc Hws].
    simpl app. cbn [run rest length]. rewrite iterate_S. cbn [run rest pos caps].
    rewrite Hc. replace (S i =? i) with false by (symmetry; apply Nat.eqb_neq; lia).
    specialize (IH s (S i) cs res Hws Hs).
    cbn [run rest] in IH. rewrite length_app in *.
    rewrite IH; [reflexivity|].
    now replace (S i + length ws) with (i + length (c :: ws)) by (simpl; lia).
Qed.

(** A lazy run of [[\s\S]] stops at the first offset at which what
    follows succeeds. *)
Lemma run_star_lazy (k : cont) (g : jsstring) :
  forall s i cs res,
    (forall g1 g2, g = g1 ++ g2 -> g2 <> [] ->
                   k (MState (g2 ++ s) (i + length g1) cs) = None) ->
    k (MState s (i + length g) cs) = Some res ->
    run (Star false any) k (MState (g ++ s) i cs) = Some res.
Proof.
  induction g as [|c g IH]; intros s i cs res Hnone Hk.
  - simpl app. rewrite Nat.add_0_r in Hk. cbn [run rest]. rewrite iterate_S.
    now rewrite Hk.
  - simpl app. cbn [run rest length]. rewrite iterate_S.
    pose proof (Hnone [] (c :: g) eq_refl ltac:(discriminate)) as H0.
    simpl in H0. rewrite Nat.add_0_r in H0. rewrite H0.
    unfold any at 1. cbn [run rest pos caps].
    replace (S i =? i) with false by (symmetry; apply Nat.eqb_neq; lia).
    specialize (IH s (S i) cs res). cbn [run rest] in IH.
    rewrite length_app in *. apply IH.
    + intros g1 g2 E Hne. specialize (Hnone (c :: g1) g2).
      simpl in Hnone. rewrite <- Nat.add_succ_comm in Hnone.
      apply Hnone; [now rewrite E|assumption].
    + now replace (S i + length g) with (i + length (c :: g)) by (simpl; lia).
Qed.


Lemma eqbIgnoreCase_refl (c : char) : eqbIgnoreCase c c = true.
Proof. unfold eqbIgnoreCase. now rewrite N.eqb_refl. Qed.

Lemma run_litI (w : jsstring) (k : cont) :
  forall s i cs,
    run (litI w) k (MState (w ++ s) i cs) = k (MState s (i + length w) cs).
Proof.
  induction w as [|c w IH]; intros s i cs; simpl.
  - now rewrite Nat.add_0_r.
  - rewrite eqbIgnoreCase_refl. cbn [run] in IH. rewrite IH. f_equal. f_equal. lia.
Qed.

(** A literal fails on an input that departs from it. *)
Lemma run_litI_differs (w x : jsstring) (k : cont) (s : jsstring) :
  departs w x = true ->
  forall i cs, run (litI w) k (MState (x ++ s) i cs) = None.
Proof.
  revert x. induction w as [|c w IH]; intros [|y x] H i cs; try discriminate.
  simpl in *. destruct (eqbIgnoreCase c y); [now apply IH|reflexivity].
Qed.

Lemma run_names (w1 w2 w3 w4 category : jsstring) (k : cont) (s : jsstring)
      (i : nat) (cs : list (nat * jsstring)) :
  forallb (fun w => forallb (fun x => str_eqb w x || departs w x) [w1; w2; w3; w4])
          [w1; w2; w3; w4] = true ->
  In category [w1; w2; w3; w4] ->
  run (litI w1 <|> litI w2 <|> litI w3 <|> litI w4)%re k (MState (category ++ s) i cs)
  = k (MState s (i + length category) cs).
Proof.
  intros Hall Hin.
  assert (Hd : forall w x, In w [w1; w2; w3; w4] -> In x [w1; w2; w3; w4] ->
                           w = x \/ departs w x = true).
  { intros w x Hw Hx. rewrite forallb_forall in Hall.
    specialize (Hall w Hw). rewrite forallb_forall in Hall.
    specialize (Hall x Hx). apply orb_true_iff in Hall as [H|H]; [left|now right].
    now apply str_eqb_eq. }
  assert (Hr : forall w, In w [w1; w2; w3; w4] ->
                 run (litI w) k (MState (category ++ s) i cs)
                 = k (MState s (i + length category) cs)
                 \/ run (litI w) k (MState (category ++ s) i cs) = None).
  { intros w Hw. destruct (Hd w category Hw Hin) as [->|H].
    - left. apply run_litI.
    - right. now apply run_litI_differs. }
  assert (Hc : run (litI category) k (MState (category ++ s) i cs)
               = k (MState s (i + length category) cs)) by apply run_litI.
  cbn [run].
  destruct (Hr w1 ltac:(simpl; tauto)) as [H1|H1];
  destruct (Hr w2 ltac:(simpl; tauto)) as [H2|H2];
  destruct (Hr w3 ltac:(simpl; tauto)) as [H3|H3];
  destruct (Hr w4 ltac:(simpl; tauto)) as [H4|H4];
  rewrite ?H1, ?H2, ?H3, ?H4;
  try (destruct (k _); reflexivity).
  rewrite <- Hc.
  destruct Hin as [<-|[<-|[<-|[<-|[]]]]]; congruence.
Qed.

Lemma run_categoryName (category : jsstring) (k : cont) (s : jsstring) (i : nat)
      (cs : list (nat * jsstring)) :
  In category requiredCriteria ->
  run categoryName k (MState (category ++ s) i cs)
  = k (MState s (i + length category) cs).
Proof.
  apply (run_names (js "Content") (js "Communicative Achievement")
                   (js "Organisation") (js "Language")).
  vm_compute. reflexivity.
Qed.

(** The equations of [run] on a sequence, a group and a single unit. *)
Lemma run_Cat (r1 r2 : regex) (k : cont) (st : mstate) :
  run (Cat r1 r2) k st = run r1 (run r2 k) st.
Proof. reflexivity. Qed.

Lemma run_Group (n : nat) (r : regex) (k : cont) (st : mstate) :
  run (Group n r) k st = run r (fun st' => k (capture n st st')) st.
Proof. reflexivity. Qed.

Lemma run_Alt (r1 r2 : regex) (k : cont) (st : mstate) :
  run (Alt r1 r2) k st
  = match run r1 k st with Some st' => Some st' | None => run r2 k st end.
Proof. reflexivity. Qed.

Lemma run_Ahead (r : regex) (k : cont) (st : mstate) :
  run (Ahead r) k st
  = match run r Some st with
    | Some st' => k (MState (rest st) (pos st) (caps st'))
    | None => None
    end.
Proof. reflexivity. Qed.

Lemma run_Unit (p : char -> bool) (k : cont) (c : char) (s : jsstring) (i : nat)
      (cs : list (nat * jsstring)) :
  p c = true -> run (Unit p) k (MState (c :: s) i cs) = k (MState s (S i) cs).
Proof. intro H. simpl. now rewrite H. Qed.

Lemma run_scoreDigits (d : char) (k : cont) (s : jsstring) (i : nat)
      (cs : list (nat * jsstring)) :
  isDigit d = true ->
  run scoreDigits k (MState (d :: 47%N :: s) i cs) = k (MState (47%N :: s) (S i) cs).
Proof.
  intro Hd. unfold scoreDigits, Opt. rewrite run_Cat.
  unfold digit. rewrite run_Unit by assumption. reflexivity.
Qed.

Lemma run_headRe (category : jsstring) (d : char) (s : jsstring) (k : cont)
      (i : nat) (cs : list (nat * jsstring)) (res : mstate) :
  In category requiredCriteria -> isDigit d = true ->
  k (MState s (i + length (category ++ js " (" ++ [d] ++ js "/5):")) cs) = Some res ->
  run headRe k (MState (category ++ js " (" ++ [d] ++ js "/5):" ++ s) i cs) = Some res.
Proof.
  intros Hc Hd Hk. unfold headRe. rewrite run_Cat.
  rewrite run_categoryName by assumption.
  change (js " (" ++ [d] ++ js "/5):" ++ s)
    with ([32%N] ++ 40%N :: d :: 47%N :: js "5):" ++ s).
  rewrite run_Cat. apply run_star_greedy; [reflexivity|reflexivity|].
  rewrite run_Cat. unfold one. rewrite run_Unit by reflexivity.
  rewrite run_Cat, run_scoreDigits by assumption.
  change (47%N :: js "5):" ++ s) with (js "/5):" ++ s).
  rewrite run_lit.
  rewrite <- Hk. f_equal. f_equal. rewrite !length_app. simpl. lia.
Qed.

(** *** Where the look-ahead fails *)

Lemma eqbIgnoreCase_letter (c x : char) :
  eqbIgnoreCase c x = true -> (isUpper c || isLower c || (c =? 32)%N) = true ->
  x <> 10%N /\ x <> 40%N.
Proof.
  unfold eqbIgnoreCase, isUpper, isLower. intros H Hc.
  repeat match goal with
         | H : (_ || _) = true |- _ => apply orb_true_iff in H as [H|H]
         | H : (_ && _) = true |- _ => apply andb_true_iff in H as [? H]
         | H : (_ =? _)%N = true |- _ => apply N.eqb_eq in H
         | H : (_ <=? _)%N = true |- _ => apply N.leb_le in H
         end; lia.
Qed.

Lemma Matches_litI (w : jsstring) :
  forall st st',
    Matches (litI w) st st' ->
    exists w', rest st = w' ++ rest st'
               /\ Forall2 (fun c x => eqbIgnoreCase c x = true) w w'.
Proof.
  induction w as [|c w IH]; intros st st' H; simpl in H.
  - inversion H; subst. exists []. now split.
  - apply Matches_cat_inv in H as (st1 & H1 & H2).
    apply Matches_unit_inv in H1 as (x & Hx & Hr & _).
    destruct (IH _ _ H2) as (w' & Hw & Hall).
    exists (x :: w'). split; [now rewrite Hr, Hw|now constructor].
Qed.

Lemma Matches_categoryName (st st' : mstate) :
  Matches categoryName st st' ->
  exists nm, rest st = nm ++ rest st' /\ ~ In 10%N nm /\ ~ In 40%N nm.
Proof.
  assert (Hlit : forall w,
             forallb (fun c => isUpper c || isLower c || (c =? 32)%N) w = true ->
             Matches (litI w) st st' ->
             exists nm, rest st = nm ++ rest st' /\ ~ In 10%N nm /\ ~ In 40%N nm).
  { intros w Hw H. apply Matches_litI in H as (nm & Hr & Hall).
    exists nm. split; [assumption|].
    clear Hr. induction Hall as [|c x w nm Hcx Hall IH]; [simpl; tauto|].
    simpl in Hw. apply andb_true_iff in Hw as [Hc Hw].
    destruct (eqbIgnoreCase_letter c x Hcx Hc) as [H10 H40].
    destruct (IH Hw) as [I10 I40]. simpl. split; intros [E|E]; congruence || tauto. }
  unfold categoryName. intro H.
  inversion H as [| | |r1 r2 sa sb H1|r1 r2 sa sb H2| | | | |]; subst; clear H;
    [apply (Hlit (js "Content")); [reflexivity|exact H1]|].
  inversion H2 as [| | |r1 r2 sa sb H1|r1 r2 sa sb H3| | | | |]; subst; clear H2;
    [apply (Hlit (js "Communicative Achievement")); [reflexivity|exact H1]|].
  inversion H3 as [| | |r1 r2 sa sb H1|r1 r2 sa sb H4| | | | |]; subst; clear H3;
    [apply (Hlit (js "Organisation")); [reflexivity|exact H1]|].
  apply (Hlit (js "Language")); [reflexivity|exact H4].
Qed.

Ltac flatten :=
  unfold nl; repeat first [rewrite <- app_assoc | progress cbn [app js map
    list_ascii_of_string N_of_ascii N_of_digits N.add N.mul Pos.add Pos.mul Pos.succ]].

Lemma first_occurrence (c : char) (a a' b b' : jsstring) :
  a ++ c :: b = a' ++ c :: b' -> ~ In c a -> ~ In c a' -> a = a'.
Proof.
  revert a'. induction a as [|x a IH]; intros [|y a'] E Ha Ha'; simpl in *.
  - reflexivity.
  - injection E as <- _. tauto.
  - injection E as -> _. tauto.
  - injection E as <- E. f_equal. apply (IH a' E); tauto.
Qed.

Lemma forallb_In (p : char -> bool) (s : jsstring) (c : char) :
  forallb p s = true -> In c s -> p c = true.
Proof. intros H Hin. rewrite forallb_forall in H. now apply H. Qed.

Lemma required_shape (category : jsstring) :
  In category requiredCriteria ->
  ~ In 40%N category /\ ~ In 10%N category
  /\ exists c0 tail, category = c0 :: tail /\ isSpace c0 = false.
Proof.
  unfold requiredCriteria.
  intros [<-|[<-|[<-|[<-|[]]]]];
    (split; [simpl; intuition discriminate|]);
    (split; [simpl; intuition discriminate|]);
    eexists; eexists; (split; [reflexivity|reflexivity]).
Qed.

(** No head of a criterion starts within the feedback of a line or at
    the line feed that ends it. *)
Lemma head_not_inside (text s : jsstring) (i : nat) (cs : list (nat * jsstring))
      (st' : mstate) :
  ~ In 40%N text -> followed s ->
  ~ Matches headRe (MState (text ++ 10%N :: s) i cs) st'.
Proof.
  intros Htext Hs H. unfold headRe in H.
  apply Matches_cat_inv in H as (s1 & H1 & H).
  apply Matches_cat_inv in H as (s2 & H2 & H).
  apply Matches_cat_inv in H as (s3 & H3 & _).
  apply Matches_categoryName in H1 as (nm & Hr1 & N10 & N40).
  apply Matches_star_unit in H2 as (ws & Hws & Hr2).
  apply Matches_one in H3. cbn [rest] in Hr1. rewrite Hr2, H3 in Hr1.
  assert (W40 : ~ In 40%N ws).
  { intro Hin. apply (forallb_In _ _ _ Hws) in Hin. discriminate. }
  destruct Hs as [->|([[category d] text'] & s' & (Hcat & _) & ->)].
  - assert (Hin : In 40%N (text ++ [10%N])).
    { unfold jsstring, char in *. rewrite Hr1.
      apply in_or_app. right. apply in_or_app. right. now left. }
    apply in_app_or in Hin as [Hin|[Hin|[]]]; [tauto|discriminate].
  - destruct (required_shape category Hcat) as (C40 & C10 & c0 & tail & Ec & Hc0).
    unfold criterionLine in Hr1.
    assert (E : (text ++ 10%N :: category ++ [32%N]) ++ 40%N :: (d :: js "/5): " ++ text' ++ nl ++ s')
                = (nm ++ ws) ++ chr "(" :: rest s3).
    { rewrite <- !app_assoc. rewrite <- Hr1. flatten. reflexivity. }
    apply first_occurrence in E.
    + symmetry in E. apply app_eq_app in E as [l [[E1 E2]|[E1 E2]]].
      * destruct l as [|x l].
        -- simpl in E2. rewrite <- E2, Ec in Hws.
           simpl in Hws. rewrite Hc0 in Hws. discriminate.
        -- simpl in E2. injection E2 as <- _. apply N10. rewrite E1.
           apply in_or_app. right. now left.
      * assert (Hin : In c0 ws).
        { rewrite E2, Ec. apply in_or_app. right. right. now left. }
        apply (forallb_In _ _ _ Hws) in Hin. congruence.
    + intro Hin. apply in_app_or in Hin as [Hin|[Hin|Hin]]; [tauto|discriminate|].
      apply in_app_or in Hin as [Hin|[Hin|[]]]; [tauto|discriminate].
    + intro Hin. apply in_app_or in Hin as [Hin|Hin]; tauto.
Qed.


(** *** The look-ahead after a line and within it *)

Lemma criterionLine_head (item : jsstring * char * jsstring) (s : jsstring) :
  criterionLine item ++ s
  = fst (fst item) ++ js " (" ++ [snd (fst item)] ++ js "/5):"
    ++ 32%N :: snd item ++ 10%N :: s.
Proof.
  destruct item as [[category d] text]. unfold criterionLine, nl. simpl.
  rewrite <- !app_assoc. simpl. rewrite <- !app_assoc. reflexivity.
Qed.

Lemma lookahead_follows (s : jsstring) (i : nat) (cs : list (nat * jsstring)) :
  followed s ->
  run (Ahead (headRe <|> Eos)) Some (MState s i cs) = Some (MState s i cs).
Proof.
  intros [->|([[category d] text] & s' & (Hcat & Hd & _) & ->)].
  - reflexivity.
  - rewrite run_Ahead, run_Alt, criterionLine_head. cbn [fst snd].
    rewrite (run_headRe category d _ Some i cs
               (MState (32%N :: text ++ 10%N :: s')
                       (i + length (category ++ js " (" ++ [d] ++ js "/5):")) cs));
      [reflexivity|assumption|assumption|reflexivity].
Qed.

Lemma lookahead_inside (text s : jsstring) (i : nat) (cs : list (nat * jsstring)) :
  ~ In 40%N text -> followed s ->
  run (Ahead (headRe <|> Eos)) Some (MState (text ++ 10%N :: s) i cs) = None.
Proof.
  intros Htext Hs. rewrite run_Ahead, run_Alt.
  destruct (run headRe Some (MState (text ++ 10%N :: s) i cs)) as [st|] eqn:E.
  - exfalso. apply run_sound in E as (st' & H & _).
    apply (head_not_inside _ _ _ _ _ Htext Hs H).
  - destruct (text ++ 10%N :: s) eqn:E'; [|reflexivity].
    destruct text; discriminate.
Qed.

Lemma dropWhile_split (p : char -> bool) (x : jsstring) :
  exists ws, forallb p ws = true /\ x = ws ++ dropWhile p x.
Proof.
  induction x as [|c x (ws & Hws & E)]; [now exists []|]. cbn [dropWhile].
  destruct (p c) eqn:Hc.
  - exists (c :: ws). split; [simpl; now rewrite Hc|]. simpl. now f_equal.
  - now exists [].
Qed.

(** A non-empty end of [text] followed by a line feed is an end of
    [text], then the line feed. *)
Lemma suffix_with_lf (text g1 g2 : jsstring) :
  g1 ++ g2 = text ++ [10%N] -> g2 <> [] ->
  exists t2, g2 = t2 ++ [10%N] /\ forall c, In c t2 -> In c text.
Proof.
  revert text. induction g1 as [|x g1 IH]; intros text E Hne.
  - simpl in E. subst g2. now exists text.
  - destruct text as [|y text].
    + simpl in E. injection E as _ E. destruct g1; [|discriminate].
      simpl in E. subst g2. contradiction.
    + simpl in E. injection E as _ E. destruct (IH text E Hne) as (t2 & -> & Hin).
      exists t2. split; [reflexivity|]. intros c Hc. right. now apply Hin.
Qed.

Lemma In_dropWhile_suffix (p : char -> bool) (x : jsstring) :
  exists pre, x = pre ++ dropWhile p x.
Proof. destruct (dropWhile_split p x) as (ws & _ & E). now exists ws. Qed.

Lemma firstn_exact (A : Type) (a b : list A) (n : nat) :
  n = length a -> firstn n (a ++ b) = a.
Proof.
  intros ->. rewrite firstn_app, Nat.sub_diag, firstn_all. simpl. apply app_nil_r.
Qed.

Lemma followed_head (s : jsstring) :
  followed s -> match s with c :: _ => isSpace c = false | [] => True end.
Proof.
  intros [->|([[category d] text] & s' & (Hcat & _) & ->)]; [exact I|].
  destruct (required_shape category Hcat) as (_ & _ & c0 & tail & -> & Hc0).
  exact Hc0.
Qed.

Lemma dropWhile_app_head (p : char -> bool) (x s : jsstring) :
  match s with c :: _ => p c = false | [] => True end ->
  dropWhile p (x ++ s) = dropWhile p x ++ s.
Proof.
  intro Hs. induction x as [|c x IH]; simpl.
  - destruct s as [|c s]; [reflexivity|]. simpl. now rewrite Hs.
  - destruct (p c); [exact IH|reflexivity].
Qed.

(** One attempt of the primary pattern at the start of a line. *)
Lemma run_primaryRe_line (category : jsstring) (d : char) (text s : jsstring) (i : nat) :
  In category requiredCriteria -> isDigit d = true -> ~ In 40%N text -> followed s ->
  run primaryRe Some (MState (criterionLine (category, d, text) ++ s) i [])
  = Some (MState s (i + length (criterionLine (category, d, text)))
            [(3, dropWhile isSpace (text ++ nl)); (2, [d]); (1, category)]).
Proof.
  intros Hcat Hd Htext Hs.
  rewrite criterionLine_head. cbn [fst snd]. unfold primaryRe.
  rewrite run_Cat, run_Group, run_categoryName by assumption.
  unfold capture at 1. cbn [rest pos caps].
  replace (i + length category - i) with (length category) by lia.
  rewrite firstn_exact by reflexivity.
  change (js " (" ++ [d] ++ js "/5):" ++ 32%N :: text ++ 10%N :: s)
    with ([32%N] ++ 40%N :: d :: 47%N :: js "5):" ++ 32%N :: text ++ 10%N :: s).
  rewrite run_Cat. apply run_star_greedy; [reflexivity|reflexivity|].
  rewrite run_Cat. unfold one at 1. rewrite run_Unit by reflexivity.
  rewrite run_Cat, run_Group, run_scoreDigits by assumption.
  unfold capture at 1. cbn [rest pos caps].
  match goal with
  | |- context [firstn (S (S ?x) - S ?x)] => replace (S (S x) - S x) with 1 by lia
  end.
  cbn [firstn].
  change (47%N :: js "5):" ++ 32%N :: text ++ 10%N :: s)
    with (js "/5):" ++ 32%N :: text ++ 10%N :: s).
  rewrite run_Cat, run_lit.
  destruct (dropWhile_split isSpace (32%N :: text ++ [10%N])) as (ws & Hws & E).
  change (dropWhile isSpace (32%N :: text ++ [10%N]))
    with (dropWhile isSpace (text ++ nl)) in E.
  set (G := dropWhile isSpace (text ++ nl)) in *.
  assert (Hlen : length ws + length G = S (length text + 1)).
  { rewrite <- length_app, <- E. simpl. now rewrite length_app. }
  replace (32%N :: text ++ 10%N :: s) with (ws ++ G ++ s)
    by (rewrite app_assoc, <- E; simpl; now rewrite <- app_assoc).
  rewrite run_Cat. apply run_star_greedy; [exact Hws| |].
  { pose proof (dropWhile_head isSpace (text ++ nl)) as Hstop. fold G in Hstop.
    destruct G; [apply followed_head, Hs|exact Hstop]. }
  rewrite run_Cat, run_Group. apply run_star_lazy.
  - intros g1 g2 EG Hne. unfold capture. cbn [rest pos caps].
    destruct (In_dropWhile_suffix isSpace (text ++ nl)) as (pre & Epre).
    fold G in Epre. rewrite EG, app_assoc in Epre. symmetry in Epre.
    destruct (suffix_with_lf text _ g2 Epre Hne) as (t2 & -> & Hin).
    rewrite <- app_assoc. simpl app.
    apply (lookahead_inside t2 s); [|exact Hs].
    intro H40. apply Htext. now apply Hin.
  - unfold capture. cbn [rest pos caps].
    change (Ahead _) with (Ahead (headRe <|> Eos)).
    rewrite lookahead_follows by exact Hs.
    f_equal. f_equal.
    + unfold criterionLine, nl. unfold jsstring, char in *.
      rewrite !length_app. simpl. lia.
    + f_equal. f_equal. apply firstn_exact. lia.
Qed.

(** *** The loop over the matches *)

Lemma scan_skip (r : regex) (a s : jsstring) (i : nat) :
  scan r (length a) (a ++ s) i = scan r 0 s (i + length a).
Proof.
  revert i. induction a as [|c a IH]; intro i.
  - simpl app. simpl length. now rewrite Nat.add_0_r.
  - simpl app. simpl length. cbn [scan]. rewrite IH. f_equal. lia.
Qed.

(** A match that covers a non-empty start of the text is followed by the
    matches of what is left. *)
Lemma scan_match (r : regex) (a s : jsstring) (i : nat) (m : rmatch) :
  a <> [] -> matchAt r (a ++ s) i = Some m -> m_end m = i + length a ->
  scan r 0 (a ++ s) i = m :: scan r 0 s (i + length a).
Proof.
  intros Ha Hm Hend. destruct a as [|c a]; [contradiction|].
  simpl app in *. cbn [scan]. rewrite Hm. f_equal.
  rewrite Hend. simpl length.
  replace (i + S (length a) - i - 1) with (length a) by lia.
  rewrite scan_skip. f_equal. lia.
Qed.

Lemma criterionLine_nonEmpty (item : jsstring * char * jsstring) :
  wellFormedLine item -> criterionLine item <> [].
Proof.
  destruct item as [[category d] text]. intros (Hcat & _).
  destruct (required_shape category Hcat) as (_ & _ & c0 & tail & -> & _).
  discriminate.
Qed.

Lemma formatted_followed (items : list (jsstring * char * jsstring)) :
  Forall wellFormedLine items -> followed (formatted items).
Proof.
  intros [|item rest Hitem _]; [now left|].
  right. exists item, (formatted rest). now split.
Qed.

Lemma trim_dropWhile (s : jsstring) : trim (dropWhile isSpace s) = trim s.
Proof.
  unfold trim. f_equal. f_equal. f_equal.
  induction s as [|c s IH]; [reflexivity|]. cbn [dropWhile].
  destruct (isSpace c) eqn:E; [exact IH|]. cbn [dropWhile]. now rewrite E.
Qed.

Lemma trim_line (text : jsstring) : trim (text ++ nl) = trim text.
Proof.
  destruct (forallb isSpace text) eqn:Hall.
  - transitivity (@nil char); [|symmetry]; apply trim_blank; [|exact Hall].
    rewrite forallb_app, Hall. reflexivity.
  - unfold trim. f_equal.
    assert (E : dropWhile isSpace (text ++ nl) = dropWhile isSpace text ++ nl).
    { clear -Hall. induction text as [|c text IH]; [discriminate|].
      simpl in *. destruct (isSpace c); [now apply IH|reflexivity]. }
    rewrite E, rev_app_distr. reflexivity.
Qed.

Lemma trim_required (category : jsstring) :
  In category requiredCriteria -> trim category = category.
Proof.
  unfold requiredCriteria. intros [<-|[<-|[<-|[<-|[]]]]]; reflexivity.
Qed.

Lemma parseFloat_one_digit (d : char) :
  isDigit d = true -> parseFloat [d] = floatOfZ (Z.of_N d - 48).
Proof.
  intro H. apply isDigit_cases in H. simpl in H.
  repeat (destruct H as [<-|H]; [vm_compute; reflexivity|]).
  contradiction.
Qed.

Lemma primaryRe_fails_at_end (i : nat) : matchAt primaryRe [] i = None.
Proof. reflexivity. Qed.

(** The primary pattern reads an output made of criterion lines back,
    line by line. *)
Lemma primaryPass_formatted (items : list (jsstring * char * jsstring)) :
  Forall wellFormedLine items ->
  primaryPass (formatted items) = map criterionOf items.
Proof.
  unfold primaryPass, matchAll. intro Hall.
  enough (H : forall i, map primaryCriterion (scan primaryRe 0 (formatted items) i)
                        = map criterionOf items) by apply H.
  induction items as [|[[category d] text] items IH]; intro i.
  - change (formatted []) with (@nil char). cbn [scan].
    rewrite primaryRe_fails_at_end. reflexivity.
  - inversion Hall as [|x l Hitem Hrest]; subst.
    pose proof Hitem as (Hcat & Hd & Htext).
    change (formatted ((category, d, text) :: items))
      with (criterionLine (category, d, text) ++ formatted items).
    pose proof (run_primaryRe_line category d text (formatted items) i
                  Hcat Hd Htext (formatted_followed items Hrest)) as Hrun.
    rewrite (scan_match primaryRe _ _ i
               (RMatch i (i + length (criterionLine (category, d, text)))
                       [(3, dropWhile isSpace (text ++ nl)); (2, [d]); (1, category)])).
    + cbn [map]. rewrite (IH Hrest). f_equal.
      unfold primaryCriterion, criterionOf, group. cbn [assoc m_caps Nat.eqb].
      rewrite trim_required, parseFloat_one_digit, trim_dropWhile, trim_line
        by assumption.
      reflexivity.
    + now apply criterionLine_nonEmpty.
    + unfold matchAt. now rewrite Hrun.
    + reflexivity.
Qed.

Lemma name_criterionOf (items : list (jsstring * char * jsstring)) :
  map name (map criterionOf items) = map lineCategory items.
Proof.
  rewrite map_map. apply map_ext. now intros [[category d] text].
Qed.

Lemma has_In (names : list jsstring) (s : jsstring) :
  In s names -> has names s = true.
Proof.
  intro H. unfold has. apply existsb_exists. exists s. split; [exact H|].
  apply str_eqb_refl.
Qed.

(** X20: the primary pattern reads criterion lines back one by one.  On
    a text made of lines [Name (d/5): feedback], with [Name] one of the
    four categories, [d] a digit and no opening parenthesis in the
    feedback, the primary pass pushes one criterion per line, in the
    order of the lines, whatever their number. *)
Theorem criterion_lines_read_back (items : list (jsstring * char * jsstring)) :
  Forall wellFormedLine items ->
  primaryPass (formatted items) = map criterionOf items.
Proof. apply primaryPass_formatted. Qed.

Section ReadBack.
Context {CM : CaseMapping}.

Lemma pushedCriteria_formatted (items : list (jsstring * char * jsstring)) :
  Forall wellFormedLine items ->
  incl requiredCriteria (map lineCategory items) ->
  pushedCriteria (formatted items) = map criterionOf items.
Proof.
  intros Hall Hincl. unfold pushedCriteria.
  rewrite primaryPass_formatted by assumption.
  assert (Hlen : 4 <= length (map criterionOf items)).
  { rewrite length_map, <- (length_map lineCategory).
    change 4 with (length requiredCriteria).
    apply NoDup_incl_length; [|exact Hincl].
    unfold requiredCriteria. repeat constructor; simpl; intuition discriminate. }
  unfold gapFillPass.
  replace (length (map criterionOf items) <? 4) with false
    by (symmetry; apply Nat.ltb_ge; exact Hlen).
  unfold defaultPass. rewrite name_criterionOf.
  unfold requiredCriteria in *. cbn [fold_left].
  rewrite !has_In; [reflexivity|..]; apply Hincl; simpl; tauto.
Qed.

(** X21: an output in the format that the prompt asks for is read back
    as written.  When the analysis segment is made of criterion lines,
    [Name (d/5): feedback], whose feedback holds no opening parenthesis,
    and every category has a line, the criteria of the result are those
    of the lines: the name, the digit as the score, and the feedback
    trimmed with its line feeds collapsed; none is added or lost. *)
Theorem formatted_output_read_back (output writing : jsstring)
        (items : list (jsstring * char * jsstring)) :
  analysisSegment output = formatted items ->
  Forall wellFormedLine items ->
  incl requiredCriteria (map lineCategory items) ->
  Permutation (criteria (parseAnalysisOutput output writing))
              (map criterionOf items).
Proof.
  intros Hseg Hall Hincl. cbn [criteria parseAnalysisOutput].
  rewrite Hseg, pushedCriteria_formatted by assumption.
  apply Permutation_sort.
Qed.

End ReadBack.

(** ** Two properties of the parser beside the claims *)

Section BesideTheClaims.
Context {CM : CaseMapping}.


(** X23: when the result lists four criteria whose scores are whole
    numbers from 0 to 9, the overall score is their mean rounded to the
    nearest integer, upwards on a tie. *)
Theorem overall_of_four_whole_scores (output writing : jsstring) (ds : list Z) :
  map score (criteria (parseAnalysisOutput output writing)) = map floatOfZ ds ->
  length ds = 4 ->
  Forall (fun d => 0 <= d < 10)%Z ds ->
  overallScore (parseAnalysisOutput output writing)
  = floatOfZ ((2 * sumZ ds + 4) / 8).
Proof. apply overall_is_rounded_mean. Qed.

End BesideTheClaims.

(** ** The further theorems at concrete inputs *)

Lemma other_clients_untouched_witness :
  Map_get (js "10.0.0.2") (snd (isRateLimited (js "10.0.0.3") 2000 busyMap))
  = Map_get (js "10.0.0.2") busyMap
  /\ fst (isRateLimited (js "10.0.0.2") 3000
            (snd (isRateLimited (js "10.0.0.3") 2000 busyMap)))
     = fst (isRateLimited (js "10.0.0.2") 3000 busyMap).
Proof.
  apply (other_clients_untouched (js "10.0.0.3") (js "10.0.0.2") 2000 3000 busyMap).
  discriminate.
Defined.

Lemma refused_until_window_passed_witness :
  snd (isRateLimited (js "10.0.0.1") 2000 busyMap) = busyMap
  /\ exists e,
       Map_get (js "10.0.0.1") busyMap = Some e
       /\ (RATE_LIMIT <= count e)%Z
       /\ (2000 - lastRequest e <= WINDOW_MS)%Z
       /\ forall now',
            fst (isRateLimited (js "10.0.0.1") now' busyMap)
            = (now' - lastRequest e <=? WINDOW_MS)%Z.
Proof.
  apply (refused_until_window_passed (js "10.0.0.1") 2000 busyMap).
  vm_compute. reflexivity.
Defined.

Lemma six_accepted_span_a_window_witness : (WINDOW_MS < 70000 - 0)%Z.
Proof.
  apply (six_accepted_span_a_window (js "10.0.0.1") burst 0 0 70000).
  - unfold burst. simpl. repeat constructor; lia.
  - vm_compute. reflexivity.
  - vm_compute. reflexivity.
Defined.

Lemma badge_of_score_witness :
  (PrimFloat.is_nan 3.5 = true
   /\ CriteriaGrid.getColor 3.5 = js "bg-red-400 text-white")
  \/ exists tenths,
       (0 <= tenths <= 99)%Z /\ 3.5%float = decimalScore tenths
       /\ CriteriaGrid.getColor 3.5
          = if (40 <=? tenths)%Z then js "bg-green-500 text-white"
            else if (tenths =? 30)%Z then js "bg-yellow-400 text-white"
            else js "bg-red-400 text-white".
Proof.
  apply (badge_of_score (CM := basicLatin) (js "Content (3.5/5): x") []
           {| name := js "Content"; score := 3.5; feedback := js "x" |}).
  vm_compute. tauto.
Defined.

Lemma marks_tile_the_text_witness :
  concat (map partText twoMarksParts) = js "abcdef".
Proof.
  apply (marks_tile_the_text (js "abcdef") twoMarks twoMarksParts).
  - unfold twoMarks.
    apply Forall_cons; [|apply Forall_cons; [|apply Forall_nil]];
      intros p H; vm_compute in H; injection H as <-; unfold proper; simpl; lia.
  - unfold twoMarks.
    apply FOP_cons; [apply Forall_cons; [|apply Forall_nil]|].
    + intros p p' H H'. vm_compute in H, H'.
      injection H as <-. injection H' as <-. unfold apart. simpl. lia.
    + apply FOP_cons; [apply Forall_nil|apply FOP_nil].
  - vm_compute. reflexivity.
Defined.

Lemma null_record_throws_witness :
  In VNull (errors (parseAnalysisOutput (CM := basicLatin)
                      (js "ERRORS:[null]") (js "abc")))
  /\ highlightText (js "abc")
       (errors (parseAnalysisOutput (CM := basicLatin) (js "ERRORS:[null]") (js "abc")))
     = TypeError.
Proof.
  apply (null_record_throws (CM := basicLatin) (js "ERRORS:[null]") (js "abc")).
  vm_compute. tauto.
Defined.

Lemma located_records_tile_the_submission_witness :
  (exists parts,
      highlightText repeatedPhraseWriting
        [withSpan (VObj [(js "text", VStr (js "seen him"))]) 2 10;
         withSpan (VObj [(js "text", VStr (js "seen him"))]) 24 32]
      = Rendered parts
      /\ concat (map partText parts) = repeatedPhraseWriting)
  \/ (highlightText repeatedPhraseWriting
        [withSpan (VObj [(js "text", VStr (js "seen him"))]) 2 10;
         withSpan (VObj [(js "text", VStr (js "seen him"))]) 24 32]
      = Fallback
      /\ Forall (fun o => spanOf o = None)
                [withSpan (VObj [(js "text", VStr (js "seen him"))]) 2 10;
                 withSpan (VObj [(js "text", VStr (js "seen him"))]) 24 32]).
Proof.
  apply (located_records_tile_the_submission (CM := basicLatin)
           repeatedPhraseOutput repeatedPhraseWriting).
  - unfold noSpanFields. vm_compute. repeat constructor.
  - vm_compute. reflexivity.
  - vm_compute. intros [H|[H|[]]]; discriminate.
  - vm_compute. discriminate.
Defined.

Lemma countWords_additive_witness :
  countWords (js "a b" ++ 32%N :: js "c") = countWords (js "a b") + countWords (js "c")
  /\ (countWords (js "a b") = 0 <-> forallb isSpace (js "a b") = true)
  /\ 2 * countWords (js "a b") <= length (js "a b") + 1.
Proof.
  apply (countWords_additive (js "a b") (js "c") 32%N). reflexivity.
Defined.

Lemma code_is_not_meaningful_witness :
  isMeaningful (CM := basicLatin) (js "see <b>this</b> now") = false.
Proof.
  apply (code_is_not_meaningful (CM := basicLatin) (js "see <b>this</b> now") (js "<b>")).
  - left. exists (js "b"). repeat split. discriminate.
  - exists (js "see "), (js "this</b> now"). reflexivity.
Defined.

Lemma a_fifth_may_be_foreign_witness :
  isMostlyEnglish alwaysEnglish (js "Hello. World.") 0.2 = true
  <-> 0 < length (sentences (js "Hello. World."))
      /\ 5 * nonEnglish alwaysEnglish (sentences (js "Hello. World."))
         <= length (sentences (js "Hello. World.")).
Proof.
  apply (a_fifth_may_be_foreign alwaysEnglish (js "Hello. World.")).
  simpl. lia.
Defined.

Lemma analysed_submission_witness :
  fst (isRateLimited (clientOf None) 0 []) = false
  /\ 150 <= countWords sampleEssay <= 500
  /\ 299 <= length sampleEssay <= 4000
  /\ isMeaningful (CM := basicLatin) sampleEssay = true
  /\ 0 < length (sentences sampleEssay)
  /\ 5 * nonEnglish alwaysEnglish (sentences sampleEssay) <= length (sentences sampleEssay)
  /\ exists content,
       Completed (Some wellFormedOutput) = Completed content
       /\ parseAnalysisOutput (CM := basicLatin) wellFormedOutput sampleEssay
          = parseAnalysisOutput (CM := basicLatin) (outputOf content) sampleEssay.
Proof.
  apply (analysed_submission (CM := basicLatin) alwaysEnglish None 0 [] sampleEssay
           (Completed (Some wellFormedOutput))
           (parseAnalysisOutput (CM := basicLatin) wellFormedOutput sampleEssay)).
  vm_compute. reflexivity.
Defined.

Lemma empty_submission_witness :
  isMeaningful (CM := basicLatin) [] = true
  /\ isMostlyEnglish alwaysEnglish [] 0.2 = false
  /\ fst (POST (CM := basicLatin) alwaysEnglish None 0 [] (Some []) Unavailable)
     = NonEnglish.
Proof.
  apply (empty_submission (CM := basicLatin) alwaysEnglish None 0 [] Unavailable).
  - reflexivity.
  - vm_compute. reflexivity.
Defined.

Lemma output_without_slash_witness :
  criteria (parseAnalysisOutput (CM := basicLatin) (js "No response generated") (js "abc"))
  = map (fallbackCriterion (CM := basicLatin))
        [js "Communicative Achievement"; js "Organisation"; js "Language"; js "Content"]
  /\ overallScore (parseAnalysisOutput (CM := basicLatin)
                     (js "No response generated") (js "abc"))
     = 3%float.
Proof.
  apply (output_without_slash (CM := basicLatin) (js "No response generated") (js "abc")).
  vm_compute. intro H. repeat (destruct H as [H|H]; [discriminate|]). exact H.
Defined.

Lemma feedback_on_one_line_witness :
  js "a b" = defaultFeedback (CM := basicLatin) (js "Content") \/ ~ In 10%N (js "a b").
Proof.
  apply (feedback_on_one_line (CM := basicLatin)
           (js "Content (4/5): a" ++ nl ++ nl ++ js "b") []
           {| name := js "Content"; score := 4; feedback := js "a b" |}).
  vm_compute. tauto.
Defined.

Lemma segments_are_independent_witness :
  criteria (parseAnalysisOutput (CM := basicLatin) wellFormedOutput (js "I am gonna go."))
  = criteria (parseAnalysisOutput (CM := basicLatin)
                (firstn 109 wellFormedOutput) (js "I am gonna go."))
  /\ overallScore (parseAnalysisOutput (CM := basicLatin)
                     wellFormedOutput (js "I am gonna go."))
     = overallScore (parseAnalysisOutput (CM := basicLatin)
                       (firstn 109 wellFormedOutput) (js "I am gonna go."))
  /\ errors (parseAnalysisOutput (CM := basicLatin) wellFormedOutput (js "I am gonna go."))
     = errors (parseAnalysisOutput (CM := basicLatin)
                 (skipn 109 wellFormedOutput) (js "I am gonna go."))
  /\ errors (parseAnalysisOutput (CM := basicLatin)
               (firstn 109 wellFormedOutput) (js "I am gonna go."))
     = [].
Proof.
  apply (segments_are_independent (CM := basicLatin) wellFormedOutput
           (js "I am gonna go.") 109).
  vm_compute. reflexivity.
Defined.


Lemma overall_of_four_whole_scores_witness :
  overallScore (parseAnalysisOutput (CM := basicLatin) wellFormedOutput (js "I am gonna go."))
  = floatOfZ ((2 * sumZ [5; 3; 4; 4]%Z + 4) / 8).
Proof.
  apply (overall_of_four_whole_scores (CM := basicLatin) wellFormedOutput
           (js "I am gonna go.") [5; 3; 4; 4]%Z).
  - vm_compute. reflexivity.
  - reflexivity.
  - repeat constructor; lia.
Defined.

Lemma criterion_lines_read_back_witness :
  primaryPass (formatted sampleLines) = map criterionOf sampleLines.
Proof.
  apply (criterion_lines_read_back sampleLines).
  repeat apply Forall_cons; try apply Forall_nil;
    (split; [simpl; tauto|split; [reflexivity|]]);
    simpl; intuition discriminate.
Defined.

Lemma formatted_output_read_back_witness :
  Permutation (criteria (parseAnalysisOutput (CM := basicLatin)
                           (formatted sampleLines) (js "abc")))
              (map criterionOf sampleLines).
Proof.
  apply (formatted_output_read_back (CM := basicLatin) (formatted sampleLines) (js "abc")
           sampleLines).
  - vm_compute. reflexivity.
  - repeat apply Forall_cons; try apply Forall_nil;
      (split; [simpl; tauto|split; [reflexivity|]]);
      simpl; intuition discriminate.
  - intros category H. vm_compute in H. vm_compute. tauto.
Defined.
